(** * KPI tree editor: tree store and XMind codec

    A shallow embedding of [src/composables/useTreeStore.ts] and
    [src/utils/fileExport.ts], with the tab manager of
    [src/composables/useTabManager.ts] and the search of
    [src/composables/useTreeState.ts].

    Conventions of the embedding.
    - A TypeScript optional field [f?: T] is an [option T]; [undefined] is
      [None].  JavaScript truthiness is written out where the source relies
      on it: an array is truthy even when empty, a string is truthy iff it is
      not empty.
    - Strings are [string]s of 8-bit characters; the case mapping and the
      white-space class are the ASCII ones.  They are those of the source
      on ASCII text; the source also counts Unicode white space and line
      separators and maps the case of other letters, so a statement that
      rests on them for arbitrary text is made for ASCII text.
    - [JSON.parse(JSON.stringify(x))] ([deepClone], and the content.json
      member of the XMind container) is the identity on the values of this
      model: every field modelled here is JSON data, and a field that is
      [undefined] is dropped and read back as [undefined].  An [icon] that
      is a view component is no JSON data and the copy does not carry it:
      the forests of the model are forests held as JSON, and a statement
      about the fields that an operation keeps leaves [icon] out where the
      operation copies the forest.
    - [Date.now()] and [Math.random()] are drawn from oracles indexed by a
      counter that the store threads along.
    - [icon], a view component in the source, is an opaque tag; no modelled
      operation looks into it. *)

From Stdlib Require Import String Ascii List Bool Arith ZArith Lia DecimalString.
From Stdlib Require Import Permutation.
Import ListNotations.
Open Scope string_scope.
Open Scope list_scope.

Set Implicit Arguments.
Set Warnings "-register-all".

(* ================================================================== *)
(** * Types ([src/types/index.ts]) *)

Inductive ESGCategory : Type := ESG_E | ESG_S | ESG_G.

Inductive EmissionScope : Type := Scope1 | Scope2 | Scope3.

Inductive NodeCategory : Type :=
| root | revenue | cost | fcf | capex | financial | operational
| maintenance | esg_cat | production | employee | equipment | metric.

Definition NodeCategory_eqb (a b : NodeCategory) : bool :=
  match a, b with
  | root, root | revenue, revenue | cost, cost | fcf, fcf | capex, capex
  | financial, financial | operational, operational
  | maintenance, maintenance | esg_cat, esg_cat | production, production
  | employee, employee | equipment, equipment | metric, metric => true
  | _, _ => false
  end.

(** The string a category is in the source (['esg'] is [esg_cat] here, the
    name [esg] being the node field). *)
Definition categoryName (c : NodeCategory) : string :=
  match c with
  | root => "root" | revenue => "revenue" | cost => "cost" | fcf => "fcf"
  | capex => "capex" | financial => "financial"
  | operational => "operational" | maintenance => "maintenance"
  | esg_cat => "esg" | production => "production" | employee => "employee"
  | equipment => "equipment" | metric => "metric"
  end.

Record NodeRelationship : Type := mkRel {
  rel_id : string;
  targetId : string;
  label : option string
}.

Inductive KPINode : Type := mkKPINode {
  id : string;
  name : string;
  icon : option string;
  unit : option string;
  esg : option ESGCategory;
  scope : option EmissionScope;
  category : option NodeCategory;
  children : option (list KPINode);
  isDetached : option bool;
  relationships : option (list NodeRelationship);
  markers : option (list string);
  position : option (Z * Z)
}.

Record NewNodeData : Type := mkNewNodeData {
  nd_name : string;
  nd_unit : option string;
  nd_esg : option ESGCategory;
  nd_scope : option EmissionScope
}.

(** [{ ...node, children: cs }] *)
Definition withChildren (node : KPINode) (cs : option (list KPINode)) : KPINode :=
  mkKPINode (id node) (name node) (icon node) (unit node) (esg node)
            (scope node) (category node) cs (isDetached node)
            (relationships node) (markers node) (position node).

(** [{ ...node, relationships: rs }] *)
Definition withRelationships (node : KPINode)
           (rs : option (list NodeRelationship)) : KPINode :=
  mkKPINode (id node) (name node) (icon node) (unit node) (esg node)
            (scope node) (category node) (children node) (isDetached node)
            rs (markers node) (position node).

(** A leaf that sets only [id] and [name]; used to write forests down. *)
Definition leaf (i nm : string) : KPINode :=
  mkKPINode i nm None None None None None None None None None None.

(** [arr || []] *)
Definition orEmpty {A : Type} (o : option (list A)) : list A :=
  match o with Some l => l | None => [] end.

(* ================================================================== *)
(** * Induction over the nested tree *)

Section KPINode_induction.
Variable P : KPINode -> Prop.
Hypothesis step :
  forall n, (forall cs, children n = Some cs -> Forall P cs) -> P n.

Fixpoint KPINode_nested_ind (n : KPINode) : P n :=
  step n
    (match n as n0 return forall cs, children n0 = Some cs -> Forall P cs with
     | mkKPINode _ _ _ _ _ _ _ ch _ _ _ _ =>
         fun cs (e : ch = Some cs) =>
           match e in _ = o
                 return match o with Some l => Forall P l | None => True end
           with
           | eq_refl =>
               match ch as o
                     return match o with Some l => Forall P l | None => True end
               with
               | Some l =>
                   (fix all (l : list KPINode) : Forall P l :=
                      match l with
                      | [] => Forall_nil P
                      | c :: r => Forall_cons c (KPINode_nested_ind c) (all r)
                      end) l
               | None => I
               end
           end
     end).
End KPINode_induction.

(** Pre-order enumeration of a forest: every node, at every depth. *)
Fixpoint nodesOf (n : KPINode) : list KPINode :=
  n :: match children n with
       | Some cs => (fix go (l : list KPINode) : list KPINode :=
                       match l with
                       | [] => []
                       | c :: r => nodesOf c ++ go r
                       end) cs
       | None => []
       end.

Definition forestNodes (forest : list KPINode) : list KPINode :=
  flat_map nodesOf forest.

(* ================================================================== *)
(** * Category model ([useTreeStore.ts], lines 7-44) *)

Definition VALID_PARENT_CATEGORIES (c : NodeCategory) : list NodeCategory :=
  match c with
  | root => []
  | revenue => [root]
  | cost => [root]
  | fcf => [root]
  | capex => [root]
  | financial => [root]
  | operational => [root]
  | maintenance => [root; operational]
  | esg_cat => [root]
  | production => [revenue]
  | employee => [cost]
  | equipment => [cost; production; maintenance]
  | metric => [revenue; cost; fcf; capex; financial; operational; maintenance;
               esg_cat; production; employee; equipment; metric]
  end.

(** [arr.includes(c)] on a category array *)
Definition includesCat (l : list NodeCategory) (c : NodeCategory) : bool :=
  existsb (NodeCategory_eqb c) l.

(** The test both branches of [isMoveValid] make:
    [VALID_PARENT_CATEGORIES[child].includes(parent)]. *)
Definition isLegalParent (childCategory parentCategory : NodeCategory) : bool :=
  includesCat (VALID_PARENT_CATEGORIES childCategory) parentCategory.

(* ------------------------------------------------------------------ *)
(** ** String primitives used by the source *)

(** [s.toLowerCase()] on ASCII letters. *)
Definition lowerAscii (c : ascii) : ascii :=
  let n := nat_of_ascii c in
  if ((65 <=? n)%nat && (n <=? 90)%nat)%bool then ascii_of_nat (n + 32) else c.

Fixpoint toLowerCase (s : string) : string :=
  match s with
  | EmptyString => EmptyString
  | String c r => String (lowerAscii c) (toLowerCase r)
  end.

(** [s.startsWith(p)] *)
Definition startsWith (s p : string) : bool := String.prefix p s.

(** [s.includes(sub)] *)
Fixpoint includes (s sub : string) : bool :=
  if String.prefix sub s then true
  else match s with
       | EmptyString => false
       | String _ r => includes r sub
       end.

(** Truthiness of a [string | null | undefined] value. *)
Definition truthyStr (o : option string) : bool :=
  match o with
  | Some s => negb (s =? "")
  | None => false
  end.

(** Truthiness of a [boolean | undefined] value. *)
Definition truthyBool (o : option bool) : bool :=
  match o with Some b => b | None => false end.

Definition inferCategory (node : KPINode) : NodeCategory :=
  match category node with
  | Some c => c
  | None =>
      let i := toLowerCase (id node) in
      let nm := toLowerCase (name node) in
      if (i =? "ebitda-root") || includes i "ebitda" then root
      else if startsWith i "production-" || (i =? "production-revenue")
              || includes nm "production (revenue)" then revenue
      else if (i =? "cash-cost") || startsWith i "cash-cost" then cost
      else if (i =? "free-cash-flow") || startsWith i "fcf"
              || includes i "free-cash" then fcf
      else if (i =? "capex") || startsWith i "capex-" then capex
      else if startsWith i "financial-" || (i =? "financial-performance")
           then financial
      else if startsWith i "operational-" || (i =? "operational-excellence")
           then operational
      else if (i =? "maintenance") || startsWith i "maintenance-"
              || startsWith i "rm-" || startsWith i "reliability-"
           then maintenance
      else if includes i "esg" || startsWith i "environmental-"
              || startsWith i "social-" || startsWith i "governance-"
           then esg_cat
      else if startsWith i "ob-" || startsWith i "coal-"
              || startsWith i "drill-blast" then production
      else if startsWith i "emp-" || startsWith i "employee-"
              || includes nm "employee" || includes nm "labor" then employee
      else if startsWith i "tyre-" || startsWith i "fuel-"
              || startsWith i "equipment-" || includes nm "tyre"
              || includes nm "fuel" || includes nm "equipment" then equipment
      else metric
  end.

(* ================================================================== *)
(** * Tree store ([useTreeStore.ts]) *)

(** The reactive state the modelled operations read and write.  The context
    menu and the modals are view state and are left out, as is the
    [localStorage] time stamp that [saveModifications] writes.  [nextId]
    counts the identifiers drawn so far. *)
Record Store : Type := mkStore {
  treeData : list KPINode;
  moveError : option string;
  hasUnsavedChanges : bool;
  linkingMode : bool;
  linkSourceId : option string;
  linkSourceName : string;
  nextId : nat
}.

Definition setTree (st : Store) (t : list KPINode) (unsaved : bool) (k : nat) : Store :=
  mkStore t (moveError st) unsaved (linkingMode st) (linkSourceId st)
          (linkSourceName st) k.

(** [{ valid: boolean; reason?: string }] *)
Record MoveResult : Type := mkMoveResult {
  valid : bool;
  reason : option string
}.

(** [deepClone]: a JSON round trip, the identity on this model. *)
Definition deepClone (nodes : list KPINode) : list KPINode := nodes.

(** Body of the loop of [findNodeById] for one node; the loop over the
    children is the nested [fix]. *)
Fixpoint findNodeIn (target : string) (node : KPINode) : option KPINode :=
  if id node =? target then Some node
  else match children node with
       | Some cs =>
           (fix loop (l : list KPINode) : option KPINode :=
              match l with
              | [] => None
              | c :: r => match findNodeIn target c with
                          | Some found => Some found
                          | None => loop r
                          end
              end) cs
       | None => None
       end.

Fixpoint findNodeById (target : string) (nodes : list KPINode) : option KPINode :=
  match nodes with
  | [] => None
  | node :: rest => match findNodeIn target node with
                    | Some found => Some found
                    | None => findNodeById target rest
                    end
  end.

(** One iteration of the loop of [findParentOfNode]: [Some r] is
    [return r], [None] falls through to the next node.  The recursive call
    returns a node or [null], never [undefined], so the guard
    [found !== undefined] holds whenever it is reached and the result of
    the call is returned as it is. *)
Fixpoint findParentIn (nodeId : string) (parent : option KPINode)
         (node : KPINode) : option (option KPINode) :=
  if id node =? nodeId then Some parent
  else match children node with
       | Some cs =>
           Some ((fix loop (l : list KPINode) : option KPINode :=
                    match l with
                    | [] => None
                    | c :: r => match findParentIn nodeId (Some node) c with
                                | Some res => res
                                | None => loop r
                                end
                    end) cs)
       | None => None
       end.

Fixpoint findParentOfNode (nodeId : string) (nodes : list KPINode)
         (parent : option KPINode) : option KPINode :=
  match nodes with
  | [] => None
  | node :: rest => match findParentIn nodeId parent node with
                    | Some res => res
                    | None => findParentOfNode nodeId rest parent
                    end
  end.

Definition isMoveValid (sourceNode : KPINode) (targetNode : option KPINode)
  : MoveResult :=
  let sourceCategory := inferCategory sourceNode in
  let targetCategory :=
    match targetNode with Some t => inferCategory t | None => root end in
  if NodeCategory_eqb sourceCategory root then
    mkMoveResult false (Some "Cannot move root-level EBITDA node")
  else
    match targetNode with
    | None =>
        if includesCat (VALID_PARENT_CATEGORIES sourceCategory) root
        then mkMoveResult true None
        else mkMoveResult false
               (Some (name sourceNode ++ " cannot be moved to root level")%string)
    | Some _ =>
        if includesCat (VALID_PARENT_CATEGORIES sourceCategory) targetCategory
        then mkMoveResult true None
        else mkMoveResult false
               (Some (categoryName sourceCategory ++ " items cannot be moved under "
                      ++ categoryName targetCategory ++ " items.")%string)
    end.

Fixpoint checkDescendants (target : string) (node : KPINode) : bool :=
  if id node =? target then true
  else match children node with
       | Some cs => existsb (checkDescendants target) cs
       | None => false
       end.

Definition isDescendant (forest : list KPINode) (nodeId targetId : string) : bool :=
  match findNodeById nodeId forest with
  | None => false
  | Some sourceNode => checkDescendants targetId sourceNode
  end.

(** [targetParentId && targetParentId !== '__root__'] *)
Definition namesNode (targetParentId : option string) : bool :=
  truthyStr targetParentId
  && negb (match targetParentId with Some t => t =? "__root__" | None => false end).

Definition validateMove (forest : list KPINode) (nodeId : string)
           (targetParentId : option string) : MoveResult :=
  if match targetParentId with Some t => nodeId =? t | None => false end then
    mkMoveResult false (Some "Cannot move a node to itself")
  else
    match findNodeById nodeId forest with
    | None => mkMoveResult false (Some "Source node not found")
    | Some sourceNode =>
        if namesNode targetParentId
           && isDescendant forest nodeId
                (match targetParentId with Some t => t | None => "" end)
        then mkMoveResult false (Some "Cannot move a node into its own descendant")
        else
          let targetNode :=
            if namesNode targetParentId
            then match targetParentId with
                 | Some t => findNodeById t forest
                 | None => None
                 end
            else None in
          isMoveValid sourceNode targetNode
    end.

(** The callback of [items.filter] in [removeNodeFromTree], for one item:
    the item as it stays in the array ([None] when it is filtered out) and
    the variable [removedNode] after the call. *)
Fixpoint removeFilterItem (nodeId : string) (item : KPINode)
         (removedNode : option KPINode) : option KPINode * option KPINode :=
  if id item =? nodeId then (None, Some item)
  else match children item with
       | Some cs =>
           let '(cs', removed') :=
             (fix filter (l : list KPINode) (rm : option KPINode)
                : list KPINode * option KPINode :=
                match l with
                | [] => ([], rm)
                | c :: r =>
                    let '(kept, rm1) := removeFilterItem nodeId c rm in
                    let '(r', rm2) := filter r rm1 in
                    (match kept with Some c' => c' :: r' | None => r' end, rm2)
                end) cs removedNode in
           (Some (withChildren item (Some cs')), removed')
       | None => (Some item, removedNode)
       end.

Fixpoint removeFilter (nodeId : string) (items : list KPINode)
         (removedNode : option KPINode) : list KPINode * option KPINode :=
  match items with
  | [] => ([], removedNode)
  | c :: r =>
      let '(kept, rm1) := removeFilterItem nodeId c removedNode in
      let '(r', rm2) := removeFilter nodeId r rm1 in
      (match kept with Some c' => c' :: r' | None => r' end, rm2)
  end.

(** Returns [(updatedNodes, removedNode)]. *)
Definition removeNodeFromTree (nodeId : string) (nodes : list KPINode)
  : list KPINode * option KPINode :=
  removeFilter nodeId (deepClone nodes) None.

(** The callback of [nodes.map] in [addNodeToParent] (and, with the new
    node for [nodeToAdd], of [addToParent] in [addNode]). *)
Fixpoint addToParentNode (parentId : string) (nodeToAdd : KPINode)
         (node : KPINode) : KPINode :=
  if id node =? parentId then
    withChildren node (Some (orEmpty (children node) ++ [nodeToAdd]))
  else match children node with
       | Some cs =>
           withChildren node (Some (map (addToParentNode parentId nodeToAdd) cs))
       | None => node
       end.

Definition addNodeToParent (nodes : list KPINode) (parentId : option string)
           (nodeToAdd : KPINode) : list KPINode :=
  match parentId with
  | None => nodes ++ [nodeToAdd]
  | Some p =>
      if p =? "__root__" then nodes ++ [nodeToAdd]
      else map (addToParentNode p nodeToAdd) nodes
  end.

(** [moveNode]; the timer that clears [moveError] after five seconds is
    outside the model. *)
Definition moveNode (nodeId : string) (targetParentId : option string)
           (st : Store) : MoveResult * Store :=
  let validation := validateMove (treeData st) nodeId targetParentId in
  if negb (valid validation) then
    (validation,
     mkStore (treeData st)
             (Some (if truthyStr (reason validation)
                    then match reason validation with Some r => r | None => "" end
                    else "Invalid move"))
             (hasUnsavedChanges st) (linkingMode st) (linkSourceId st)
             (linkSourceName st) (nextId st))
  else
    match removeNodeFromTree nodeId (treeData st) with
    | (_, None) => (mkMoveResult false (Some "Node not found"), st)
    | (updatedNodes, Some removedNode) =>
        (mkMoveResult true None,
         setTree st (addNodeToParent updatedNodes targetParentId removedNode)
                 true (nextId st))
    end.

(** [arr.splice(i, 0, x)] for [0 <= i]. *)
Definition spliceIn {A : Type} (i : nat) (x : A) (l : list A) : list A :=
  firstn i l ++ x :: skipn i l.

(** [arr.findIndex(p)], for an array in which [p] holds somewhere. *)
Fixpoint findIndex {A : Type} (p : A -> bool) (l : list A) : nat :=
  match l with
  | [] => 0
  | x :: r => if p x then 0 else S (findIndex p r)
  end.

(** [result[idx] = x] for [idx < result.length]. *)
Fixpoint setIndex {A : Type} (idx : nat) (x : A) (l : list A) : list A :=
  match l, idx with
  | [], _ => []
  | _ :: r, O => x :: r
  | y :: r, S i => y :: setIndex i x r
  end.

Section WithIdOracles.

(** [generateNodeId()] and the [linkId] of [createLink]: the [k]-th
    identifier drawn. *)
Variable genNodeId : nat -> string.
Variable genLinkId : nat -> string.

Definition addNode (parentId : string) (nodeData : NewNodeData) (st : Store)
  : string * Store :=
  let newNode :=
    mkKPINode (genNodeId (nextId st)) (nd_name nodeData) None
              (nd_unit nodeData) (nd_esg nodeData) (nd_scope nodeData)
              (Some metric) None None None None None in
  (id newNode,
   setTree st (map (addToParentNode parentId newNode) (deepClone (treeData st)))
           true (S (nextId st))).

(** [duplicateWithNewIds], threading the identifier counter: the object
    literal draws the node's own identifier before it maps over the
    children. *)
Fixpoint duplicateWithNewIds (node : KPINode) (k : nat) : KPINode * nat :=
  let newId := genNodeId k in
  let '(cs, k') :=
    match children node with
    | Some l =>
        let '(l', k2) :=
          (fix mapDup (l : list KPINode) (k : nat) : list KPINode * nat :=
             match l with
             | [] => ([], k)
             | c :: r =>
                 let '(c', k1) := duplicateWithNewIds c k in
                 let '(r', k2) := mapDup r k1 in
                 (c' :: r', k2)
             end) l (S k) in
        (Some l', k2)
    | None => (None, S k)
    end in
  (mkKPINode newId (name node ++ " (copy)")%string (icon node) (unit node)
             (esg node) (scope node) (category node) cs (isDetached node)
             (relationships node) (markers node) (position node),
   k').

Fixpoint duplicateAllWithNewIds (l : list KPINode) (k : nat)
  : list KPINode * nat :=
  match l with
  | [] => ([], k)
  | c :: r =>
      let '(c', k1) := duplicateWithNewIds c k in
      let '(r', k2) := duplicateAllWithNewIds r k1 in
      (c' :: r', k2)
  end.

(** The object literal that [addSibling] stores at [result[idx]]. *)
Definition rebuiltWith (currentNode : KPINode) (cs : list KPINode) : KPINode :=
  mkKPINode (id currentNode) (name currentNode) (icon currentNode)
            (unit currentNode) (esg currentNode) (scope currentNode)
            (category currentNode) (Some cs) None None None None.

(** One iteration of the loop of [addSibling] in [duplicateNode]:
    [result] before, [result] after. *)
Fixpoint addSiblingStep (nodeId : string) (duplicatedNode : KPINode)
         (result : list KPINode) (node : KPINode) : list KPINode :=
  let result1 := result ++ [node] in
  let result2 :=
    if id node =? nodeId then result1 ++ [duplicatedNode] else result1 in
  match children node with
  | Some cs =>
      let idx := length result2 - 1 in
      match nth_error result2 idx with
      | Some currentNode =>
          setIndex idx
            (rebuiltWith currentNode
               (fold_left (addSiblingStep nodeId duplicatedNode) cs []))
            result2
      | None => result2
      end
  | None => result2
  end.

Definition addSibling (nodeId : string) (duplicatedNode : KPINode)
           (nodes : list KPINode) : list KPINode :=
  fold_left (addSiblingStep nodeId duplicatedNode) nodes [].

Definition duplicateNode (nodeId : string) (st : Store) : Store :=
  match findNodeById nodeId (treeData st) with
  | None => st
  | Some nodeToDuplicate =>
      let '(duplicatedNode, k) := duplicateWithNewIds nodeToDuplicate (nextId st) in
      let isAtRoot := existsb (fun n => id n =? nodeId) (treeData st) in
      if isAtRoot then
        let index := findIndex (fun n => id n =? nodeId) (treeData st) in
        setTree st (spliceIn (index + 1) duplicatedNode (deepClone (treeData st)))
                true k
      else
        setTree st (addSibling nodeId duplicatedNode (deepClone (treeData st)))
                true k
  end.

(* ---------------------------------------------------------------- *)
(** ** Links *)

Definition cancelLinkMode (st : Store) : Store :=
  mkStore (treeData st) (moveError st) (hasUnsavedChanges st)
          false None "" (nextId st).

(** The callback of [nodes.map] in [createLink]. *)
Fixpoint linkUpdateNode (sourceId : string) (newRel : NodeRelationship)
         (node : KPINode) : KPINode :=
  if id node =? sourceId then
    withRelationships node (Some (orEmpty (relationships node) ++ [newRel]))
  else match children node with
       | Some cs => withChildren node (Some (map (linkUpdateNode sourceId newRel) cs))
       | None => node
       end.

(** [r => r.targetId === t] over [relationships?] *)
Definition hasEdgeTo (rs : option (list NodeRelationship)) (t : string) : bool :=
  existsb (fun r => targetId r =? t) (orEmpty rs).

Definition createLink (target : string) (lbl : option string) (st : Store)
  : bool * Store :=
  match linkSourceId st with
  | None => (false, cancelLinkMode st)
  | Some src =>
      if (src =? "") || (src =? target) then (false, cancelLinkMode st)
      else
        match findNodeById src (treeData st) with
        | None => (false, cancelLinkMode st)
        | Some sourceNode =>
            if hasEdgeTo (relationships sourceNode) target
            then (false, cancelLinkMode st)
            else
              let linkId := genLinkId (nextId st) in
              let newRel := mkRel linkId target lbl in
              (true,
               cancelLinkMode
                 (setTree st
                    (map (linkUpdateNode src newRel) (deepClone (treeData st)))
                    true (S (nextId st))))
        end
  end.

End WithIdOracles.

(* ================================================================== *)
(** * XMind codec ([fileExport.ts]) *)

(** [{ text: string }] *)
Record TitleRun : Type := mkTitleRun { text : string }.

(** [{ markerId: string }] *)
Record MarkerRef : Type := mkMarkerRef { markerId : string }.

(** [XMindTopic].  [topic_children] is the object
    [{ attached?: ..., detached?: ... }], a pair of optional arrays.
    [structureClass] is neither written nor read and is left out. *)
Inductive XMindTopic : Type := mkTopic {
  topic_id : string;
  topic_class : option string;
  topic_title : string;
  topic_attributedTitle : option (list TitleRun);
  topic_position : option (Z * Z);
  topic_markers : option (list MarkerRef);
  topic_children : option (option (list XMindTopic) * option (list XMindTopic));
  topic_summary : option (list XMindTopic)
}.

(** [topic.children?.attached] *)
Definition attached (t : XMindTopic) : option (list XMindTopic) :=
  match topic_children t with Some (a, _) => a | None => None end.

(** [topic.children?.detached] *)
Definition detached (t : XMindTopic) : option (list XMindTopic) :=
  match topic_children t with Some (_, d) => d | None => None end.

Record XMindRelationship : Type := mkXRel {
  xrel_id : string;
  end1Id : string;
  end2Id : string;
  xrel_title : option string;
  xrel_attributedTitle : option (list TitleRun)
}.

Record XMindSheet : Type := mkSheet {
  sheet_id : string;
  sheet_class : option string;
  sheet_title : string;
  rootTopic : XMindTopic;
  sheet_relationships : option (list XMindRelationship)
}.

(** [c => !c.isDetached] and [c => c.isDetached] *)
Definition notDetached (c : KPINode) : bool := negb (truthyBool (isDetached c)).
Definition isDetachedNode (c : KPINode) : bool := truthyBool (isDetached c).

(** [node.name + (node.unit ? ` (${node.unit})` : '')] *)
Definition joinTitle (nm : string) (u : option string) : string :=
  if truthyStr u
  then (nm ++ " (" ++ match u with Some x => x | None => "" end ++ ")")%string
  else nm.

(** [l.length > 0] *)
Definition nonEmpty {A : Type} (l : list A) : bool :=
  match l with [] => false | _ => true end.

(** [l.filter(p).map(f)] in one pass. *)
Definition filterMapWith {A B : Type} (p : A -> bool) (f : A -> B)
  : list A -> list B :=
  fix go (l : list A) : list B :=
    match l with
    | [] => []
    | c :: r => if p c then f c :: go r else go r
    end.

Fixpoint kpiNodeToXMindTopic (node : KPINode) : XMindTopic :=
  let title := joinTitle (name node) (unit node) in
  let mks :=
    match markers node with
    | Some ms => if nonEmpty ms then Some (map mkMarkerRef ms) else None
    | None => None
    end in
  let attachedChildren :=
    match children node with Some cs => filter notDetached cs | None => [] end in
  let detachedChildren :=
    match children node with Some cs => filter isDetachedNode cs | None => [] end in
  let topicsOf (p : KPINode -> bool) :=
    match children node with
    | Some cs => filterMapWith p kpiNodeToXMindTopic cs
    | None => []
    end in
  let kids :=
    if nonEmpty attachedChildren || nonEmpty detachedChildren then
      Some (if nonEmpty attachedChildren
            then Some (topicsOf notDetached)
            else None,
            if nonEmpty detachedChildren
            then Some (topicsOf isDetachedNode)
            else None)
    else None in
  mkTopic (id node)
          (Some (if truthyBool (isDetached node) then "importantTopic" else "topic"))
          title (Some [mkTitleRun title]) (position node) mks kids None.

(** The records [traverse] pushes for the relationships of one node. *)
Definition relationshipRecords (node : KPINode) : list XMindRelationship :=
  map (fun rel =>
         mkXRel (rel_id rel) (id node) (targetId rel) (label rel)
                (if truthyStr (label rel)
                 then Some [mkTitleRun
                              (match label rel with Some l => l | None => "" end)]
                 else None))
      (orEmpty (relationships node)).

(** [traverse] of [collectRelationships]: the records pushed while one
    node and its subtree are visited, in the order of the pushes. *)
Fixpoint collectFrom (node : KPINode) : list XMindRelationship :=
  relationshipRecords node
  ++ match children node with
     | Some cs => flat_map collectFrom cs
     | None => []
     end.

Definition collectRelationships (nodes : list KPINode) : list XMindRelationship :=
  flat_map collectFrom nodes.

(** [`Sheet ${index + 1}`] *)
Definition sheetTitle (index : nat) : string :=
  ("Sheet " ++ NilEmpty.string_of_uint (Nat.to_uint (index + 1)))%string.

(** The three members of the container.  [content_json] is the value that
    [JSON.stringify] writes and [JSON.parse] reads back; [metadata.json]
    and [manifest.json] are constant and are not represented; [content_xml]
    records whether a member of that name is present. *)
Record XMindContainer : Type := mkContainer {
  content_json : option (list XMindSheet);
  content_xml : bool
}.

Section WithXMindIdOracle.

(** [generateXMindId()]: the [k]-th identifier drawn. *)
Variable genXMindId : nat -> string.

(** The callback of [rootNodes.map] in [exportToXMind]. *)
Definition sheetOfRoot (data detachedNodes : list KPINode)
           (index : nat) (rootNode : KPINode) : XMindSheet :=
  let topic := kpiNodeToXMindTopic rootNode in
  let topic' :=
    if (index =? 0)%nat && nonEmpty detachedNodes then
      mkTopic (topic_id topic) (topic_class topic) (topic_title topic)
              (topic_attributedTitle topic) (topic_position topic)
              (topic_markers topic)
              (Some (attached topic, Some (map kpiNodeToXMindTopic detachedNodes)))
              (topic_summary topic)
    else topic in
  let rels :=
    collectRelationships (if (index =? 0)%nat then data else [rootNode]) in
  mkSheet (genXMindId index) (Some "sheet") (sheetTitle index) topic'
          (if nonEmpty rels then Some rels else None).

(** [arr.map((x, index) => f(index, x))], counting from [index]. *)
Fixpoint mapi {A B : Type} (f : nat -> A -> B) (index : nat) (l : list A)
  : list B :=
  match l with
  | [] => []
  | x :: r => f index x :: mapi f (S index) r
  end.

(** The sheets written to content.json. *)
Definition exportSheets (data : list KPINode) : list XMindSheet :=
  let rootNodes := filter notDetached data in
  let detachedNodes := filter isDetachedNode data in
  let sheets := mapi (sheetOfRoot data detachedNodes) 0 rootNodes in
  if (length rootNodes =? 0)%nat && nonEmpty detachedNodes then
    sheets ++
    [mkSheet (genXMindId (length rootNodes)) (Some "sheet") "Sheet 1"
             (mkTopic (genXMindId (S (length rootNodes))) (Some "topic") "Root"
                      (Some [mkTitleRun "Root"]) None None
                      (Some (None, Some (map kpiNodeToXMindTopic detachedNodes)))
                      None)
             None]
  else sheets.

Definition exportToXMind (data : list KPINode) : XMindContainer :=
  mkContainer (Some (exportSheets data)) false.

End WithXMindIdOracle.

(* ------------------------------------------------------------------ *)
(** ** Import *)

(** [\s] on ASCII: tab, line feed, vertical tab, form feed, carriage
    return, space. *)
Definition isSpace (c : ascii) : bool :=
  let n := nat_of_ascii c in
  ((9 <=? n)%nat && (n <=? 13)%nat) || (n =? 32)%nat.

(** The characters [.] does not match, among the ASCII ones. *)
Definition isLineTerminator (c : ascii) : bool :=
  let n := nat_of_ascii c in (n =? 10)%nat || (n =? 13)%nat.

Definition isCloseParen (c : ascii) : bool := (nat_of_ascii c =? 41)%nat.
Definition isOpenParen (c : ascii) : bool := (nat_of_ascii c =? 40)%nat.

(** The longest prefix of white space removed: greedy [\s*]. *)
Fixpoint dropSpaces (s : string) : string :=
  match s with
  | String c r => if isSpace c then dropSpaces r else s
  | EmptyString => s
  end.

(** [\s*$] *)
Fixpoint spacesToEnd (s : string) : bool :=
  match s with
  | EmptyString => true
  | String c r => isSpace c && spacesToEnd r
  end.

(** Greedy [[^)]*]: the longest prefix without [)] and what follows it. *)
Fixpoint spanNotClose (s : string) : string * string :=
  match s with
  | EmptyString => (EmptyString, EmptyString)
  | String c r =>
      if isCloseParen c then (EmptyString, s)
      else let '(g, rest) := spanNotClose r in (String c g, rest)
  end.

(** [\s*\(([^)]+)\)\s*$] matched at the start of [s]: the second group.
    Each greedy quantifier is followed by a character outside its class (or
    by the end of the string), so giving characters back never turns a
    failure into a match, and the longest run is the only candidate. *)
Definition matchUnitSuffix (s : string) : option string :=
  match dropSpaces s with
  | String c r =>
      if isOpenParen c then
        let '(g2, rest) := spanNotClose r in
        match g2, rest with
        | String _ _, String _ r2 => if spacesToEnd r2 then Some g2 else None
        | _, _ => None
        end
      else None
  | EmptyString => None
  end.

(** [title.match(/^(.+?)\s*\(([^)]+)\)\s*$/)]: the two groups.  The first
    group is lazy: it is extended one character at a time, and the first
    length at which the rest of the pattern matches is taken.  [g1] is the
    part of the first group consumed so far. *)
Fixpoint unitMatchFrom (g1 : string) (s : string) : option (string * string) :=
  match s with
  | EmptyString => None
  | String c r =>
      if isLineTerminator c then None
      else
        let g1' := (g1 ++ String c EmptyString)%string in
        match matchUnitSuffix r with
        | Some g2 => Some (g1', g2)
        | None => unitMatchFrom g1' r
        end
  end.

Definition unitMatch (title : string) : option (string * string) :=
  unitMatchFrom EmptyString title.

Fixpoint trimEnd (s : string) : string :=
  match s with
  | EmptyString => EmptyString
  | String c r =>
      let r' := trimEnd r in
      if isSpace c && (r' =? "") then EmptyString else String c r'
  end.

(** [s.trim()] on ASCII text. *)
Definition trim (s : string) : string := trimEnd (dropSpaces s).

(** [runs.map(t => t.text).join('')] *)
Definition joinRuns (runs : list TitleRun) : string :=
  String.concat "" (map text runs).

(** The title [xmindTopicToKPINode] works from. *)
Definition topicTitle (topic : XMindTopic) : string :=
  let title := if topic_title topic =? "" then "Untitled" else topic_title topic in
  match topic_attributedTitle topic with
  | Some runs => if nonEmpty runs then joinRuns runs else title
  | None => title
  end.

(** [name] and [unit] parsed out of a title. *)
Definition splitTitle (title : string) : string * option string :=
  match unitMatch title with
  | Some (g1, g2) =>
      if negb (g1 =? "") && negb (g2 =? "") then (trim g1, Some (trim g2))
      else (title, None)
  | None => (title, None)
  end.

(** [summaryNode.markers = [...(summaryNode.markers || []), 'summary']] *)
Definition markSummary (n : KPINode) : KPINode :=
  mkKPINode (id n) (name n) (icon n) (unit n) (esg n) (scope n) (category n)
            (children n) (isDetached n) (relationships n)
            (Some (orEmpty (markers n) ++ ["summary"])) (position n).

Fixpoint xmindTopicToKPINode (topic : XMindTopic) (isDet : bool) : KPINode :=
  let '(nm, u) := splitTitle (topicTitle topic) in
  let mks :=
    match topic_markers topic with
    | Some ms => if nonEmpty ms then Some (map markerId ms) else None
    | None => None
    end in
  let fromAttached :=
    match topic_children topic with
    | Some (Some att, _) => map (fun child => xmindTopicToKPINode child false) att
    | _ => []
    end in
  let fromSummary :=
    match topic_summary topic with
    | Some sm => map (fun t => markSummary (xmindTopicToKPINode t false)) sm
    | None => []
    end in
  let kids := fromAttached ++ fromSummary in
  mkKPINode (topic_id topic) nm None u None None None
            (if nonEmpty kids then Some kids else None)
            (Some isDet) None mks (topic_position topic).

(** *** Node references

    [buildNodeIdMap] stores references to the node objects of the imported
    forest, and [processRelationships] mutates the objects through them.
    A reference is the path of the object from the top of the forest: the
    index among the top-level nodes, then the index among the children, and
    so on.  The forest keeps its shape while relationships are pushed, so a
    path denotes the same object throughout. *)
Definition NodeRef : Type := list nat.

Fixpoint nodeAt (ref : NodeRef) (forest : list KPINode) : option KPINode :=
  match ref with
  | [] => None
  | i :: rest =>
      match nth_error forest i with
      | None => None
      | Some n =>
          match rest with
          | [] => Some n
          | _ :: _ => nodeAt rest (orEmpty (children n))
          end
      end
  end.

(** The forest after the object at [ref] has been mutated by [f]. *)
Fixpoint updateAt (ref : NodeRef) (f : KPINode -> KPINode)
         (forest : list KPINode) : list KPINode :=
  match ref with
  | [] => forest
  | i :: rest =>
      match nth_error forest i with
      | None => forest
      | Some n =>
          match rest with
          | [] => setIndex i (f n) forest
          | _ :: _ =>
              match children n with
              | Some cs => setIndex i (withChildren n (Some (updateAt rest f cs))) forest
              | None => forest
              end
          end
      end
  end.

(** [Map<string, KPINode>] as the log of its [set] calls, newest first. *)
Definition NodeIdMap : Type := list (string * NodeRef).

Definition mapSet (k : string) (v : NodeRef) (m : NodeIdMap) : NodeIdMap :=
  (k, v) :: m.

Fixpoint mapGet (k : string) (m : NodeIdMap) : option NodeRef :=
  match m with
  | [] => None
  | (k', v) :: r => if k' =? k then Some v else mapGet k r
  end.

(** [traverse] of [buildNodeIdMap] on the node at [ref]. *)
Fixpoint traverseIds (ref : NodeRef) (node : KPINode) (m : NodeIdMap) : NodeIdMap :=
  let m1 := mapSet (id node) ref m in
  match children node with
  | Some cs =>
      (fix each (l : list KPINode) (i : nat) (m : NodeIdMap) : NodeIdMap :=
         match l with
         | [] => m
         | c :: r => each r (S i) (traverseIds (ref ++ [i]) c m)
         end) cs 0%nat m1
  | None => m1
  end.

Fixpoint traverseAllIds (ref : NodeRef) (l : list KPINode) (i : nat)
         (m : NodeIdMap) : NodeIdMap :=
  match l with
  | [] => m
  | c :: r => traverseAllIds ref r (S i) (traverseIds (ref ++ [i]) c m)
  end.

Definition buildNodeIdMap (nodes : list KPINode) : NodeIdMap :=
  traverseAllIds [] nodes 0%nat [].

(** [if (!n.relationships) n.relationships = []] *)
Definition initRelationships (n : KPINode) : KPINode :=
  withRelationships n (Some (orEmpty (relationships n))).

(** [n.relationships.push(r)], after the initialisation above. *)
Definition pushRelationship (r : NodeRelationship) (n : KPINode) : KPINode :=
  withRelationships n (Some (orEmpty (relationships n) ++ [r])).

(** The label of an imported relationship. *)
Definition relLabel (rel : XMindRelationship) : option string :=
  match xrel_attributedTitle rel with
  | Some runs => if nonEmpty runs then Some (joinRuns runs) else xrel_title rel
  | None => xrel_title rel
  end.

(** U+2190 LEFTWARDS ARROW and a space, in UTF-8. *)
Definition backArrow : string :=
  String (ascii_of_nat 226) (String (ascii_of_nat 134)
    (String (ascii_of_nat 144) " ")).

Definition reverseOf (rel : XMindRelationship) : NodeRelationship :=
  mkRel (xrel_id rel ++ "-reverse")%string (end1Id rel)
        (if truthyStr (relLabel rel)
         then Some (backArrow ++ match relLabel rel with Some l => l | None => "" end)%string
         else None).

(** The body of the loop of [processRelationships]. *)
Definition processRelationship (nodeMap : NodeIdMap) (forest : list KPINode)
           (rel : XMindRelationship) : list KPINode :=
  match mapGet (end1Id rel) nodeMap, mapGet (end2Id rel) nodeMap with
  | Some sourceNode, Some targetNode =>
      let nodeRel := mkRel (xrel_id rel) (end2Id rel) (relLabel rel) in
      let forest1 :=
        updateAt sourceNode (fun n => pushRelationship nodeRel (initRelationships n))
                 forest in
      let forest2 := updateAt targetNode initRelationships forest1 in
      let hasReverse :=
        match nodeAt targetNode forest2 with
        | Some t => hasEdgeTo (relationships t) (end1Id rel)
        | None => false
        end in
      if hasReverse then forest2
      else updateAt targetNode (pushRelationship (reverseOf rel)) forest2
  | _, _ => forest
  end.

Definition processRelationships (nodes : list KPINode)
           (rels : list XMindRelationship) : list KPINode :=
  fold_left (processRelationship (buildNodeIdMap nodes)) rels nodes.

Inductive ImportResult : Type :=
| Imported (nodes : list KPINode)
| ImportError (message : string).

(** The nodes one sheet contributes to [allNodes]; [rootTopic] is a
    required field and the guard [if (sheet.rootTopic)] holds. *)
Definition sheetNodes (sheet : XMindSheet) : list KPINode :=
  xmindTopicToKPINode (rootTopic sheet) false
  :: match detached (rootTopic sheet) with
     | Some ds => map (fun d => xmindTopicToKPINode d true) ds
     | None => []
     end.

Definition importFromXMind (file : XMindContainer) : ImportResult :=
  match content_json file with
  | Some sheets =>
      let allNodes := flat_map sheetNodes sheets in
      let allRelationships :=
        flat_map (fun sheet => orEmpty (sheet_relationships sheet)) sheets in
      if nonEmpty allRelationships
      then Imported (processRelationships allNodes allRelationships)
      else Imported allNodes
  | None =>
      if content_xml file
      then ImportError "Legacy XMind XML format is not supported. Please use XMind Zen (.xmind) files."
      else ImportError "Invalid XMind file: could not find content.json or content.xml"
  end.

(* ================================================================== *)
(** * Tree store: the other operations ([useTreeStore.ts]) *)

(** [l.filter(cb)] for a callback that also rewrites the elements it
    keeps: [f x] is [None] when [x] is dropped and [Some y] when it stays as
    [y]. *)
Definition filterMapOpt {A B : Type} (f : A -> option B) : list A -> list B :=
  fix go (l : list A) : list B :=
    match l with
    | [] => []
    | x :: r => match f x with
                | Some y => y :: go r
                | None => go r
                end
    end.

(** The callback of [nodes.filter] in [deleteNode]. *)
Fixpoint removeNodeItem (nodeId : string) (node : KPINode) : option KPINode :=
  if id node =? nodeId then None
  else match children node with
       | Some cs =>
           Some (withChildren node
                   (Some (filterMapOpt (removeNodeItem nodeId) cs)))
       | None => Some node
       end.

(** [removeNode] of [deleteNode]. *)
Definition removeNode (nodeId : string) (nodes : list KPINode) : list KPINode :=
  filterMapOpt (removeNodeItem nodeId) nodes.

Definition deleteNode (nodeId : string) (st : Store) : Store :=
  setTree st (removeNode nodeId (deepClone (treeData st))) true (nextId st).




(** ['after' | 'before'] *)
Inductive SiblingPosition : Type := After | Before.

(** One iteration of the loop of [addAsSibling] in [addSiblingNode]: the
    nodes pushed onto [result], and the flag [added] after the iteration. *)
Fixpoint addAsSiblingStep (siblingId : string) (newNode : KPINode)
         (pos : SiblingPosition) (node : KPINode) (added : bool)
  : list KPINode * bool :=
  if id node =? siblingId then
    (match pos with
     | Before => [newNode; node]
     | After => [node; newNode]
     end, true)
  else match children node with
       | Some cs =>
           let '(cs', added') :=
             (fix loop (l : list KPINode) (a : bool) : list KPINode * bool :=
                match l with
                | [] => ([], a)
                | c :: r =>
                    let '(pushed, a1) := addAsSiblingStep siblingId newNode pos c a in
                    let '(r', a2) := loop r a1 in
                    (pushed ++ r', a2)
                end) cs added in
           ([withChildren node (Some cs')], added')
       | None => ([node], added)
       end.

Fixpoint addAsSibling (siblingId : string) (newNode : KPINode)
         (pos : SiblingPosition) (nodes : list KPINode) (added : bool)
  : list KPINode * bool :=
  match nodes with
  | [] => ([], added)
  | c :: r =>
      let '(pushed, a1) := addAsSiblingStep siblingId newNode pos c added in
      let '(r', a2) := addAsSibling siblingId newNode pos r a1 in
      (pushed ++ r', a2)
  end.

(** [arr.includes(s)] on a string array *)
Definition includesStr (l : list string) (s : string) : bool :=
  existsb (fun m => m =? s) l.





(** The callback of [nodes.map] in [deleteLink].  A node with the
    identifier of the source but without a relationship array falls through
    to the test on its children. *)
Fixpoint unlinkUpdateNode (sourceId target : string) (node : KPINode) : KPINode :=
  match (if id node =? sourceId then relationships node else None) with
  | Some rs =>
      withRelationships node
        (Some (filter (fun r => negb (targetId r =? target)) rs))
  | None =>
      match children node with
      | Some cs => withChildren node (Some (map (unlinkUpdateNode sourceId target) cs))
      | None => node
      end
  end.

Definition deleteLink (sourceId target : string) (st : Store) : Store :=
  setTree st (map (unlinkUpdateNode sourceId target) (deepClone (treeData st)))
          true (nextId st).




Definition startLinkMode (sourceId sourceName : string) (st : Store) : Store :=
  mkStore (treeData st) (moveError st) (hasUnsavedChanges st)
          true (Some sourceId) sourceName (nextId st).

(** An entry of [getAllNodes]. *)
Record NodeEntry : Type := mkNodeEntry {
  entry_id : string;
  entry_name : string;
  entry_path : string;
  entry_hasChildren : bool;
  entry_category : NodeCategory
}.

(** [traverse] of [getAllNodes] for one node: the entries pushed for the
    node and its subtree; [path] is the list of the names of the
    ancestors. *)
Fixpoint entriesOf (path : list string) (node : KPINode) : list NodeEntry :=
  let currentPath := path ++ [name node] in
  mkNodeEntry (id node) (name node) (String.concat " > " currentPath)
              (match children node with
               | Some cs => nonEmpty cs
               | None => false
               end)
              (inferCategory node)
  :: match children node with
     | Some cs => flat_map (entriesOf currentPath) cs
     | None => []
     end.

Definition getAllNodes (forest : list KPINode) : list NodeEntry :=
  mkNodeEntry "__root__" "Root Level" "Root Level" true root
  :: flat_map (entriesOf []) forest.

Section WithNodeIdOracle.

Variable genNodeId : nat -> string.

Definition addSiblingNode (siblingId : string) (nodeData : NewNodeData)
           (pos : SiblingPosition) (st : Store) : option string * Store :=
  let newNode :=
    mkKPINode (genNodeId (nextId st)) (nd_name nodeData) None
              (nd_unit nodeData) (nd_esg nodeData) (nd_scope nodeData)
              (Some metric) None None None None None in
  let '(nodes, added) :=
    addAsSibling siblingId newNode pos (deepClone (treeData st)) false in
  (if added then Some (id newNode) else None,
   setTree st nodes (if added then true else hasUnsavedChanges st)
           (S (nextId st))).

End WithNodeIdOracle.

(** [Set<string>] as the list of its elements in insertion order, without
    repetition. *)
Definition StringSet : Type := list string.

Definition setHas (s : StringSet) (x : string) : bool := includesStr s x.

Definition setAdd (x : string) (s : StringSet) : StringSet :=
  if setHas s x then s else s ++ [x].

(* ------------------------------------------------------------------ *)
(** ** Relationships for display ([fileExport.ts], lines 440-472) *)

(** [nodeMap.get(k)]: the node object the reference bound to [k] leads to
    in [forest]. *)
Definition nodeMapGet (forest : list KPINode) (nodeMap : NodeIdMap)
           (k : string) : option KPINode :=
  match mapGet k nodeMap with
  | Some ref => nodeAt ref forest
  | None => None
  end.

(** [s.endsWith(suffix)] *)
Definition endsWith (s suffix : string) : bool :=
  let n := String.length s in
  let m := String.length suffix in
  (m <=? n)%nat && (substring (n - m) m s =? suffix).

(** [{ source, target, label }] *)
Record DisplayedLink : Type := mkDisplayedLink {
  link_source : KPINode;
  link_target : KPINode;
  link_label : option string
}.

(** [`${node.id}-${rel.targetId}`] *)
Definition seenKey (sourceId target : string) : string :=
  (sourceId ++ "-" ++ target)%string.

(** [seen.has(key)], for the set as the list of the keys added. *)
Definition seenHas (seen : list string) (key : string) : bool :=
  existsb (fun k => k =? key) seen.

(** The body of the loop over [node.relationships] in [traverse]; the state
    is the set [seen] and the array [results]. *)
Definition visitRelationship (forest : list KPINode) (nodeMap : NodeIdMap)
           (node : KPINode) (acc : list string * list DisplayedLink)
           (rel : NodeRelationship) : list string * list DisplayedLink :=
  let '(seen, results) := acc in
  if endsWith (rel_id rel) "-reverse" then acc
  else
    let key := seenKey (id node) (targetId rel) in
    if seenHas seen key then acc
    else
      match nodeMapGet forest nodeMap (targetId rel) with
      | Some target =>
          (key :: seen, results ++ [mkDisplayedLink node target (label rel)])
      | None => (key :: seen, results)
      end.

(** [traverse] of [getAllRelationships]. *)
Fixpoint traverseRelationships (forest : list KPINode) (nodeMap : NodeIdMap)
         (node : KPINode) (acc : list string * list DisplayedLink)
  : list string * list DisplayedLink :=
  let acc1 :=
    fold_left (visitRelationship forest nodeMap node)
              (match relationships node with Some rs => rs | None => [] end) acc in
  match children node with
  | Some cs =>
      fold_left (fun a c => traverseRelationships forest nodeMap c a) cs acc1
  | None => acc1
  end.

Definition getAllRelationships (nodes : list KPINode) : list DisplayedLink :=
  snd (fold_left (fun a c => traverseRelationships nodes (buildNodeIdMap nodes) c a)
                 nodes ([], [])).

(* ================================================================== *)
(** * Tab manager: [duplicateTab] and [closeTab] ([useTabManager.ts]) *)

Inductive PresetViewType : Type :=
| preset_financial | preset_operational | preset_buma | preset_consolidated.

(** [TabState]; the set [expandedNodes] is the list of its elements in
    insertion order. *)
Record TabState : Type := mkTabState {
  tab_id : string;
  tab_name : string;
  isPreset : bool;
  presetType : option PresetViewType;
  tab_data : list KPINode;
  expandedNodes : list string;
  searchTerm : string;
  showESGOnly : bool
}.

(** The two refs of the module, [tabs] and [activeTabId], and the number of
    tab identifiers drawn so far. *)
Record TabManager : Type := mkTabManager {
  tabs : list TabState;
  activeTabId : string;
  nextTabId : nat
}.

(** [t => t.id === tabId] *)
Definition hasTabId (tabId : string) (t : TabState) : bool := tab_id t =? tabId.

(** [arr.splice(i, 1)] *)
Definition spliceOut {A : Type} (i : nat) (l : list A) : list A :=
  firstn i l ++ skipn (S i) l.

(** [tabs[newIndex]?.id || 'consolidated'] *)
Definition idOrConsolidated (o : option TabState) : string :=
  match o with
  | Some t => if tab_id t =? "" then "consolidated" else tab_id t
  | None => "consolidated"
  end.

(** [closeTab]: when the active tab is closed, [Math.min(index, length - 1)]
    is [-1] for the empty array, where the lookup answers [undefined] as
    [nth_error] does at [0]. *)
Definition closeTab (tabId : string) (st : TabManager) : TabManager :=
  match find (hasTabId tabId) (tabs st) with
  | None => st
  | Some tab =>
      if isPreset tab then st
      else
        let index := findIndex (hasTabId tabId) (tabs st) in
        let tabs' := spliceOut index (tabs st) in
        if activeTabId st =? tabId then
          let newIndex := Nat.min index (length tabs' - 1) in
          mkTabManager tabs' (idOrConsolidated (nth_error tabs' newIndex))
                       (nextTabId st)
        else mkTabManager tabs' (activeTabId st) (nextTabId st)
  end.

Section WithTabIdOracle.

(** [generateTabId()]: the [k]-th identifier drawn. *)
Variable generateTabId : nat -> string.

(** The tab [duplicateTab] builds from [sourceTab]. *)
Definition copyOfTab (newId : string) (newName : option string)
           (sourceTab : TabState) : TabState :=
  mkTabState newId
             (if truthyStr newName
              then match newName with Some s => s | None => "" end
              else (tab_name sourceTab ++ " (Copy)")%string)
             false None (deepClone (tab_data sourceTab))
             (expandedNodes sourceTab) (searchTerm sourceTab)
             (showESGOnly sourceTab).

Definition duplicateTab (tabId : string) (newName : option string)
           (st : TabManager) : option string * TabManager :=
  match find (hasTabId tabId) (tabs st) with
  | None => (None, st)
  | Some sourceTab =>
      let newTab := copyOfTab (generateTabId (nextTabId st)) newName sourceTab in
      let sourceIndex := findIndex (hasTabId tabId) (tabs st) in
      (Some (tab_id newTab),
       mkTabManager (spliceIn (sourceIndex + 1) newTab (tabs st))
                    (tab_id newTab) (S (nextTabId st)))
  end.

End WithTabIdOracle.
(* ================================================================== *)
(** * Search in the tree ([useTreeState.ts], lines 19-50) *)

(** The three sets [findMatchingNodesAndAncestors] fills. *)
Record SearchSets : Type := mkSearchSets {
  matchingIds : StringSet;
  ancestorIds : StringSet;
  expandIds : StringSet
}.

(** [nameMatch || unitMatch]; [unitMatch] is [undefined] for a node without
    a unit. *)
Definition nodeMatches (lowerSearch : string) (node : KPINode) : bool :=
  includes (toLowerCase (name node)) lowerSearch
  || match unit node with
     | Some u => includes (toLowerCase u) lowerSearch
     | None => false
     end.

(** The body of [if (nameMatch || unitMatch)]. *)
Definition addMatch (ancestors : list string) (node : KPINode)
           (acc : SearchSets) : SearchSets :=
  mkSearchSets (setAdd (id node) (matchingIds acc))
               (fold_left (fun s a => setAdd a s) ancestors (ancestorIds acc))
               (fold_left (fun s a => setAdd a s) ancestors (expandIds acc)).

(** [traverse] of [findMatchingNodesAndAncestors] on one node. *)
Fixpoint traverseSearch (lowerSearch : string) (ancestors : list string)
         (node : KPINode) (acc : SearchSets) : SearchSets :=
  let acc1 :=
    if nodeMatches lowerSearch node then addMatch ancestors node acc else acc in
  match children node with
  | Some cs =>
      fold_left (fun a c => traverseSearch lowerSearch (ancestors ++ [id node]) c a)
                cs acc1
  | None => acc1
  end.

Definition findMatchingNodesAndAncestors (nodes : list KPINode)
           (searchTerm : string) : SearchSets :=
  fold_left (fun a c => traverseSearch (toLowerCase searchTerm) [] c a)
            nodes (mkSearchSets [] [] []).

(* ================================================================== *)
(** * Predicates of the statements and worked examples *)

(** Names copied with the suffix at every node, and the same shape: what
    [duplicateWithNewIds] makes of the names of a subtree. *)
Inductive CopyNamed : KPINode -> KPINode -> Prop :=
| CopyNamed_leaf : forall o c,
    name c = (name o ++ " (copy)")%string ->
    children o = None -> children c = None ->
    CopyNamed o c
| CopyNamed_node : forall o c lo lc,
    name c = (name o ++ " (copy)")%string ->
    children o = Some lo -> children c = Some lc ->
    Forall2 CopyNamed lo lc ->
    CopyNamed o c.

(** The fields that a clone takes over from the node it is cloned from. *)
Definition sameAnnotations (o c : KPINode) : Prop :=
  icon c = icon o /\ unit c = unit o /\ esg c = esg o /\ scope c = scope o
  /\ category c = category o /\ isDetached c = isDetached o
  /\ relationships c = relationships o /\ markers c = markers o
  /\ position c = position o.

(** The same annotations at every node, and the same shape. *)
Inductive FieldsCopied : KPINode -> KPINode -> Prop :=
| FieldsCopied_leaf : forall o c,
    sameAnnotations o c ->
    children o = None -> children c = None ->
    FieldsCopied o c
| FieldsCopied_node : forall o c lo lc,
    sameAnnotations o c ->
    children o = Some lo -> children c = Some lc ->
    Forall2 FieldsCopied lo lc ->
    FieldsCopied o c.

(** The nodes that an export followed by an import keeps: the top-level
    nodes, and below a kept node its children that are not detached. *)
Inductive Kept (forest : list KPINode) : KPINode -> Prop :=
| Kept_top : forall n, In n forest -> Kept forest n
| Kept_child : forall p cs c,
    Kept forest p -> children p = Some cs -> In c cs ->
    notDetached c = true ->
    Kept forest c.

(** The identifier oracle used in the worked examples. *)
Definition sampleId (k : nat) : string :=
  ("id-" ++ NilEmpty.string_of_uint (Nat.to_uint k))%string.

(** A node that sets [id], [name] (the same string) and [children]. *)
Definition branch (i : string) (cs : list KPINode) : KPINode :=
  mkKPINode i i None None None None None (Some cs) None None None None.

Definition emptyStore (forest : list KPINode) : Store :=
  mkStore forest None false false None "" 0.

(** What every mutation of [processRelationships] does to a node: the
    relationships are initialised when absent and [extra] is appended. *)
Definition appendRels (extra : list NodeRelationship) (n : KPINode) : KPINode :=
  withRelationships n (Some (orEmpty (relationships n) ++ extra)).

(** The fields of a node that the title of its topic carries, with the
    identifier. *)
Definition nodeInfo (n : KPINode) : string * string * option string :=
  (id n, name n, unit n).

(** Every binding of the map leads to a node of [forest] with the bound
    identifier. *)
Definition validRefsIn (forest : list KPINode) (m : NodeIdMap) : Prop :=
  forall k ref, In (k, ref) m ->
    exists n, nodeAt ref forest = Some n /\ id n = k.

(** [forest'] is [forest] with relationships pushed: every reference leads
    to a node with the same identifier and with the relationships it had,
    possibly followed by more. *)
Definition Grows (forest forest' : list KPINode) : Prop :=
  forall q n,
    nodeAt q forest = Some n ->
    exists n',
      nodeAt q forest' = Some n'
      /\ id n' = id n
      /\ exists more,
           orEmpty (relationships n') = orEmpty (relationships n) ++ more.

(** The forward edge [processRelationships] pushes for a record. *)
Definition forwardOf (rel : XMindRelationship) : NodeRelationship :=
  mkRel (xrel_id rel) (end2Id rel) (relLabel rel).

(** A node exported and read back, as a top-level detached node when
    [isDet] holds. *)
Definition reimported (isDet : bool) (n : KPINode) : KPINode :=
  xmindTopicToKPINode (kpiNodeToXMindTopic n) isDet.

(** A detached node two levels below the top. *)
Definition deepDetachedForest : list KPINode :=
  [branch "r"
     [branch "m"
        [mkKPINode "a" "Revenue" None (Some "$") None None None None
                   (Some true) None None None]]].

(** The forest of one node with name "Revenue" and unit "$". *)
Definition revenueNode : KPINode :=
  mkKPINode "a" "Revenue" None (Some "$") None None None None None None None None.

(** *** Forests of the worked examples *)

(** A store in link mode with source [a]. *)
Definition linkingStore : Store :=
  mkStore [leaf "a" "A"; leaf "b" "B"] None false true (Some "a") "A" 0.



(** A [revenue] node whose only child carries the root sentinel as its
    identifier. *)
Definition sentinelChild : KPINode := leaf "__root__" "Top".
Definition sentinelParent : KPINode :=
  mkKPINode "rev" "Revenue" None None None None (Some revenue)
            (Some [sentinelChild]) None None None None.

Definition obVolume : KPINode := leaf "ob-volume" "OB Volume".
Definition productionRevenue : KPINode := branch "production-revenue" [obVolume].

(** Three top-level nodes, the first with a child. *)
Definition moveForest : list KPINode :=
  [branch "a" [leaf "y" "Y"]; leaf "b" "B"; leaf "x" "X"].

(** A [revenue] node below the top level. *)
Definition revenueBelowForest : list KPINode :=
  [branch "a"
     [mkKPINode "x" "X" None None None None (Some revenue) None None None
                None None]].

(** A node below the top level that has a child. *)
Definition nestedForest : list KPINode :=
  [branch "r" [branch "n" [leaf "c" "Child"]]].

(** A top-level node with markers, a relationship and a position, over a
    leaf. *)
Definition annotatedForest : list KPINode :=
  [mkKPINode "r" "Root" None None None None None (Some [leaf "n" "N"])
             (Some false) (Some [mkRel "l1" "n" (Some "feeds")])
             (Some ["star-red"]) (Some (10, 20)%Z)].

(** Two detached top-level nodes and nothing else; the first links to the
    second. *)
Definition detachedOnlyForest : list KPINode :=
  [mkKPINode "d1" "Note" None None None None None None (Some true)
             (Some [mkRel "l1" "d2" None]) None (Some (0, 0)%Z);
   mkKPINode "d2" "Remark" None None None None None None (Some true)
             None None (Some (5, 5)%Z)].

(** Two attached roots and a detached top-level node.  The node [b] under
    the second root links to [a] under the first and to its own root; the
    detached node links to [b]. *)
Definition secondRoot : KPINode :=
  branch "r2"
    [mkKPINode "b" "B" None None None None None None None
               (Some [mkRel "l1" "a" (Some "feeds"); mkRel "l2" "r2" None])
               None None].

Definition crossSheetForest : list KPINode :=
  [branch "r1" [leaf "a" "A"];
   secondRoot;
   mkKPINode "d" "Note" None None None None None None (Some true)
             (Some [mkRel "l3" "b" None]) None None].

(** A root with one child. *)
Definition parentExample : list KPINode := [branch "a" [leaf "y" "Y"]].

(** The node the source treats as immovable: its identifier contains
    "ebitda". *)
Definition ebitdaForest : list KPINode :=
  [branch "ebitda-root" [leaf "production-revenue" "Production (Revenue)"]].

(** The category a move is validated against: the inferred category of
    the node the target identifier resolves to, [root] when it names the
    top level or resolves to nothing. *)
Definition targetCategoryOf (forest : list KPINode)
           (targetParentId : option string) : NodeCategory :=
  match (if namesNode targetParentId
         then match targetParentId with
              | Some t => findNodeById t forest
              | None => None
              end
         else None) with
  | Some targetNode => inferCategory targetNode
  | None => root
  end.

(** The identifiers of a forest, in pre-order. *)
Definition forestIds (forest : list KPINode) : list string :=
  map id (forestNodes forest).

(** The nodes of an optional node. *)
Definition optNodes (o : option KPINode) : list KPINode :=
  match o with Some n => nodesOf n | None => [] end.

(** A forest of depth three with distinct identifiers. *)
Definition deepForest : list KPINode :=
  [branch "r" [branch "n" [leaf "c" "C"; leaf "d" "D"]; leaf "m" "M"];
   leaf "s" "S"].

(** The targets for which [moveNode] has a place to put the node: the top
    level, named by [null] or by the root sentinel, and a non-empty
    identifier that a node of the forest carries. *)
Definition targetResolves (forest : list KPINode)
           (targetParentId : option string) : Prop :=
  match targetParentId with
  | None => True
  | Some t =>
      t = "__root__"
      \/ (t <> "" /\ exists targetNode, findNodeById t forest = Some targetNode)
  end.




(** The fields the link operations leave alone. *)
Definition linkFrame (n : KPINode) :=
  (id n, name n, icon n, unit n, esg n, scope n, category n, isDetached n,
   markers n, position n).


(** What [proj] reads on a node once the callback of an operation has
    reached it: on what [hit] made of the node when [hit] selects it, on the
    node itself otherwise. *)
Definition readAfter {X : Type} (hit : KPINode -> option KPINode)
           (proj : KPINode -> X) (m : KPINode) : X :=
  match hit m with Some m' => proj m' | None => proj m end.



Definition unlinkHit (sourceId target : string) (n : KPINode) : option KPINode :=
  match (if id n =? sourceId then relationships n else None) with
  | Some rs =>
      Some (withRelationships n
              (Some (filter (fun r => negb (targetId r =? target)) rs)))
  | None => None
  end.


(** [!!(node.children && node.children.length > 0)] *)
Definition hasKids (n : KPINode) : bool :=
  match children n with Some cs => nonEmpty cs | None => false end.

(** The node [addSiblingNode] and [addNode] build from the data given. *)
Definition freshLeaf (newId : string) (nodeData : NewNodeData) : KPINode :=
  mkKPINode newId (nd_name nodeData) None (nd_unit nodeData) (nd_esg nodeData)
            (nd_scope nodeData) (Some metric) None None None None None.

(** Three top-level nodes; the first has a child. *)
Definition threeRoots : list KPINode :=
  [branch "one" [leaf "kid" "Kid"]; leaf "two" "Two"; leaf "three" "Three"].

(** Every character of [s] passes [p]. *)
Fixpoint allChars (p : ascii -> bool) (s : string) : bool :=
  match s with
  | EmptyString => true
  | String c r => p c && allChars p r
  end.

(** A character of the ASCII range. *)
Definition isAsciiChar (c : ascii) : bool := (nat_of_ascii c <? 128)%nat.

(** ASCII text.  On it the white-space class ([isSpace], [trim]), the line
    terminators ([isLineTerminator]) and the case mapping ([toLowerCase])
    of this file are those of the source; outside it the source also
    counts Unicode white space and line separators and maps the case of
    other letters, and the statements about titles and about the search are
    made for ASCII text. *)
Definition asciiText (s : string) : Prop := allChars isAsciiChar s = true.

(** Name and unit of a node are ASCII text. *)
Definition asciiNode (n : KPINode) : Prop :=
  asciiText (name n)
  /\ match unit n with Some u => asciiText u | None => True end.

(** A name that the title carries unchanged beside a unit: ASCII text, not
    empty, no white space at either end, no line terminator and no opening
    parenthesis. *)
Definition plainName (nm : string) : Prop :=
  asciiText nm
  /\ nm <> ""
  /\ trim nm = nm
  /\ allChars (fun c => negb (isLineTerminator c) && negb (isOpenParen c)) nm = true.

(** A unit that the title carries unchanged: ASCII text, not empty, no
    white space at either end and no closing parenthesis. *)
Definition plainUnit (u : string) : Prop :=
  asciiText u
  /\ u <> ""
  /\ trim u = u
  /\ allChars (fun c => negb (isCloseParen c)) u = true.
(** A node with a name and a unit that the title carries unchanged. *)
Definition obVolumeNode : KPINode :=
  mkKPINode "ob" "OB Volume" None (Some "bcm") None None None None None None None None.

(** A node without a unit whose name ends in a parenthesis. *)
Definition productionNode : KPINode :=
  leaf "production-revenue" "Production (Revenue)".

(** A node with every optional field set, over a child that is attached and
    one that is detached. *)
Definition fullNode : KPINode :=
  mkKPINode "e1" "Emissions" None (Some "tCO2e") (Some ESG_E) (Some Scope1)
            (Some esg_cat)
            (Some [leaf "k1" "Fuel";
                   mkKPINode "k2" "Note" None None None None None None (Some true)
                             None None (Some (3, 4)%Z)])
            None (Some [mkRel "l1" "k1" (Some "uses")]) (Some ["flag-red"])
            (Some (1, 2)%Z).

(** A record with an end that is not bound in the map. *)
Definition unresolvedIn (nodeMap : NodeIdMap) (rel : XMindRelationship) : Prop :=
  mapGet (end1Id rel) nodeMap = None \/ mapGet (end2Id rel) nodeMap = None.

(** The fields of a node that the relationships of a sheet do not touch and
    the topic of the node carries. *)
Definition topicFrame (n : KPINode) :=
  (id n, name n, unit n, isDetached n, orEmpty (markers n), position n,
   (icon n, esg n, scope n, category n)).

(** A forest with [fullNode] at the top, which links to its child. *)
Definition fullForest : list KPINode := [fullNode].
(** The key under which [getAllRelationships] has listed a link. *)
Definition linkKey (l : DisplayedLink) : string :=
  seenKey (id (link_source l)) (id (link_target l)).

(** A listed link is an edge stored on its source, not marked as a reverse
    edge, between two nodes of the forest. *)
Definition storedEdge (forest : list KPINode) (l : DisplayedLink) : Prop :=
  In (link_source l) (forestNodes forest)
  /\ In (link_target l) (forestNodes forest)
  /\ exists rel,
       In rel (orEmpty (relationships (link_source l)))
       /\ endsWith (rel_id rel) "-reverse" = false
       /\ targetId rel = id (link_target l)
       /\ label rel = link_label l.

(** What [getAllRelationships] keeps while it walks the forest: the links
    listed are stored edges, their keys are distinct, and every key listed
    is in the set [seen]. *)
Definition listedSoundly (forest : list KPINode)
           (acc : list string * list DisplayedLink) : Prop :=
  Forall (storedEdge forest) (snd acc)
  /\ NoDup (map linkKey (snd acc))
  /\ (forall l, In l (snd acc) -> seenHas (fst acc) (linkKey l) = true).

(** A preset tab. *)
Definition consolidatedTab : TabState :=
  mkTabState "consolidated" "Consolidated" true (Some preset_consolidated)
             [] [] "" false.

(** Two preset tabs and a custom tab between them, the custom tab
    active. *)
Definition sampleTabs : TabManager :=
  mkTabManager
    [consolidatedTab;
     mkTabState "tab-1" "Scratch" false None [leaf "a" "A"] ["a"] "rev" true;
     mkTabState "financial" "Financial" true (Some preset_financial)
                [] [] "" false]
    "tab-1" 0.

(** The identifier oracle for tabs used in the worked examples. *)
Definition sampleTabId (k : nat) : string :=
  ("tab-x" ++ NilEmpty.string_of_uint (Nat.to_uint k))%string.
(** Some node of [l] matches the search. *)
Definition matchIn (lowerSearch : string) (l : list KPINode) : Prop :=
  exists n, In n l /\ nodeMatches lowerSearch n = true.

(** [x] is the identifier of a node of [l] above a node that matches. *)
Definition aboveMatch (lowerSearch : string) (l : list KPINode) (x : string)
  : Prop :=
  exists p, In p l /\ id p = x
            /\ matchIn lowerSearch (forestNodes (orEmpty (children p))).

(** What a walk over nodes adds to the three sets, with [anc] the
    identifiers above the nodes walked. *)
Definition searchAdds (ls : string) (anc : list string) (l : list KPINode)
           (acc acc' : SearchSets) : Prop :=
  (forall x, In x (matchingIds acc')
             <-> In x (matchingIds acc)
                 \/ exists n, In n l /\ id n = x /\ nodeMatches ls n = true)
  /\ (forall x, In x (ancestorIds acc')
                <-> In x (ancestorIds acc)
                    \/ (In x anc /\ matchIn ls l)
                    \/ aboveMatch ls l x)
  /\ (expandIds acc = ancestorIds acc -> expandIds acc' = ancestorIds acc')
  /\ (NoDup (matchingIds acc) -> NoDup (matchingIds acc'))
  /\ (NoDup (ancestorIds acc) -> NoDup (ancestorIds acc')).

(* ================================================================== *)
(** * Properties *)

Unset Implicit Arguments.

(** ** Unfolding the nested recursions *)

Lemma nodesOf_eq n :
  nodesOf n = n :: forestNodes (orEmpty (children n)).
Proof.
  destruct n as [i nm ic u e s c ch d r m p]; simpl.
  f_equal. destruct ch as [cs|]; simpl; [|reflexivity].
  induction cs as [|c0 cs IH]; simpl; [reflexivity|now rewrite IH].
Qed.

Lemma withChildren_same n : withChildren n (children n) = n.
Proof. now destruct n. Qed.

Lemma findNodeIn_eq t n :
  findNodeIn t n =
  if id n =? t then Some n else findNodeById t (orEmpty (children n)).
Proof.
  destruct n as [i nm ic u e s c ch d r m p]; simpl.
  destruct (i =? t); [reflexivity|].
  destruct ch as [cs|]; simpl; [|reflexivity].
  induction cs as [|c0 cs IH]; simpl; [reflexivity|].
  destruct (findNodeIn t c0); [reflexivity|exact IH].
Qed.

Lemma findParentIn_eq t parent n :
  findParentIn t parent n =
  if id n =? t then Some parent
  else match children n with
       | Some cs => Some (findParentOfNode t cs (Some n))
       | None => None
       end.
Proof.
  destruct n as [i nm ic u e s c ch d r m p]; simpl.
  destruct (i =? t); [reflexivity|].
  destruct ch as [cs|]; simpl; [|reflexivity].
  f_equal.
  generalize (Some (mkKPINode i nm ic u e s c (Some cs) d r m p)) as q.
  intro q.
  induction cs as [|c0 cs IH]; simpl; [reflexivity|].
  destruct (findParentIn t q c0); [reflexivity|exact IH].
Qed.

(** [findNodeById] returns the first node, in pre-order, with the
    identifier. *)
Lemma findNodeById_find t forest :
  findNodeById t forest = find (fun n => id n =? t) (forestNodes forest).
Proof.
  revert forest.
  assert (H : forall n, findNodeIn t n = find (fun n => id n =? t) (nodesOf n)).
  { induction n as [n IH] using KPINode_nested_ind.
    rewrite findNodeIn_eq, nodesOf_eq. simpl.
    destruct (id n =? t); [reflexivity|].
    destruct (children n) as [cs|]; simpl; [|reflexivity].
    specialize (IH cs eq_refl).
    induction IH as [|c0 cs Hc _ IHcs]; simpl; [reflexivity|].
    rewrite Hc, IHcs. clear.
    induction (nodesOf c0) as [|x l IHl]; simpl; [reflexivity|].
    destruct (id x =? t); [reflexivity|exact IHl]. }
  induction forest as [|n forest IH]; simpl; [reflexivity|].
  rewrite H, IH. clear.
  induction (nodesOf n) as [|x l IHl]; simpl; [reflexivity|].
  destruct (id x =? t); [reflexivity|exact IHl].
Qed.

Lemma checkDescendants_existsb t n :
  checkDescendants t n = existsb (fun m => id m =? t) (nodesOf n).
Proof.
  induction n as [n IH] using KPINode_nested_ind.
  rewrite nodesOf_eq.
  destruct n as [i nm ic u e s c ch d r m p]; simpl in *.
  destruct (i =? t); [reflexivity|]. simpl.
  destruct ch as [cs|]; simpl; [|reflexivity].
  specialize (IH cs eq_refl).
  induction IH as [|c0 cs Hc _ IHcs]; simpl; [reflexivity|].
  now rewrite existsb_app, Hc, IHcs.
Qed.

(* ------------------------------------------------------------------ *)
(** ** Category table *)

(** C9, as stated, fails at [root]: the list of [metric] has twelve entries
    and [root] is not one of them. *)
Lemma metric_not_legal_under_root :
  In root [root; revenue; cost; fcf; capex; financial; operational;
           maintenance; esg_cat; production; employee; equipment; metric]
  /\ isLegalParent metric root = false.
Proof. split; [now left|reflexivity]. Qed.

(** C9 (amended): for every category [C] of the closed set other than
    [root], [metric] is a legal child of [C], [metric] itself included; and
    [isMoveValid] accepts a source inferred as [metric] under a target
    inferred as [C]. *)
Theorem metric_legal_under_every_category_but_root :
  forall C, C <> root ->
    isLegalParent metric C = true
    /\ forall sourceNode targetNode,
         inferCategory sourceNode = metric ->
         inferCategory targetNode = C ->
         isMoveValid sourceNode (Some targetNode) = mkMoveResult true None.
Proof.
  intros C HC. split.
  - destruct C; try reflexivity. now contradiction HC.
  - intros sourceNode targetNode Hs Ht. unfold isMoveValid.
    rewrite Hs, Ht. destruct C; try reflexivity. now contradiction HC.
Qed.

Lemma metric_legal_under_metric :
  metric <> root
  /\ isLegalParent metric metric = true
  /\ isMoveValid (leaf "m1" "Margin") (Some (leaf "m2" "Yield"))
     = mkMoveResult true None.
Proof.
  split; [discriminate|].
  destruct (metric_legal_under_every_category_but_root metric)
    as [H1 H2]; [discriminate|].
  split; [exact H1|].
  apply H2; reflexivity.
Defined.

(* ------------------------------------------------------------------ *)
(** ** [addNode] under a parent that does not exist *)

Lemma addToParentNode_absent parentId nodeToAdd n :
  (forall m, In m (nodesOf n) -> id m <> parentId) ->
  addToParentNode parentId nodeToAdd n = n.
Proof.
  induction n as [n IH] using KPINode_nested_ind.
  intros Hno.
  assert (Hn : (id n =? parentId) = false).
  { apply String.eqb_neq, Hno. rewrite nodesOf_eq. now left. }
  destruct n as [i nm ic u e s c ch d r m p]; simpl in *.
  rewrite Hn.
  destruct ch as [cs|]; [|reflexivity].
  unfold withChildren; simpl. do 2 f_equal.
  specialize (IH cs eq_refl).
  assert (Hcs : forall m0, In m0 (forestNodes cs) -> id m0 <> parentId).
  { intros m0 Hm0. apply Hno. right.
    clear -Hm0. induction cs as [|c0 cs IHcs]; simpl in *; [contradiction|].
    apply in_app_or in Hm0 as [H|H]; apply in_or_app; [now left|right; auto]. }
  clear Hno Hn.
  induction IH as [|c0 cs Hc _ IHcs]; simpl; [reflexivity|].
  rewrite Hc, IHcs; [reflexivity| |].
  - intros m0 Hm0. apply Hcs. simpl. apply in_or_app. now right.
  - intros m0 Hm0. apply Hcs. simpl. apply in_or_app. now left.
Qed.

Lemma addToParent_absent parentId nodeToAdd forest :
  (forall m, In m (forestNodes forest) -> id m <> parentId) ->
  map (addToParentNode parentId nodeToAdd) forest = forest.
Proof.
  induction forest as [|n forest IH]; simpl; intros Hno; [reflexivity|].
  rewrite addToParentNode_absent, IH; [reflexivity| |];
    intros m Hm; apply Hno, in_or_app; [now right|now left].
Qed.

(** C10: when no node of the forest has the identifier [parentId],
    [addNode] returns the identifier it generated and leaves the forest as
    it was: the new node is attached nowhere. *)
Theorem addNode_unknown_parent_is_silent_noop :
  forall (genNodeId : nat -> string) parentId nodeData st,
    (forall n, In n (forestNodes (treeData st)) -> id n <> parentId) ->
    fst (addNode genNodeId parentId nodeData st) = genNodeId (nextId st)
    /\ treeData (snd (addNode genNodeId parentId nodeData st)) = treeData st
    /\ hasUnsavedChanges (snd (addNode genNodeId parentId nodeData st)) = true.
Proof.
  intros genNodeId parentId nodeData st Hno.
  unfold addNode, deepClone; simpl.
  repeat split. now apply addToParent_absent.
Qed.

Lemma addNode_unknown_parent_example :
  (forall n, In n (forestNodes (treeData (emptyStore [branch "a" [leaf "b" "B"]]))) ->
             id n <> "zz")
  /\ fst (addNode sampleId "zz" (mkNewNodeData "New Node" None None None)
                  (emptyStore [branch "a" [leaf "b" "B"]])) = "id-0"
  /\ treeData (snd (addNode sampleId "zz" (mkNewNodeData "New Node" None None None)
                            (emptyStore [branch "a" [leaf "b" "B"]])))
     = [branch "a" [leaf "b" "B"]].
Proof.
  assert (H : forall n,
             In n (forestNodes (treeData (emptyStore [branch "a" [leaf "b" "B"]]))) ->
             id n <> "zz").
  { simpl. intros n [<-|[<-|[]]]; discriminate. }
  split; [exact H|].
  destruct (addNode_unknown_parent_is_silent_noop sampleId "zz"
              (mkNewNodeData "New Node" None None None)
              (emptyStore [branch "a" [leaf "b" "B"]]) H) as (H1 & H2 & _).
  split; [exact H1|exact H2].
Defined.

(* ------------------------------------------------------------------ *)
(** ** Cycle prevention in [validateMove] *)

Lemma find_unique {A : Type} (key : A -> string) (l : list A) (x : A) :
  NoDup (map key l) -> In x l ->
  find (fun y => key y =? key x) l = Some x.
Proof.
  induction l as [|y l IH]; simpl; intros Hnd Hin; [contradiction|].
  inversion Hnd as [|? ? Hy Hnd']; subst.
  destruct Hin as [->|Hin].
  - now rewrite String.eqb_refl.
  - destruct (key y =? key x) eqn:E; [|now apply IH].
    apply String.eqb_eq in E. exfalso. apply Hy. rewrite E.
    now apply in_map.
Qed.

Lemma findNodeById_unique forest n :
  NoDup (map id (forestNodes forest)) -> In n (forestNodes forest) ->
  findNodeById (id n) forest = Some n.
Proof.
  intros Hnd Hin. rewrite findNodeById_find. now apply find_unique.
Qed.

Lemma namesNode_true t :
  t <> "" -> t <> "__root__" -> namesNode (Some t) = true.
Proof.
  intros H1 H2. unfold namesNode; simpl.
  apply String.eqb_neq in H1, H2. now rewrite H1, H2.
Qed.

(** C4, as stated, fails for a descendant whose identifier is the root
    sentinel: the descendant test is skipped and the call is read as a move
    to the top level, which a [revenue] node is allowed. *)
Lemma validateMove_accepts_descendant_named_as_sentinel :
  NoDup (map id (forestNodes [sentinelParent]))
  /\ In sentinelParent (forestNodes [sentinelParent])
  /\ In sentinelChild (forestNodes (orEmpty (children sentinelParent)))
  /\ validateMove [sentinelParent] (id sentinelParent) (Some (id sentinelChild))
     = mkMoveResult true None.
Proof.
  simpl. repeat split.
  - repeat constructor; simpl; intuition discriminate.
  - now left.
  - now left.
Qed.

(** C4 (amended): in a forest with unique identifiers, for every node [n]
    and every descendant [d] of [n] whose identifier is neither empty nor
    the root sentinel, [validateMove] rejects the move of [n] under [d]. *)
Theorem validateMove_rejects_move_into_own_subtree :
  forall forest n d,
    NoDup (map id (forestNodes forest)) ->
    In n (forestNodes forest) ->
    In d (forestNodes (orEmpty (children n))) ->
    id d <> "" -> id d <> "__root__" ->
    valid (validateMove forest (id n) (Some (id d))) = false.
Proof.
  intros forest n d Hnd Hn Hd Hne Hns.
  unfold validateMove.
  destruct (id n =? id d); [reflexivity|].
  rewrite (findNodeById_unique _ _ Hnd Hn).
  rewrite (namesNode_true _ Hne Hns).
  unfold isDescendant. rewrite (findNodeById_unique _ _ Hnd Hn).
  rewrite checkDescendants_existsb.
  replace (existsb (fun m => id m =? id d) (nodesOf n)) with true; [reflexivity|].
  symmetry. apply existsb_exists. exists d. split.
  - rewrite nodesOf_eq. now right.
  - apply String.eqb_refl.
Qed.

Lemma validateMove_rejects_child_example :
  NoDup (map id (forestNodes [productionRevenue]))
  /\ valid (validateMove [productionRevenue] (id productionRevenue)
                         (Some (id obVolume))) = false.
Proof.
  assert (Hnd : NoDup (map id (forestNodes [productionRevenue]))).
  { simpl. repeat constructor; simpl; intuition discriminate. }
  split; [exact Hnd|].
  apply (validateMove_rejects_move_into_own_subtree
           [productionRevenue] productionRevenue obVolume Hnd).
  - now left.
  - now left.
  - discriminate.
  - discriminate.
Defined.

(* ------------------------------------------------------------------ *)
(** ** [duplicateNode] *)

Section Duplicate.

Variable genNodeId : nat -> string.

Lemma duplicateWithNewIds_eq node k :
  duplicateWithNewIds genNodeId node k =
  let '(cs, k') :=
    match children node with
    | Some l => let '(l', k2) := duplicateAllWithNewIds genNodeId l (S k) in
                (Some l', k2)
    | None => (None, S k)
    end in
  (mkKPINode (genNodeId k) (name node ++ " (copy)")%string (icon node)
             (unit node) (esg node) (scope node) (category node) cs
             (isDetached node) (relationships node) (markers node)
             (position node),
   k').
Proof.
  destruct node as [i nm ic u e s c ch d r m p]; simpl.
  destruct ch as [cs|]; [|reflexivity].
  match goal with
  | |- context [?f cs (S k)] =>
      lazymatch f with
      | duplicateAllWithNewIds _ => fail
      | _ => assert (E : forall l j, f l j = duplicateAllWithNewIds genNodeId l j)
      end
  end.
  { clear. induction l as [|c0 l IH]; intros j; simpl; [reflexivity|].
    destruct (duplicateWithNewIds genNodeId c0 j) as [c' k1].
    now rewrite IH. }
  now rewrite E.
Qed.

Lemma duplicateAll_CopyNamed cs :
  Forall (fun c => forall k, CopyNamed c (fst (duplicateWithNewIds genNodeId c k))) cs ->
  forall k, Forall2 CopyNamed cs (fst (duplicateAllWithNewIds genNodeId cs k)).
Proof.
  induction 1 as [|c cs Hc _ IH]; intros k; simpl; [constructor|].
  specialize (Hc k).
  destruct (duplicateWithNewIds genNodeId c k) as [c' k1].
  specialize (IH k1).
  destruct (duplicateAllWithNewIds genNodeId cs k1) as [r' k2].
  now constructor.
Qed.

(** C7 (amended): [duplicateWithNewIds] appends [" (copy)"] to the name of
    every node of the clone, the root and each descendant alike, and keeps
    the shape of the subtree. *)
Theorem duplicateWithNewIds_suffixes_every_name :
  forall node k, CopyNamed node (fst (duplicateWithNewIds genNodeId node k)).
Proof.
  induction node as [node IH] using KPINode_nested_ind.
  intros k. rewrite duplicateWithNewIds_eq.
  destruct (children node) as [cs|] eqn:E.
  - pose proof (duplicateAll_CopyNamed cs (IH cs eq_refl) (S k)) as H.
    destruct (duplicateAllWithNewIds genNodeId cs (S k)) as [l' k2].
    simpl in *. eapply CopyNamed_node; [reflexivity|exact E|reflexivity|exact H].
  - simpl. now apply CopyNamed_leaf.
Qed.

Lemma duplicateAll_FieldsCopied cs :
  Forall (fun c => forall k, FieldsCopied c (fst (duplicateWithNewIds genNodeId c k))) cs ->
  forall k, Forall2 FieldsCopied cs (fst (duplicateAllWithNewIds genNodeId cs k)).
Proof.
  induction 1 as [|c cs Hc _ IH]; intros k; simpl; [constructor|].
  specialize (Hc k).
  destruct (duplicateWithNewIds genNodeId c k) as [c' k1].
  specialize (IH k1).
  destruct (duplicateAllWithNewIds genNodeId cs k1) as [r' k2].
  now constructor.
Qed.

(** X20: the clone that [duplicateWithNewIds] builds carries the
    annotations of the original at every node, [esg], [scope] and [unit]
    among them, relationships and markers by value with the targets they
    had, and has the shape of the original. *)
Lemma duplicateWithNewIds_copies_fields :
  forall node k, FieldsCopied node (fst (duplicateWithNewIds genNodeId node k)).
Proof.
  induction node as [node IH] using KPINode_nested_ind.
  intros k. rewrite duplicateWithNewIds_eq.
  destruct (children node) as [cs|] eqn:E.
  - pose proof (duplicateAll_FieldsCopied cs (IH cs eq_refl) (S k)) as H.
    destruct (duplicateAllWithNewIds genNodeId cs (S k)) as [l' k2].
    simpl in *.
    eapply FieldsCopied_node; [|exact E|reflexivity|exact H].
    repeat split.
  - simpl. apply FieldsCopied_leaf; [|exact E|reflexivity]. repeat split.
Qed.

Lemma duplicateAll_ids cs :
  Forall (fun c => forall k,
              map id (nodesOf (fst (duplicateWithNewIds genNodeId c k)))
              = map genNodeId (seq k (length (nodesOf c)))
              /\ snd (duplicateWithNewIds genNodeId c k) = k + length (nodesOf c)) cs ->
  forall k,
    map id (forestNodes (fst (duplicateAllWithNewIds genNodeId cs k)))
    = map genNodeId (seq k (length (forestNodes cs)))
    /\ snd (duplicateAllWithNewIds genNodeId cs k) = k + length (forestNodes cs).
Proof.
  induction 1 as [|c cs Hc _ IH]; intros k; simpl.
  - split; [reflexivity|lia].
  - destruct (Hc k) as [H1 H2].
    destruct (duplicateWithNewIds genNodeId c k) as [c' k1]. simpl in H1, H2.
    destruct (IH k1) as [H3 H4].
    destruct (duplicateAllWithNewIds genNodeId cs k1) as [r' k2].
    simpl in *. subst k1 k2.
    rewrite map_app, length_app, seq_app, map_app, H1, H3.
    split; [reflexivity|lia].
Qed.

(** X19: the identifiers of the clone that [duplicateWithNewIds] builds
    are, in pre-order, the identifiers drawn one after the other from the
    counter on, one draw for each node of the original: every node of the
    clone gets an identifier of its own, and the counter moves on by the
    number of nodes. *)
Lemma duplicateWithNewIds_ids :
  forall node k,
    map id (nodesOf (fst (duplicateWithNewIds genNodeId node k)))
    = map genNodeId (seq k (length (nodesOf node)))
    /\ snd (duplicateWithNewIds genNodeId node k) = k + length (nodesOf node).
Proof.
  induction node as [node IH] using KPINode_nested_ind.
  intros k. rewrite duplicateWithNewIds_eq, (nodesOf_eq node).
  destruct (children node) as [cs|] eqn:E.
  - destruct (duplicateAll_ids cs (IH cs eq_refl) (S k)) as [H1 H2].
    destruct (duplicateAllWithNewIds genNodeId cs (S k)) as [l' k2].
    cbn [fst snd] in *. rewrite nodesOf_eq.
    cbn [children orEmpty id length seq map]. rewrite H1.
    split; [reflexivity|lia].
  - cbn [fst snd]. rewrite nodesOf_eq. simpl. split; [reflexivity|lia].
Qed.

(** For a top-level node [duplicateNode] splices the clone in right after
    the node and touches nothing else. *)
Lemma duplicateNode_top_level nodeId st n :
  findNodeById nodeId (treeData st) = Some n ->
  existsb (fun m => id m =? nodeId) (treeData st) = true ->
  treeData (duplicateNode genNodeId nodeId st)
  = spliceIn (findIndex (fun m => id m =? nodeId) (treeData st) + 1)
             (fst (duplicateWithNewIds genNodeId n (nextId st)))
             (treeData st).
Proof.
  intros Hf Hr. unfold duplicateNode. rewrite Hf.
  destruct (duplicateWithNewIds genNodeId n (nextId st)) as [clone k].
  now rewrite Hr.
Qed.

End Duplicate.

(** C7, as stated, fails for a node with a child: the clone of the child is
    renamed too. *)
Lemma duplicateNode_renames_descendants :
  map name (forestNodes (treeData
     (duplicateNode sampleId "p" (emptyStore [branch "p" [leaf "c" "Child"]]))))
  = ["p"; "Child"; "p (copy)"; "Child (copy)"].
Proof. reflexivity. Qed.

(** C2 at [nestedForest]: the clone of [n] is inserted after [n] under the
    identifier drawn first, but its child is the original child [c], under
    the original identifier; the identifier drawn for the clone of [c] is
    not in the forest. *)
Lemma duplicateNode_nested_keeps_descendant_ids :
  map id (forestNodes (treeData (duplicateNode sampleId "n" (emptyStore nestedForest))))
  = ["r"; "n"; "c"; "id-0"; "c"]
  /\ map name (forestNodes (treeData (duplicateNode sampleId "n" (emptyStore nestedForest))))
     = ["r"; "n"; "Child"; "n (copy)"; "Child"].
Proof. split; reflexivity. Qed.

(** C8 at [annotatedForest]: duplicating the leaf [n] rebuilds its parent
    [r] from eight fields, and [r] comes out without its relationships,
    markers, position and [isDetached]. *)
Lemma duplicateNode_strips_fields_of_ancestors :
  map (fun x => (id x, relationships x, markers x, position x, isDetached x))
      (treeData (duplicateNode sampleId "n" (emptyStore annotatedForest)))
  = [("r", None, None, None, None)]
  /\ map id (forestNodes (treeData (duplicateNode sampleId "n" (emptyStore annotatedForest))))
     = ["r"; "n"; "id-0"].
Proof. split; reflexivity. Qed.

(* ------------------------------------------------------------------ *)
(** ** [moveNode] and [findParentOfNode] *)

(** C1 at [moveForest]: the move of [x] under [b] is accepted and carried
    out, and [findParentOfNode] then answers [null] for [x]: the search
    returns from the first node that has children and never reaches [b]. *)
Lemma findParentOfNode_misses_moved_node :
  fst (moveNode "x" (Some "b") (emptyStore moveForest)) = mkMoveResult true None
  /\ treeData (snd (moveNode "x" (Some "b") (emptyStore moveForest)))
     = [branch "a" [leaf "y" "Y"];
        withChildren (leaf "b" "B") (Some [leaf "x" "X"])]
  /\ findParentOfNode "x"
       (treeData (snd (moveNode "x" (Some "b") (emptyStore moveForest)))) None
     = None.
Proof. repeat split; reflexivity. Qed.

(** A target identifier that no node carries is read as the top level by
    [validateMove] and as a parent by [addNodeToParent]: the move of a
    [revenue] node is accepted, the node is taken out and attached
    nowhere. *)
Lemma moveNode_drops_node_for_unresolved_target :
  fst (moveNode "x" (Some "ghost") (emptyStore revenueBelowForest))
  = mkMoveResult true None
  /\ map id (forestNodes revenueBelowForest) = ["a"; "x"]
  /\ map id (forestNodes
               (treeData (snd (moveNode "x" (Some "ghost")
                                        (emptyStore revenueBelowForest)))))
     = ["a"].
Proof. repeat split; reflexivity. Qed.

(* ------------------------------------------------------------------ *)
(** ** Relationship records of the exported sheets *)

Lemma collectFrom_records n :
  collectFrom n = flat_map relationshipRecords (nodesOf n).
Proof.
  induction n as [n IH] using KPINode_nested_ind.
  rewrite nodesOf_eq.
  destruct n as [i nm ic u e s c ch d r m p]; simpl in *.
  f_equal.
  destruct ch as [cs|]; simpl; [|reflexivity].
  specialize (IH cs eq_refl).
  induction IH as [|c0 cs Hc _ IHcs]; simpl; [reflexivity|].
  now rewrite flat_map_app, Hc, IHcs.
Qed.

(** [collectRelationships] gathers the records of every node of the
    forest it is given, in pre-order. *)
Lemma collectRelationships_records nodes :
  collectRelationships nodes = flat_map relationshipRecords (forestNodes nodes).
Proof.
  unfold collectRelationships, forestNodes.
  induction nodes as [|n nodes IH]; simpl; [reflexivity|].
  now rewrite flat_map_app, collectFrom_records, IH.
Qed.

Lemma nth_error_mapi {A B : Type} (f : nat -> A -> B) l :
  forall index i,
    nth_error (mapi f index l) i = option_map (f (index + i)) (nth_error l i).
Proof.
  induction l as [|x l IH]; intros index i; destruct i; simpl; try reflexivity.
  - now rewrite Nat.add_0_r.
  - rewrite IH. now rewrite Nat.add_succ_r.
Qed.

Lemma orEmpty_nonEmpty {A : Type} (l : list A) :
  orEmpty (if nonEmpty l then Some l else None) = l.
Proof. now destruct l. Qed.

Section SheetsOfExport.

Variable genXMindId : nat -> string.

(** C5 (amended): for the [i]-th attached root of the forest, the [i]-th
    sheet is the sheet of that root.  The relationship list of the first is
    the list of the records of every node of the whole forest, detached
    top-level nodes included; the relationship list of every later one is
    the list of the records of the nodes of its own root's subtree.  Every
    record on a list comes from a relationship stored on one of these
    nodes, with the node as its first end and the target of the relationship
    as its second; and every relationship stored on one of these nodes has
    its record on the list, wherever its target lies: under the same root,
    under another root, or nowhere in the forest.  (A list without records
    is left off the sheet.) *)
Theorem exportSheets_relationships :
  forall data i rootNode,
    nth_error (filter notDetached data) i = Some rootNode ->
    exists sheet,
      nth_error (exportSheets genXMindId data) i = Some sheet
      /\ topic_id (rootTopic sheet) = id rootNode
      /\ orEmpty (sheet_relationships sheet)
         = flat_map relationshipRecords
             (if (i =? 0)%nat then forestNodes data else nodesOf rootNode)
      /\ (forall r,
            In r (orEmpty (sheet_relationships sheet)) ->
            exists m rel,
              In m (if (i =? 0)%nat then forestNodes data else nodesOf rootNode)
              /\ In rel (orEmpty (relationships m))
              /\ end1Id r = id m /\ end2Id r = targetId rel
              /\ xrel_id r = rel_id rel /\ xrel_title r = label rel)
      /\ (forall m rel,
            In m (if (i =? 0)%nat then forestNodes data else nodesOf rootNode) ->
            In rel (orEmpty (relationships m)) ->
            exists r,
              In r (orEmpty (sheet_relationships sheet))
              /\ end1Id r = id m /\ end2Id r = targetId rel
              /\ xrel_id r = rel_id rel /\ xrel_title r = label rel).
Proof.
  intros data i rootNode Hi.
  exists (sheetOfRoot genXMindId data (filter isDetachedNode data) i rootNode).
  assert (Hrels :
            orEmpty (sheet_relationships
                       (sheetOfRoot genXMindId data (filter isDetachedNode data)
                                    i rootNode))
            = flat_map relationshipRecords
                (if (i =? 0)%nat then forestNodes data else nodesOf rootNode)).
  { unfold sheetOfRoot; simpl. rewrite orEmpty_nonEmpty.
    rewrite collectRelationships_records.
    destruct (i =? 0)%nat; [reflexivity|].
    simpl. now rewrite app_nil_r. }
  split; [|split; [|split; [exact Hrels|split]]].
  - unfold exportSheets.
    destruct (filter notDetached data) as [|r0 roots] eqn:E.
    + now destruct i.
    + simpl length. cbn [Nat.eqb andb].
      now rewrite nth_error_mapi, Hi.
  - unfold sheetOfRoot.
    destruct ((i =? 0)%nat && nonEmpty (filter isDetachedNode data)); simpl;
      now destruct rootNode.
  - intros r Hr. rewrite Hrels in Hr.
    apply in_flat_map in Hr as (m & Hm & Hr).
    unfold relationshipRecords in Hr.
    apply in_map_iff in Hr as (rel & <- & Hrel).
    exists m, rel. now repeat split.
  - intros m rel Hm Hrel. rewrite Hrels.
    eexists. split.
    + apply in_flat_map. exists m. split; [exact Hm|].
      unfold relationshipRecords. apply in_map_iff.
      exists rel. split; [reflexivity|exact Hrel].
    + now repeat split.
Qed.

End SheetsOfExport.

(** C5, as stated, fails for a record that leads from the subtree of a
    later root to a node under another root: the sheet of the later root
    carries it, as the first sheet does, although its target is not in the
    subtree of that root. *)
Lemma later_sheet_carries_cross_sheet_record :
  map (fun sheet => map (fun r => (xrel_id r, end1Id r, end2Id r))
                        (orEmpty (sheet_relationships sheet)))
      (exportSheets sampleId crossSheetForest)
  = [[("l1", "b", "a"); ("l2", "b", "r2"); ("l3", "d", "b")];
     [("l1", "b", "a"); ("l2", "b", "r2")]]
  /\ nth_error (filter notDetached crossSheetForest) 1 = Some secondRoot
  /\ map id (nodesOf secondRoot) = ["r2"; "b"].
Proof. split; [reflexivity|split; reflexivity]. Qed.

(** With no attached root the one sheet written is the placeholder sheet:
    it has no relationship list although the forest has a relationship
    record, where the sheet of a first attached root would carry the records
    of the whole forest. *)
Lemma placeholder_sheet_has_no_relationships :
  map sheet_relationships (exportSheets sampleId detachedOnlyForest) = [None]
  /\ collectRelationships detachedOnlyForest
     = [mkXRel "l1" "d1" "d2" None None].
Proof. split; reflexivity. Qed.

Lemma exportSheets_relationships_example :
  (nth_error (filter notDetached crossSheetForest) 0
   = Some (branch "r1" [leaf "a" "A"])
   /\ nth_error (filter notDetached crossSheetForest) 1 = Some secondRoot)
  /\ (exists sheet,
         nth_error (exportSheets sampleId crossSheetForest) 0 = Some sheet
         /\ topic_id (rootTopic sheet) = "r1"
         /\ orEmpty (sheet_relationships sheet)
            = [mkXRel "l1" "b" "a" (Some "feeds") (Some [mkTitleRun "feeds"]);
               mkXRel "l2" "b" "r2" None None;
               mkXRel "l3" "d" "b" None None])
  /\ (exists sheet,
         nth_error (exportSheets sampleId crossSheetForest) 1 = Some sheet
         /\ topic_id (rootTopic sheet) = "r2"
         /\ orEmpty (sheet_relationships sheet)
            = [mkXRel "l1" "b" "a" (Some "feeds") (Some [mkTitleRun "feeds"]);
               mkXRel "l2" "b" "r2" None None]
         /\ exists r,
              In r (orEmpty (sheet_relationships sheet))
              /\ end1Id r = "b" /\ end2Id r = "a").
Proof.
  split; [split; reflexivity|]. split.
  - destruct (exportSheets_relationships sampleId crossSheetForest 0
                (branch "r1" [leaf "a" "A"]) eq_refl)
      as (sheet & H1 & H2 & H3 & _).
    exists sheet. split; [exact H1|]. split; [exact H2|exact H3].
  - destruct (exportSheets_relationships sampleId crossSheetForest 1
                secondRoot eq_refl)
      as (sheet & H1 & H2 & H3 & _ & H5).
    exists sheet. split; [exact H1|]. split; [exact H2|]. split; [exact H3|].
    destruct (H5 (mkKPINode "b" "B" None None None None None None None
                            (Some [mkRel "l1" "a" (Some "feeds");
                                   mkRel "l2" "r2" None])
                            None None)
                 (mkRel "l1" "a" (Some "feeds")))
      as (r & Hr & E1 & E2 & _).
    + right. now left.
    + now left.
    + exists r. split; [exact Hr|]. split; [exact E1|exact E2].
Defined.

(* ------------------------------------------------------------------ *)
(** ** [createLink] *)

Section CreateLink.

Variable sourceId : string.
Variable newRel : NodeRelationship.

Let upd := linkUpdateNode sourceId newRel.

Lemma linkUpdateNode_id n : id (upd n) = id n.
Proof.
  destruct n as [i nm ic u e s c ch d r m p]; unfold upd; simpl.
  destruct (i =? sourceId); [reflexivity|]. now destruct ch.
Qed.

Lemma linkUpdateNode_children n :
  children (upd n) =
  if id n =? sourceId then children n
  else option_map (map upd) (children n).
Proof.
  destruct n as [i nm ic u e s c ch d r m p]; unfold upd; simpl.
  destruct (i =? sourceId); [reflexivity|]. now destruct ch.
Qed.

Lemma linkUpdateNode_relationships n :
  relationships (upd n) =
  if id n =? sourceId then Some (orEmpty (relationships n) ++ [newRel])
  else relationships n.
Proof.
  destruct n as [i nm ic u e s c ch d r m p]; unfold upd; simpl.
  destruct (i =? sourceId); [reflexivity|]. now destruct ch.
Qed.

(** Looking up any other identifier finds a node with the relationships it
    had before. *)
Lemma linkUpdate_other_node x n :
  x <> sourceId ->
  option_map relationships (findNodeIn x (upd n))
  = option_map relationships (findNodeIn x n).
Proof.
  intros Hx.
  induction n as [n IH] using KPINode_nested_ind.
  rewrite !findNodeIn_eq, linkUpdateNode_id.
  destruct (id n =? x) eqn:E.
  - simpl. rewrite linkUpdateNode_relationships.
    apply String.eqb_eq in E. subst x.
    apply String.eqb_neq in Hx. now rewrite Hx.
  - rewrite linkUpdateNode_children.
    destruct (id n =? sourceId); [reflexivity|].
    destruct (children n) as [cs|]; simpl; [|reflexivity].
    specialize (IH cs eq_refl).
    induction IH as [|c0 cs Hc _ IHcs]; simpl; [reflexivity|].
    destruct (findNodeIn x (upd c0)), (findNodeIn x c0);
      simpl in Hc; try discriminate; [exact Hc|exact IHcs].
Qed.

Lemma linkUpdate_other x forest :
  x <> sourceId ->
  option_map relationships (findNodeById x (map upd forest))
  = option_map relationships (findNodeById x forest).
Proof.
  intros Hx. induction forest as [|n forest IH]; simpl; [reflexivity|].
  pose proof (linkUpdate_other_node x n Hx) as Hn.
  destruct (findNodeIn x (upd n)), (findNodeIn x n);
    simpl in Hn; try discriminate; [exact Hn|exact IH].
Qed.

(** Looking up the source finds it with the new edge appended. *)
Lemma linkUpdate_source_node n :
  option_map relationships (findNodeIn sourceId (upd n))
  = option_map (fun m => Some (orEmpty (relationships m) ++ [newRel]))
               (findNodeIn sourceId n).
Proof.
  induction n as [n IH] using KPINode_nested_ind.
  rewrite !findNodeIn_eq, linkUpdateNode_id.
  destruct (id n =? sourceId) eqn:E.
  - simpl. now rewrite linkUpdateNode_relationships, E.
  - rewrite linkUpdateNode_children, E.
    destruct (children n) as [cs|]; simpl; [|reflexivity].
    specialize (IH cs eq_refl).
    induction IH as [|c0 cs Hc _ IHcs]; simpl; [reflexivity|].
    destruct (findNodeIn sourceId (upd c0)), (findNodeIn sourceId c0);
      simpl in Hc; try discriminate; [exact Hc|exact IHcs].
Qed.

Lemma linkUpdate_source forest :
  option_map relationships (findNodeById sourceId (map upd forest))
  = option_map (fun m => Some (orEmpty (relationships m) ++ [newRel]))
               (findNodeById sourceId forest).
Proof.
  induction forest as [|n forest IH]; simpl; [reflexivity|].
  pose proof (linkUpdate_source_node n) as Hn.
  destruct (findNodeIn sourceId (upd n)), (findNodeIn sourceId n);
    simpl in Hn; try discriminate; [exact Hn|exact IH].
Qed.

End CreateLink.

(* ------------------------------------------------------------------ *)
(** ** References into the imported forest *)

Lemma nth_error_setIndex_eq {A : Type} (l : list A) i x y :
  nth_error l i = Some y -> nth_error (setIndex i x l) i = Some x.
Proof.
  revert i. induction l as [|a l IH]; intros [|i] H; simpl in *;
    try discriminate; [reflexivity|now apply IH].
Qed.

Lemma nth_error_setIndex_neq {A : Type} (l : list A) i j x :
  i <> j -> nth_error (setIndex i x l) j = nth_error l j.
Proof.
  revert i j. induction l as [|a l IH]; intros [|i] [|j] H; simpl;
    try reflexivity; [now contradiction H|].
  apply IH. now intros ->.
Qed.

Lemma initRelationships_appendRels n : initRelationships n = appendRels [] n.
Proof. unfold initRelationships, appendRels. now rewrite app_nil_r. Qed.

Lemma pushRelationship_appendRels r n : pushRelationship r n = appendRels [r] n.
Proof. reflexivity. Qed.

Lemma push_init_appendRels r n :
  pushRelationship r (initRelationships n) = appendRels [r] n.
Proof. now destruct n. Qed.

Lemma updateAt_ext f g ref :
  (forall n, f n = g n) ->
  forall forest, updateAt ref f forest = updateAt ref g forest.
Proof.
  intros Hfg. induction ref as [|i rest IH]; intros forest; simpl; [reflexivity|].
  destruct (nth_error forest i) as [n|]; [|reflexivity].
  destruct rest as [|j rest']; [now rewrite Hfg|].
  destruct (children n) as [cs|]; [|reflexivity].
  now rewrite IH.
Qed.

(** What a mutation through one reference does to the object behind
    another: it stays where it is, keeps its identifier, and its
    relationships grow at the end; behind the same reference they grow by
    [extra]. *)
Lemma nodeAt_updateAt extra q :
  forall r forest n,
    nodeAt q forest = Some n ->
    exists n',
      nodeAt q (updateAt r (appendRels extra) forest) = Some n'
      /\ id n' = id n
      /\ (exists more, orEmpty (relationships n') = orEmpty (relationships n) ++ more)
      /\ (q = r -> relationships n' = Some (orEmpty (relationships n) ++ extra)).
Proof.
  assert (Hsame : forall r forest n,
             q <> r -> nodeAt q forest = Some n ->
             exists n',
               nodeAt q forest = Some n'
               /\ id n' = id n
               /\ (exists more,
                      orEmpty (relationships n') = orEmpty (relationships n) ++ more)
               /\ (q = r -> relationships n' = Some (orEmpty (relationships n) ++ extra))).
  { intros r forest n Hne Hq. exists n. repeat split; try assumption.
    - exists []. now rewrite app_nil_r.
    - intros ->. now contradiction Hne. }
  clear Hsame.
  induction q as [|i qrest IH]; intros r forest n Hq; [discriminate|].
  simpl in Hq.
  destruct (nth_error forest i) as [ni|] eqn:Ei; [|discriminate].
  assert (Hkeep : forall forest',
             nth_error forest' i = Some ni ->
             r <> i :: qrest ->
             exists n',
               nodeAt (i :: qrest) forest' = Some n'
               /\ id n' = id n
               /\ (exists more,
                      orEmpty (relationships n') = orEmpty (relationships n) ++ more)
               /\ (i :: qrest = r ->
                   relationships n' = Some (orEmpty (relationships n) ++ extra))).
  { intros forest' E' Hne. exists n. simpl. rewrite E'. repeat split.
    - exact Hq.
    - exists []. now rewrite app_nil_r.
    - intros <-. now contradiction Hne. }
  destruct r as [|j rrest]; [apply Hkeep; [exact Ei|discriminate]|].
  simpl updateAt.
  destruct (nth_error forest j) as [nj|] eqn:Ej;
    [|apply Hkeep; [exact Ei|intros [= -> ->]; congruence]].
  destruct (Nat.eq_dec i j) as [<-|Hij].
  - rewrite Ei in Ej. injection Ej as <-.
    destruct rrest as [|j' rrest'].
    + (* the object at [i] itself is mutated *)
      exists (match qrest with [] => appendRels extra ni | _ => n end).
      simpl. rewrite (nth_error_setIndex_eq _ _ _ _ Ei).
      destruct qrest as [|i' qrest'].
      * injection Hq as <-.
        split; [reflexivity|]. split; [reflexivity|].
        split; [now exists extra|reflexivity].
      * simpl in *.
        split; [exact Hq|]. split; [reflexivity|].
        split; [exists []; now rewrite app_nil_r|discriminate].
    + destruct (children ni) as [cs|] eqn:Ec.
      * destruct qrest as [|i' qrest'].
        -- injection Hq as <-.
           exists (withChildren ni (Some (updateAt (j' :: rrest') (appendRels extra) cs))).
           simpl. rewrite (nth_error_setIndex_eq _ _ _ _ Ei).
           split; [reflexivity|]. split; [reflexivity|].
           split; [exists []; now rewrite app_nil_r|discriminate].
        -- try rewrite Ec in Hq. simpl in Hq.
           destruct (IH (j' :: rrest') cs n Hq) as (n' & H1 & H2 & H3 & H4).
           exists n'. simpl nodeAt at 1.
           rewrite (nth_error_setIndex_eq _ _ _ _ Ei). simpl.
           split; [exact H1|]. split; [exact H2|]. split; [exact H3|].
           intros [= E1 E2]. apply H4. now rewrite E1, E2.
      * apply Hkeep; [exact Ei|].
        intros [= E]. subst qrest. try rewrite Ec in Hq. simpl in Hq.
        now destruct j'.
  - assert (Hne : j :: rrest <> i :: qrest) by (intros [= -> _]; congruence).
    destruct rrest as [|j' rrest'].
    + apply Hkeep; [|exact Hne].
      rewrite nth_error_setIndex_neq; [exact Ei|congruence].
    + destruct (children nj) as [cs|]; [|apply Hkeep; [exact Ei|exact Hne]].
      apply Hkeep; [|exact Hne].
      rewrite nth_error_setIndex_neq; [exact Ei|congruence].
Qed.

Lemma nodesOf_info_appendRels extra n :
  map nodeInfo (nodesOf (appendRels extra n)) = map nodeInfo (nodesOf n).
Proof. rewrite !nodesOf_eq. now destruct n. Qed.

Lemma forestNodes_setIndex_info forest :
  forall i old new,
    nth_error forest i = Some old ->
    map nodeInfo (nodesOf new) = map nodeInfo (nodesOf old) ->
    map nodeInfo (forestNodes (setIndex i new forest))
    = map nodeInfo (forestNodes forest).
Proof.
  unfold forestNodes.
  induction forest as [|a forest IH]; intros [|i] old new Hi Hinfo;
    simpl in *; try discriminate; rewrite !map_app.
  - injection Hi as ->. now rewrite Hinfo.
  - f_equal. now apply IH with old.
Qed.

(** Pushing relationships changes no identifier, name or unit, and moves
    no node. *)
Lemma updateAt_info extra ref :
  forall forest,
    map nodeInfo (forestNodes (updateAt ref (appendRels extra) forest))
    = map nodeInfo (forestNodes forest).
Proof.
  induction ref as [|i rest IH]; intros forest; simpl; [reflexivity|].
  destruct (nth_error forest i) as [n|] eqn:Ei; [|reflexivity].
  destruct rest as [|j rest'].
  - apply forestNodes_setIndex_info with n; [exact Ei|].
    apply nodesOf_info_appendRels.
  - destruct (children n) as [cs|] eqn:Ec; [|reflexivity].
    apply forestNodes_setIndex_info with n; [exact Ei|].
    rewrite !nodesOf_eq. cbn [withChildren children orEmpty].
    rewrite !map_cons, IH, Ec. reflexivity.
Qed.

Lemma mapGet_In k m ref : mapGet k m = Some ref -> In (k, ref) m.
Proof.
  induction m as [|[k' v] m IH]; simpl; [discriminate|].
  destruct (k' =? k) eqn:E.
  - intros [= ->]. apply String.eqb_eq in E. subst. now left.
  - intros H. right. now apply IH.
Qed.

Lemma nodeAt_single i forest : nodeAt [i] forest = nth_error forest i.
Proof. simpl. now destruct (nth_error forest i). Qed.

Lemma nodeAt_snoc ref :
  forall forest n i,
    nodeAt ref forest = Some n ->
    nodeAt (ref ++ [i]) forest = nth_error (orEmpty (children n)) i.
Proof.
  induction ref as [|j rest IH]; intros forest n i H; [discriminate|].
  simpl in H. simpl app.
  destruct (nth_error forest j) as [nj|] eqn:Ej; [|discriminate].
  destruct rest as [|j' rest'].
  - injection H as <-. simpl app. simpl nodeAt at 1. rewrite Ej.
    apply nodeAt_single.
  - simpl app. simpl nodeAt at 1. rewrite Ej.
    change (j' :: rest' ++ [i]) with ((j' :: rest') ++ [i]).
    now apply IH.
Qed.

Lemma traverseIds_eq ref node m :
  traverseIds ref node m =
  match children node with
  | Some cs => traverseAllIds ref cs 0 (mapSet (id node) ref m)
  | None => mapSet (id node) ref m
  end.
Proof.
  destruct node as [i nm ic u e s c ch d r mk p]; simpl.
  destruct ch as [cs|]; [|reflexivity].
  generalize (mapSet i ref m) as m1. generalize 0%nat as k.
  induction cs as [|c0 cs IH]; intros k m1; simpl; [reflexivity|apply IH].
Qed.

Section ValidReferences.

Variable forest : list KPINode.

Let validRefs := validRefsIn forest.

Lemma traverseAllIds_valid ref l :
  Forall (fun c => forall ref m, nodeAt ref forest = Some c -> validRefs m ->
                                 validRefs (traverseIds ref c m)) l ->
  forall i m,
    (forall j c, nth_error l j = Some c -> nodeAt (ref ++ [i + j]) forest = Some c) ->
    validRefs m ->
    validRefs (traverseAllIds ref l i m).
Proof.
  induction 1 as [|c l Hc _ IH]; intros i m Hl Hm; simpl; [exact Hm|].
  apply IH.
  - intros j c' Hj. rewrite Nat.add_succ_l, <- Nat.add_succ_r.
    apply Hl. exact Hj.
  - apply Hc; [|exact Hm].
    specialize (Hl 0%nat c eq_refl). now rewrite Nat.add_0_r in Hl.
Qed.

Lemma traverseIds_valid node :
  forall ref m, nodeAt ref forest = Some node -> validRefs m ->
                validRefs (traverseIds ref node m).
Proof.
  induction node as [node IH] using KPINode_nested_ind.
  intros ref m Href Hm. rewrite traverseIds_eq.
  assert (Hm1 : validRefs (mapSet (id node) ref m)).
  { intros k r [[= <- <-]|Hin]; [now exists node|now apply Hm]. }
  destruct (children node) as [cs|] eqn:Ec; [|exact Hm1].
  apply traverseAllIds_valid; [now apply IH| |exact Hm1].
  intros j c Hj. simpl. rewrite (nodeAt_snoc _ _ _ _ Href), Ec. exact Hj.
Qed.

Lemma buildNodeIdMap_valid : validRefs (buildNodeIdMap forest).
Proof.
  unfold buildNodeIdMap. apply traverseAllIds_valid.
  - apply Forall_forall. intros c _. apply traverseIds_valid.
  - intros j c Hj. simpl. now rewrite Hj.
  - intros k ref [].
Qed.

End ValidReferences.

(* ------------------------------------------------------------------ *)
(** ** [processRelationships] *)

Lemma Grows_refl forest : Grows forest forest.
Proof.
  intros q n H. exists n. repeat split; [exact H|].
  exists []. now rewrite app_nil_r.
Qed.

Lemma Grows_trans f1 f2 f3 : Grows f1 f2 -> Grows f2 f3 -> Grows f1 f3.
Proof.
  intros H12 H23 q n H.
  destruct (H12 q n H) as (n2 & Hq2 & Hid2 & more2 & Hr2).
  destruct (H23 q n2 Hq2) as (n3 & Hq3 & Hid3 & more3 & Hr3).
  exists n3. split; [exact Hq3|]. split; [congruence|].
  exists (more2 ++ more3). now rewrite Hr3, Hr2, app_assoc.
Qed.

Lemma updateAt_Grows extra ref forest :
  Grows forest (updateAt ref (appendRels extra) forest).
Proof.
  intros q n H.
  destruct (nodeAt_updateAt extra q ref forest n H) as (n' & H1 & H2 & H3 & _).
  now exists n'.
Qed.

Lemma nodeAt_updateAt_same f ref :
  forall forest n,
    nodeAt ref forest = Some n ->
    nodeAt ref (updateAt ref f forest) = Some (f n).
Proof.
  induction ref as [|i rest IH]; intros forest n H; [discriminate|].
  simpl in *.
  destruct (nth_error forest i) as [ni|] eqn:Ei; [|discriminate].
  destruct rest as [|j rest'].
  - injection H as <-. now rewrite (nth_error_setIndex_eq _ _ _ _ Ei).
  - destruct (children ni) as [cs|] eqn:Ec.
    + rewrite (nth_error_setIndex_eq _ _ _ _ Ei). simpl.
      apply IH. exact H.
    + simpl in H. now destruct j.
Qed.

Lemma hasEdgeTo_appendRels extra n x :
  hasEdgeTo (relationships (appendRels extra n)) x
  = hasEdgeTo (relationships n) x || existsb (fun r => targetId r =? x) extra.
Proof. unfold hasEdgeTo, appendRels; simpl. apply existsb_app. Qed.

Lemma appendRels_twice e1 e2 n :
  appendRels e2 (appendRels e1 n) = appendRels (e1 ++ e2) n.
Proof. destruct n; unfold appendRels; simpl. now rewrite app_assoc. Qed.

(** The loop body of [processRelationships] with the three mutations
    written as [appendRels]. *)
Lemma processRelationship_eq nodeMap forest rel :
  processRelationship nodeMap forest rel =
  match mapGet (end1Id rel) nodeMap, mapGet (end2Id rel) nodeMap with
  | Some sourceNode, Some targetNode =>
      let forest2 :=
        updateAt targetNode (appendRels [])
                 (updateAt sourceNode (appendRels [forwardOf rel]) forest) in
      if match nodeAt targetNode forest2 with
         | Some t => hasEdgeTo (relationships t) (end1Id rel)
         | None => false
         end
      then forest2
      else updateAt targetNode (appendRels [reverseOf rel]) forest2
  | _, _ => forest
  end.
Proof.
  unfold processRelationship.
  destruct (mapGet (end1Id rel) nodeMap) as [sRef|]; [|reflexivity].
  destruct (mapGet (end2Id rel) nodeMap) as [tRef|]; [|reflexivity].
  rewrite (updateAt_ext _ (appendRels [forwardOf rel]) sRef
             (push_init_appendRels (forwardOf rel))).
  rewrite (updateAt_ext _ (appendRels []) tRef initRelationships_appendRels).
  reflexivity.
Qed.

Lemma processRelationship_Grows nodeMap forest rel :
  Grows forest (processRelationship nodeMap forest rel).
Proof.
  rewrite processRelationship_eq.
  destruct (mapGet (end1Id rel) nodeMap) as [sRef|]; [|apply Grows_refl].
  destruct (mapGet (end2Id rel) nodeMap) as [tRef|]; [|apply Grows_refl].
  cbv zeta.
  assert (H2 : Grows forest
                 (updateAt tRef (appendRels [])
                    (updateAt sRef (appendRels [forwardOf rel]) forest))).
  { eapply Grows_trans; apply updateAt_Grows. }
  match goal with |- context [if ?b then _ else _] => destruct b end;
    [exact H2|].
  eapply Grows_trans; [exact H2|apply updateAt_Grows].
Qed.

Lemma fold_processRelationship_Grows nodeMap rels :
  forall forest,
    Grows forest (fold_left (processRelationship nodeMap) rels forest).
Proof.
  induction rels as [|rel rels IH]; intros forest; simpl; [apply Grows_refl|].
  eapply Grows_trans; [apply processRelationship_Grows|apply IH].
Qed.

(** One record whose two ends resolve: what the target holds afterwards,
    by whether it already had an edge back to the source when the forward
    edge had been pushed. *)
Lemma processRelationship_target nodeMap forest rel sRef tRef t :
  mapGet (end1Id rel) nodeMap = Some sRef ->
  mapGet (end2Id rel) nodeMap = Some tRef ->
  nodeAt tRef (updateAt sRef (appendRels [forwardOf rel]) forest) = Some t ->
  nodeAt tRef (processRelationship nodeMap forest rel)
  = Some (if hasEdgeTo (relationships t) (end1Id rel)
          then appendRels [] t
          else appendRels [reverseOf rel] t).
Proof.
  intros Hs Ht Hn. rewrite processRelationship_eq, Hs, Ht. cbv zeta.
  rewrite (nodeAt_updateAt_same (appendRels []) tRef _ t Hn).
  rewrite hasEdgeTo_appendRels. simpl existsb. rewrite orb_false_r.
  destruct (hasEdgeTo (relationships t) (end1Id rel)).
  - exact (nodeAt_updateAt_same (appendRels []) tRef _ t Hn).
  - rewrite (nodeAt_updateAt_same (appendRels [reverseOf rel]) tRef _ _
               (nodeAt_updateAt_same (appendRels []) tRef _ t Hn)).
    now rewrite appendRels_twice.
Qed.

Lemma hasEdgeTo_grows n n' more x :
  orEmpty (relationships n') = orEmpty (relationships n) ++ more ->
  hasEdgeTo (relationships n) x = true ->
  hasEdgeTo (relationships n') x = true.
Proof.
  unfold hasEdgeTo. intros -> H. now rewrite existsb_app, H.
Qed.

Lemma In_grows (r : NodeRelationship) n n' more :
  orEmpty (relationships n') = orEmpty (relationships n) ++ more ->
  In r (orEmpty (relationships n)) -> In r (orEmpty (relationships n')).
Proof. intros -> H. apply in_or_app. now left. Qed.

(** One record whose two ends resolve leaves the forward edge on the
    source and an edge back to the source on the target. *)
Lemma processRelationship_links nodeMap forest rel sRef tRef s t :
  mapGet (end1Id rel) nodeMap = Some sRef ->
  mapGet (end2Id rel) nodeMap = Some tRef ->
  nodeAt sRef forest = Some s ->
  nodeAt tRef forest = Some t ->
  exists s' t',
    nodeAt sRef (processRelationship nodeMap forest rel) = Some s'
    /\ nodeAt tRef (processRelationship nodeMap forest rel) = Some t'
    /\ In (forwardOf rel) (orEmpty (relationships s'))
    /\ hasEdgeTo (relationships t') (end1Id rel) = true.
Proof.
  intros Hs Ht Hsn Htn.
  (* after the forward push *)
  destruct (nodeAt_updateAt [forwardOf rel] sRef sRef forest s Hsn)
    as (s1 & Hs1 & _ & _ & Hr1).
  specialize (Hr1 eq_refl).
  destruct (updateAt_Grows [forwardOf rel] sRef forest tRef t Htn)
    as (t1 & Ht1 & _ & _).
  (* the target *)
  pose proof (processRelationship_target nodeMap forest rel sRef tRef t1 Hs Ht Ht1)
    as Htarget.
  (* the source, through the rest of the body *)
  assert (Hrest : Grows (updateAt sRef (appendRels [forwardOf rel]) forest)
                        (processRelationship nodeMap forest rel)).
  { rewrite processRelationship_eq, Hs, Ht. cbv zeta.
    match goal with |- context [if ?b then _ else _] => destruct b end.
    - apply updateAt_Grows.
    - eapply Grows_trans; apply updateAt_Grows. }
  destruct (Hrest sRef s1 Hs1) as (s' & Hs' & _ & more & Hmore).
  exists s'. eexists. split; [exact Hs'|]. split; [exact Htarget|]. split.
  - eapply In_grows; [exact Hmore|]. rewrite Hr1. simpl.
    apply in_or_app. right. now left.
  - destruct (hasEdgeTo (relationships t1) (end1Id rel)) eqn:E.
    + rewrite hasEdgeTo_appendRels, E. reflexivity.
    + rewrite hasEdgeTo_appendRels, E. simpl. now rewrite String.eqb_refl.
Qed.

(** After [processRelationships], every record whose two ends resolve has
    its forward edge on the source and an edge back on the target. *)
Lemma processRelationships_links nodeMap rels :
  forall forest,
    (forall k ref, mapGet k nodeMap = Some ref ->
                   exists n, nodeAt ref forest = Some n /\ id n = k) ->
    forall rel sRef tRef,
      In rel rels ->
      mapGet (end1Id rel) nodeMap = Some sRef ->
      mapGet (end2Id rel) nodeMap = Some tRef ->
      exists s t,
        nodeAt sRef (fold_left (processRelationship nodeMap) rels forest) = Some s
        /\ nodeAt tRef (fold_left (processRelationship nodeMap) rels forest) = Some t
        /\ id s = end1Id rel /\ id t = end2Id rel
        /\ In (forwardOf rel) (orEmpty (relationships s))
        /\ hasEdgeTo (relationships t) (end1Id rel) = true.
Proof.
  induction rels as [|r0 rels IH]; intros forest Hvalid rel sRef tRef Hin Hs Ht;
    [contradiction|].
  simpl. destruct Hin as [->|Hin].
  - destruct (Hvalid _ _ Hs) as (s0 & Hs0 & Hids).
    destruct (Hvalid _ _ Ht) as (t0 & Ht0 & Hidt).
    destruct (processRelationship_links nodeMap forest rel sRef tRef s0 t0
                Hs Ht Hs0 Ht0) as (s1 & t1 & Hs1 & Ht1 & Hfwd & Hback).
    pose proof (processRelationship_Grows nodeMap forest rel) as Hstep.
    destruct (Hstep sRef s0 Hs0) as (s1' & Hs1' & Hids1 & _).
    destruct (Hstep tRef t0 Ht0) as (t1' & Ht1' & Hidt1 & _).
    rewrite Hs1 in Hs1'. injection Hs1' as <-.
    rewrite Ht1 in Ht1'. injection Ht1' as <-.
    pose proof (fold_processRelationship_Grows nodeMap rels
                  (processRelationship nodeMap forest rel)) as Hfold.
    destruct (Hfold sRef s1 Hs1) as (s2 & Hs2 & Hids2 & ms & Hms).
    destruct (Hfold tRef t1 Ht1) as (t2 & Ht2 & Hidt2 & mt & Hmt).
    exists s2, t2. repeat split; try assumption; try congruence.
    + eapply In_grows; eauto.
    + eapply hasEdgeTo_grows; eauto.
  - apply IH; try assumption.
    intros k ref Hk. destruct (Hvalid k ref Hk) as (n & Hn & Hid).
    destruct (processRelationship_Grows nodeMap forest r0 ref n Hn)
      as (n' & Hn' & Hid' & _).
    exists n'. split; [exact Hn'|congruence].
Qed.

(* ------------------------------------------------------------------ *)
(** ** Forward and reverse edges *)

(** C3, as stated, fails for [createLink]: the link from [a] to [b] is
    created, [a] holds the forward edge and [b] holds no edge at all. *)
Lemma createLink_stores_no_reverse_edge :
  fst (createLink sampleId "b" (Some "Depends on") linkingStore) = true
  /\ map (fun n => (id n, relationships n))
         (treeData (snd (createLink sampleId "b" (Some "Depends on") linkingStore)))
     = [("a", Some [mkRel "id-0" "b" (Some "Depends on")]); ("b", None)].
Proof. split; reflexivity. Qed.

(** C3 (amended).  A successful [createLink] appends the forward edge to
    the relationships of the source node and changes the relationships of
    no other node: it stores no reverse edge.  The reverse edge is stored by
    the import: after [processRelationships], every record whose two ends
    resolve has its forward edge on the source node and an edge that
    targets the source on the target node; and in the step that processes
    such a record the target receives the reverse edge exactly when, the
    forward edge pushed, it has no edge that targets the source. *)
Theorem link_creation_edges :
  (forall (genLinkId : nat -> string) target lbl st st',
      createLink genLinkId target lbl st = (true, st') ->
      exists src sourceNode,
        linkSourceId st = Some src
        /\ src <> target
        /\ findNodeById src (treeData st) = Some sourceNode
        /\ option_map relationships (findNodeById src (treeData st'))
           = Some (Some (orEmpty (relationships sourceNode)
                         ++ [mkRel (genLinkId (nextId st)) target lbl]))
        /\ forall x, x <> src ->
             option_map relationships (findNodeById x (treeData st'))
             = option_map relationships (findNodeById x (treeData st)))
  /\ (forall nodes rels rel sourceRef targetRef,
         In rel rels ->
         mapGet (end1Id rel) (buildNodeIdMap nodes) = Some sourceRef ->
         mapGet (end2Id rel) (buildNodeIdMap nodes) = Some targetRef ->
         exists s t,
           nodeAt sourceRef (processRelationships nodes rels) = Some s
           /\ nodeAt targetRef (processRelationships nodes rels) = Some t
           /\ id s = end1Id rel /\ id t = end2Id rel
           /\ In (forwardOf rel) (orEmpty (relationships s))
           /\ hasEdgeTo (relationships t) (end1Id rel) = true)
  /\ (forall nodeMap forest rel sourceRef targetRef t,
         mapGet (end1Id rel) nodeMap = Some sourceRef ->
         mapGet (end2Id rel) nodeMap = Some targetRef ->
         nodeAt targetRef (updateAt sourceRef (appendRels [forwardOf rel]) forest)
         = Some t ->
         nodeAt targetRef (processRelationship nodeMap forest rel)
         = Some (if hasEdgeTo (relationships t) (end1Id rel)
                 then appendRels [] t
                 else appendRels [reverseOf rel] t)).
Proof.
  split; [|split].
  - intros genLinkId target lbl st st' H. unfold createLink in H.
    destruct (linkSourceId st) as [src|] eqn:Esrc; [|discriminate].
    destruct (src =? "") eqn:E0; [discriminate|].
    destruct (src =? target) eqn:E1; [discriminate|]. simpl in H.
    destruct (findNodeById src (treeData st)) as [sourceNode|] eqn:Ef;
      [|discriminate].
    destruct (hasEdgeTo (relationships sourceNode) target); [discriminate|].
    injection H as <-. simpl. unfold deepClone.
    exists src, sourceNode.
    split; [first [reflexivity|assumption]|].
    split; [now apply String.eqb_neq|].
    split; [first [reflexivity|assumption]|]. split.
    + rewrite linkUpdate_source, Ef. reflexivity.
    + intros x Hx. now apply linkUpdate_other.
  - intros nodes rels rel sourceRef targetRef Hin Hs Ht.
    unfold processRelationships.
    apply processRelationships_links; try assumption.
    intros k ref Hk. apply (buildNodeIdMap_valid nodes), mapGet_In, Hk.
  - intros nodeMap forest rel sourceRef targetRef t.
    apply processRelationship_target.
Qed.

Lemma link_creation_edges_example :
  (exists src sourceNode,
      linkSourceId linkingStore = Some src
      /\ src <> "b"
      /\ findNodeById src (treeData linkingStore) = Some sourceNode
      /\ option_map relationships
           (findNodeById src
              (treeData (snd (createLink sampleId "b" None linkingStore))))
         = Some (Some (orEmpty (relationships sourceNode)
                       ++ [mkRel (sampleId (nextId linkingStore)) "b" None]))
      /\ forall x, x <> src ->
           option_map relationships
             (findNodeById x
                (treeData (snd (createLink sampleId "b" None linkingStore))))
           = option_map relationships (findNodeById x (treeData linkingStore)))
  /\ (exists s t,
         nodeAt [0%nat]
           (processRelationships [leaf "a" "A"; leaf "b" "B"]
                                 [mkXRel "r1" "a" "b" (Some "feeds") None]) = Some s
         /\ nodeAt [1%nat]
              (processRelationships [leaf "a" "A"; leaf "b" "B"]
                                    [mkXRel "r1" "a" "b" (Some "feeds") None]) = Some t
         /\ id s = "a" /\ id t = "b"
         /\ In (forwardOf (mkXRel "r1" "a" "b" (Some "feeds") None))
               (orEmpty (relationships s))
         /\ hasEdgeTo (relationships t) "a" = true).
Proof.
  split.
  - exact (proj1 link_creation_edges sampleId "b" None linkingStore
             (snd (createLink sampleId "b" None linkingStore)) eq_refl).
  - exact (proj1 (proj2 link_creation_edges)
             [leaf "a" "A"; leaf "b" "B"]
             [mkXRel "r1" "a" "b" (Some "feeds") None]
             (mkXRel "r1" "a" "b" (Some "feeds") None) [0%nat] [1%nat]
             (or_introl eq_refl) eq_refl eq_refl).
Defined.

(* ------------------------------------------------------------------ *)
(** ** Export to XMind and back *)

Lemma filterMapWith_eq {A B : Type} (p : A -> bool) (f : A -> B) l :
  filterMapWith p f l = map f (filter p l).
Proof.
  induction l as [|c l IH]; simpl; [reflexivity|].
  destruct (p c); simpl; now rewrite IH.
Qed.

Lemma kpiNodeToXMindTopic_eq node :
  kpiNodeToXMindTopic node =
  let title := joinTitle (name node) (unit node) in
  let att := filter notDetached (orEmpty (children node)) in
  let det := filter isDetachedNode (orEmpty (children node)) in
  mkTopic (id node)
          (Some (if truthyBool (isDetached node) then "importantTopic" else "topic"))
          title (Some [mkTitleRun title]) (position node)
          (match markers node with
           | Some ms => if nonEmpty ms then Some (map mkMarkerRef ms) else None
           | None => None
           end)
          (if nonEmpty att || nonEmpty det
           then Some (if nonEmpty att then Some (map kpiNodeToXMindTopic att) else None,
                      if nonEmpty det then Some (map kpiNodeToXMindTopic det) else None)
           else None)
          None.
Proof.
  destruct node as [i nm ic u e s c ch d r m p]; simpl.
  destruct ch as [cs|]; simpl; [|reflexivity].
  now rewrite !filterMapWith_eq.
Qed.

Lemma xmindTopicToKPINode_eq topic isDet :
  xmindTopicToKPINode topic isDet =
  let kids :=
    map (fun child => xmindTopicToKPINode child false) (orEmpty (attached topic))
    ++ map (fun t => markSummary (xmindTopicToKPINode t false))
           (orEmpty (topic_summary topic)) in
  mkKPINode (topic_id topic) (fst (splitTitle (topicTitle topic))) None
            (snd (splitTitle (topicTitle topic))) None None None
            (if nonEmpty kids then Some kids else None)
            (Some isDet) None
            (match topic_markers topic with
             | Some ms => if nonEmpty ms then Some (map markerId ms) else None
             | None => None
             end)
            (topic_position topic).
Proof.
  destruct topic as [i c t at_ p m ch sm]; simpl.
  destruct (splitTitle _) as [nm u]; simpl.
  destruct ch as [[[att|] det]|], sm as [sm|]; reflexivity.
Qed.

Lemma topicTitle_export node :
  topicTitle (kpiNodeToXMindTopic node) = joinTitle (name node) (unit node).
Proof.
  rewrite kpiNodeToXMindTopic_eq. unfold topicTitle; simpl.
  unfold joinRuns; simpl. reflexivity.
Qed.

Lemma attached_export node :
  orEmpty (attached (kpiNodeToXMindTopic node))
  = map kpiNodeToXMindTopic (filter notDetached (orEmpty (children node))).
Proof.
  rewrite kpiNodeToXMindTopic_eq. unfold attached; simpl.
  destruct (filter notDetached (orEmpty (children node))) as [|a att]; simpl.
  - now destruct (nonEmpty (filter isDetachedNode (orEmpty (children node)))).
  - reflexivity.
Qed.

(** What comes back for an exported node: its identifier, the name and
    unit parsed out of the joined title, and its attached children. *)
Lemma reimported_fields isDet n :
  id (reimported isDet n) = id n
  /\ (name (reimported isDet n), unit (reimported isDet n))
     = splitTitle (joinTitle (name n) (unit n))
  /\ orEmpty (children (reimported isDet n))
     = map (reimported false) (filter notDetached (orEmpty (children n))).
Proof.
  unfold reimported. rewrite xmindTopicToKPINode_eq.
  rewrite topicTitle_export, attached_export. cbv zeta. simpl.
  split; [now rewrite kpiNodeToXMindTopic_eq|].
  split; [now destruct (splitTitle _)|].
  replace (topic_summary (kpiNodeToXMindTopic n)) with (@None (list XMindTopic))
    by now rewrite kpiNodeToXMindTopic_eq.
  simpl. rewrite app_nil_r, map_map.
  now destruct (map _ _).
Qed.

(** The root topic of the first sheet with the detached top-level nodes
    hung on it reads back as the root topic alone does. *)
Lemma xmindTopicToKPINode_rehung topic ds isDet :
  xmindTopicToKPINode
    (mkTopic (topic_id topic) (topic_class topic) (topic_title topic)
             (topic_attributedTitle topic) (topic_position topic)
             (topic_markers topic) (Some (attached topic, ds))
             (topic_summary topic)) isDet
  = xmindTopicToKPINode topic isDet.
Proof. now rewrite !xmindTopicToKPINode_eq. Qed.

Lemma In_forestNodes_top n forest : In n forest -> In n (forestNodes forest).
Proof.
  intros H. apply in_flat_map. exists n. split; [exact H|].
  rewrite nodesOf_eq. now left.
Qed.

Lemma In_nodesOf_child q :
  forall p c, In p (nodesOf q) -> In c (orEmpty (children p)) -> In c (nodesOf q).
Proof.
  induction q as [q IH] using KPINode_nested_ind.
  intros p c Hp Hc. rewrite nodesOf_eq in Hp |- *.
  destruct Hp as [<-|Hp].
  - right. now apply In_forestNodes_top.
  - right. destruct (children q) as [cs|]; [|contradiction].
    specialize (IH cs eq_refl). simpl in *.
    apply in_flat_map in Hp as (q' & Hq' & Hp).
    apply in_flat_map. exists q'. split; [exact Hq'|].
    rewrite Forall_forall in IH. now apply (IH q' Hq' p c).
Qed.

Lemma In_forestNodes_child forest p c :
  In p (forestNodes forest) -> In c (orEmpty (children p)) ->
  In c (forestNodes forest).
Proof.
  intros Hp Hc. apply in_flat_map in Hp as (q & Hq & Hp).
  apply in_flat_map. exists q. split; [exact Hq|].
  now apply In_nodesOf_child with p.
Qed.

Lemma processRelationships_info nodes rels :
  map nodeInfo (forestNodes (processRelationships nodes rels))
  = map nodeInfo (forestNodes nodes).
Proof.
  unfold processRelationships. generalize (buildNodeIdMap nodes) as nodeMap.
  intros nodeMap. generalize nodes as forest.
  induction rels as [|rel rels IH]; intros forest; simpl; [reflexivity|].
  rewrite IH, processRelationship_eq.
  destruct (mapGet (end1Id rel) nodeMap) as [sRef|]; [|reflexivity].
  destruct (mapGet (end2Id rel) nodeMap) as [tRef|]; [|reflexivity].
  cbv zeta.
  match goal with |- context [if ?b then _ else _] => destruct b end;
    now rewrite !updateAt_info.
Qed.

Section RoundTrip.

Variable genXMindId : nat -> string.

Lemma exportSheets_with_root data r0 roots :
  filter notDetached data = r0 :: roots ->
  exportSheets genXMindId data
  = mapi (sheetOfRoot genXMindId data (filter isDetachedNode data)) 0 (r0 :: roots).
Proof. intros E. unfold exportSheets. now rewrite E. Qed.

Lemma sheetNodes_sheetOfRoot data dets index rootNode :
  In (reimported false rootNode)
     (sheetNodes (sheetOfRoot genXMindId data dets index rootNode)).
Proof.
  left. unfold sheetOfRoot, reimported; simpl.
  destruct ((index =? 0)%nat && nonEmpty dets); [|reflexivity].
  apply xmindTopicToKPINode_rehung.
Qed.

Lemma top_level_reimported data n :
  In n data ->
  exists isDet,
    In (reimported isDet n) (flat_map sheetNodes (exportSheets genXMindId data)).
Proof.
  intros Hn.
  destruct (notDetached n) eqn:En.
  - (* an attached root: the root topic of its own sheet *)
    exists false.
    assert (Hroot : In n (filter notDetached data)) by now apply filter_In.
    destruct (In_nth_error _ _ Hroot) as [i Hi].
    destruct (filter notDetached data) as [|r0 roots] eqn:E; [contradiction|].
    rewrite (exportSheets_with_root data r0 roots E).
    apply in_flat_map.
    exists (sheetOfRoot genXMindId data (filter isDetachedNode data) i n).
    split; [|apply sheetNodes_sheetOfRoot].
    apply nth_error_In with i. now rewrite nth_error_mapi, Hi.
  - (* a detached top-level node: in the detached group of the first sheet *)
    exists true.
    assert (Hdet : In n (filter isDetachedNode data)).
    { apply filter_In. split; [exact Hn|].
      unfold notDetached in En. unfold isDetachedNode.
      now destruct (truthyBool (isDetached n)). }
    assert (Hne : nonEmpty (filter isDetachedNode data) = true).
    { now destruct (filter isDetachedNode data). }
    assert (Hin : In (reimported true n)
                     (map (fun d => xmindTopicToKPINode d true)
                          (map kpiNodeToXMindTopic (filter isDetachedNode data)))).
    { rewrite map_map. now apply (in_map (reimported true)). }
    destruct (filter notDetached data) as [|r0 roots] eqn:E.
    + unfold exportSheets. rewrite E, Hne. simpl. right. rewrite app_nil_r.
      exact Hin.
    + rewrite (exportSheets_with_root data r0 roots E).
      cbn [mapi flat_map]. apply in_or_app. left.
      unfold sheetNodes. right.
      unfold sheetOfRoot. cbn [rootTopic]. rewrite Hne.
      cbn [Nat.eqb andb detached topic_children]. exact Hin.
Qed.

(** Every kept node is in the forest read back from the sheets. *)
Lemma kept_reimported data n :
  Kept data n ->
  exists isDet,
    In (reimported isDet n)
       (forestNodes (flat_map sheetNodes (exportSheets genXMindId data))).
Proof.
  induction 1 as [n Hn|p cs c _ [isDet IH] Hcs Hc Hatt].
  - destruct (top_level_reimported data n Hn) as [isDet H].
    exists isDet. now apply In_forestNodes_top.
  - exists false. apply In_forestNodes_child with (reimported isDet p);
      [exact IH|].
    destruct (reimported_fields isDet p) as (_ & _ & ->).
    rewrite Hcs. simpl. apply in_map. now apply filter_In.
Qed.

(** C6 (amended): when a forest has a node with name ["Revenue"] and unit
    ["$"] that is kept by the codec, a top-level node or a node reached from
    one through children that are not detached, exporting the forest to the
    XMind container and importing the container yields a forest with a node
    of the same identifier, name ["Revenue"] and unit ["$"]; the split of
    the title inverts the join of this name and unit. *)
Theorem xmind_roundtrip_keeps_revenue_unit :
  forall data n,
    Kept data n -> name n = "Revenue" -> unit n = Some "$" ->
    splitTitle (joinTitle (name n) (unit n)) = ("Revenue", Some "$")
    /\ exists nodes n',
         importFromXMind (exportToXMind genXMindId data) = Imported nodes
         /\ In n' (forestNodes nodes)
         /\ id n' = id n /\ name n' = "Revenue" /\ unit n' = Some "$".
Proof.
  intros data n Hkept Hname Hunit.
  assert (Hsplit : splitTitle (joinTitle (name n) (unit n)) = ("Revenue", Some "$"))
    by now rewrite Hname, Hunit.
  split; [exact Hsplit|].
  destruct (kept_reimported data n Hkept) as [isDet Hin].
  destruct (reimported_fields isDet n) as (Hid & Hnu & _).
  rewrite Hsplit in Hnu. injection Hnu as Hn' Hu'.
  unfold importFromXMind, exportToXMind. cbn [content_json]. cbv zeta.
  destruct (nonEmpty
              (flat_map (fun sheet => orEmpty (sheet_relationships sheet))
                        (exportSheets genXMindId data))).
  - eexists.
    pose proof (processRelationships_info
                  (flat_map sheetNodes (exportSheets genXMindId data))
                  (flat_map (fun sheet => orEmpty (sheet_relationships sheet))
                            (exportSheets genXMindId data))) as Hinfo.
    apply (in_map nodeInfo) in Hin. rewrite <- Hinfo in Hin.
    apply in_map_iff in Hin as (n' & Hn'info & Hn'in).
    exists n'. split; [reflexivity|]. split; [exact Hn'in|].
    unfold nodeInfo in Hn'info. injection Hn'info as E1 E2 E3.
    repeat split; congruence.
  - eexists. exists (reimported isDet n).
    split; [reflexivity|]. split; [exact Hin|]. now repeat split.
Qed.

End RoundTrip.

(** C6, as stated, fails for a node in a detached group below the top
    level: the group is written to its parent's topic and is not read
    back. *)
Lemma nested_detached_node_is_not_imported :
  map nodeInfo (forestNodes deepDetachedForest)
  = [("r", "r", None); ("m", "m", None); ("a", "Revenue", Some "$")]
  /\ exists nodes,
       importFromXMind (exportToXMind sampleId deepDetachedForest) = Imported nodes
       /\ map nodeInfo (forestNodes nodes) = [("r", "r", None); ("m", "m", None)].
Proof. split; [reflexivity|]. eexists. split; reflexivity. Qed.

Lemma xmind_roundtrip_revenue_example :
  Kept [revenueNode] revenueNode
  /\ splitTitle (joinTitle (name revenueNode) (unit revenueNode))
     = ("Revenue", Some "$")
  /\ exists nodes n',
       importFromXMind (exportToXMind sampleId [revenueNode]) = Imported nodes
       /\ In n' (forestNodes nodes)
       /\ id n' = id revenueNode /\ name n' = "Revenue" /\ unit n' = Some "$".
Proof.
  split; [apply Kept_top; now left|].
  exact (xmind_roundtrip_keeps_revenue_unit sampleId [revenueNode] revenueNode
           (Kept_top [revenueNode] revenueNode (or_introl eq_refl))
           eq_refl eq_refl).
Defined.

(* ================================================================== *)
(** * Further properties of the tree store *)

(** ** Lookups *)

(** X1: [findNodeById] answers with a node of the forest that carries the
    identifier, and answers [null] only when no node of the forest, at any
    depth, carries it. *)
Theorem findNodeById_sound_and_complete :
  forall target forest,
    match findNodeById target forest with
    | Some n => id n = target /\ In n (forestNodes forest)
    | None => forall n, In n (forestNodes forest) -> id n <> target
    end.
Proof.
  intros target forest. rewrite findNodeById_find.
  destruct (find (fun n => id n =? target) (forestNodes forest)) as [n|] eqn:E.
  - apply find_some in E as [Hin Hid]. split; [now apply String.eqb_eq|exact Hin].
  - intros n Hin. apply String.eqb_neq. exact (find_none _ _ E n Hin).
Qed.

Lemma findParentOfNode_sound_gen nodeId :
  forall l parent p,
    Forall (fun n => forall parent p,
                findParentIn nodeId parent n = Some (Some p) ->
                (parent = Some p /\ id n = nodeId)
                \/ (In p (nodesOf n)
                    /\ exists c, In c (orEmpty (children p)) /\ id c = nodeId)) l ->
    findParentOfNode nodeId l parent = Some p ->
    (parent = Some p /\ exists c, In c l /\ id c = nodeId)
    \/ (In p (forestNodes l)
        /\ exists c, In c (orEmpty (children p)) /\ id c = nodeId).
Proof.
  intros l parent p Hall. revert parent p.
  induction Hall as [|n l Hn _ IH]; intros parent p H; simpl in H; [discriminate|].
  destruct (findParentIn nodeId parent n) as [res|] eqn:E.
  - subst res. destruct (Hn parent p E) as [[Hp Hid]|[Hin Hc]].
    + left. split; [exact Hp|]. exists n. split; [now left|exact Hid].
    + right. split; [|exact Hc]. simpl. apply in_or_app. now left.
  - destruct (IH parent p H) as [[Hp (c & Hc & Hid)]|[Hin Hc]].
    + left. split; [exact Hp|]. exists c. split; [now right|exact Hid].
    + right. split; [|exact Hc]. simpl. apply in_or_app. now right.
Qed.

Lemma findParentIn_sound nodeId n :
  forall parent p,
    findParentIn nodeId parent n = Some (Some p) ->
    (parent = Some p /\ id n = nodeId)
    \/ (In p (nodesOf n)
        /\ exists c, In c (orEmpty (children p)) /\ id c = nodeId).
Proof.
  induction n as [n IH] using KPINode_nested_ind.
  intros parent p H. rewrite findParentIn_eq in H.
  destruct (id n =? nodeId) eqn:E.
  - left. split; [congruence|now apply String.eqb_eq].
  - destruct (children n) as [cs|] eqn:Ec; [|discriminate].
    injection H as H.
    destruct (findParentOfNode_sound_gen nodeId cs (Some n) p (IH cs eq_refl) H)
      as [[Hp Hc]|[Hin Hc]].
    + injection Hp as <-. right. split.
      * rewrite nodesOf_eq. now left.
      * now rewrite Ec.
    + right. split; [|exact Hc]. rewrite nodesOf_eq, Ec. now right.
Qed.

(** X2: when [findParentOfNode] answers with a node, that node is a node
    of the forest and one of its children carries the identifier asked for:
    the answer is never a wrong parent. *)
Theorem findParentOfNode_answer_is_a_parent :
  forall nodeId forest p,
    findParentOfNode nodeId forest None = Some p ->
    In p (forestNodes forest)
    /\ exists c, In c (orEmpty (children p)) /\ id c = nodeId.
Proof.
  intros nodeId forest p H.
  destruct (findParentOfNode_sound_gen nodeId forest None p) as [[Hp _]|Hr];
    [|exact H|discriminate|exact Hr].
  apply Forall_forall. intros n _. apply findParentIn_sound.
Qed.

Lemma findParentOfNode_answer_example :
  findParentOfNode "y" parentExample None = Some (branch "a" [leaf "y" "Y"])
  /\ In (branch "a" [leaf "y" "Y"]) (forestNodes parentExample)
  /\ exists c, In c (orEmpty (children (branch "a" [leaf "y" "Y"]))) /\ id c = "y".
Proof.
  split; [reflexivity|].
  exact (findParentOfNode_answer_is_a_parent "y" parentExample
           (branch "a" [leaf "y" "Y"]) eq_refl).
Defined.

(** ** Validation of moves *)

Lemma isMoveValid_root_source sourceNode targetNode :
  inferCategory sourceNode = root ->
  valid (isMoveValid sourceNode targetNode) = false.
Proof. intros H. unfold isMoveValid. now rewrite H. Qed.

(** X3: a node whose category is [root] is never moved: whatever the
    target, [validateMove] rejects and [moveNode] leaves the forest as it
    is. *)
Theorem root_category_node_is_immovable :
  forall st nodeId sourceNode targetParentId,
    findNodeById nodeId (treeData st) = Some sourceNode ->
    inferCategory sourceNode = root ->
    valid (validateMove (treeData st) nodeId targetParentId) = false
    /\ valid (fst (moveNode nodeId targetParentId st)) = false
    /\ treeData (snd (moveNode nodeId targetParentId st)) = treeData st.
Proof.
  intros st nodeId sourceNode targetParentId Hf Hroot.
  assert (Hv : valid (validateMove (treeData st) nodeId targetParentId) = false).
  { unfold validateMove. rewrite Hf.
    destruct (match targetParentId with Some t => nodeId =? t | None => false end);
      [reflexivity|].
    destruct (namesNode targetParentId && _); [reflexivity|].
    now apply isMoveValid_root_source. }
  split; [exact Hv|].
  unfold moveNode. rewrite Hv. simpl. now split.
Qed.

Lemma root_category_node_is_immovable_example :
  findNodeById "ebitda-root" (treeData (emptyStore ebitdaForest))
  = Some (branch "ebitda-root" [leaf "production-revenue" "Production (Revenue)"])
  /\ valid (validateMove (treeData (emptyStore ebitdaForest)) "ebitda-root" None) = false
  /\ valid (fst (moveNode "ebitda-root" None (emptyStore ebitdaForest))) = false
  /\ treeData (snd (moveNode "ebitda-root" None (emptyStore ebitdaForest)))
     = treeData (emptyStore ebitdaForest).
Proof.
  split; [reflexivity|].
  exact (root_category_node_is_immovable (emptyStore ebitdaForest) "ebitda-root"
           (branch "ebitda-root" [leaf "production-revenue" "Production (Revenue)"])
           None eq_refl eq_refl).
Defined.

Lemma validateMove_valid_inv :
  forall forest nodeId targetParentId,
    valid (validateMove forest nodeId targetParentId) = true ->
    exists sourceNode,
      findNodeById nodeId forest = Some sourceNode
      /\ targetParentId <> Some nodeId
      /\ inferCategory sourceNode <> root
      /\ (forall t, targetParentId = Some t -> namesNode targetParentId = true ->
                    forall d, In d (nodesOf sourceNode) -> id d <> t)
      /\ isLegalParent (inferCategory sourceNode)
                       (targetCategoryOf forest targetParentId) = true.
Proof.
  intros forest nodeId targetParentId H. unfold validateMove in H.
  destruct (match targetParentId with Some t => nodeId =? t | None => false end)
    eqn:Eself; [discriminate|].
  destruct (findNodeById nodeId forest) as [sourceNode|] eqn:Ef; [|discriminate].
  exists sourceNode. split; [reflexivity|].
  split.
  { intros ->. now rewrite String.eqb_refl in Eself. }
  destruct (namesNode targetParentId && _) eqn:Edesc; [discriminate|].
  assert (Hcat : inferCategory sourceNode <> root).
  { intros Hr. now rewrite (isMoveValid_root_source _ _ Hr) in H. }
  split; [exact Hcat|]. split.
  - intros t -> Hn d Hd Hid. rewrite Hn in Edesc. simpl in Edesc.
    unfold isDescendant in Edesc. rewrite Ef, checkDescendants_existsb in Edesc.
    assert (Hex : existsb (fun m => id m =? t) (nodesOf sourceNode) = true).
    { apply existsb_exists. exists d. split; [exact Hd|now apply String.eqb_eq]. }
    congruence.
  - unfold targetCategoryOf, isLegalParent.
    unfold isMoveValid in H.
    destruct (NodeCategory_eqb (inferCategory sourceNode) root); [discriminate|].
    destruct (if namesNode targetParentId
              then match targetParentId with
                   | Some t => findNodeById t forest
                   | None => None
                   end
              else None) as [targetNode|].
    + destruct (includesCat _ (inferCategory targetNode)); [reflexivity|discriminate].
    + destruct (includesCat _ root); [reflexivity|discriminate].
Qed.

(** X4: whenever [validateMove] accepts, the source exists, is not the
    target, is not of category [root], the target, if it names a node, is
    not in the subtree of the source, and the category the target resolves
    to is in the table's list for the category of the source. *)
Theorem validateMove_accepts_only_legal_moves :
  forall forest nodeId targetParentId,
    valid (validateMove forest nodeId targetParentId) = true ->
    exists sourceNode,
      findNodeById nodeId forest = Some sourceNode
      /\ targetParentId <> Some nodeId
      /\ inferCategory sourceNode <> root
      /\ (forall t, targetParentId = Some t -> namesNode targetParentId = true ->
                    forall d, In d (nodesOf sourceNode) -> id d <> t)
      /\ isLegalParent (inferCategory sourceNode)
                       (targetCategoryOf forest targetParentId) = true.
Proof. exact validateMove_valid_inv. Qed.

Lemma validateMove_accepts_only_legal_moves_example :
  valid (validateMove moveForest "x" (Some "b")) = true
  /\ exists sourceNode,
       findNodeById "x" moveForest = Some sourceNode
       /\ Some "b" <> Some "x"
       /\ inferCategory sourceNode <> root
       /\ (forall t, Some "b" = Some t -> namesNode (Some "b") = true ->
                     forall d, In d (nodesOf sourceNode) -> id d <> t)
       /\ isLegalParent (inferCategory sourceNode)
                        (targetCategoryOf moveForest (Some "b")) = true.
Proof.
  split; [reflexivity|].
  exact (validateMove_accepts_only_legal_moves moveForest "x" (Some "b") eq_refl).
Defined.

(* ------------------------------------------------------------------ *)
(** ** [deleteNode] *)

Lemma forestNodes_app l1 l2 :
  forestNodes (l1 ++ l2) = forestNodes l1 ++ forestNodes l2.
Proof. unfold forestNodes. apply flat_map_app. Qed.

Lemma forestIds_app l1 l2 : forestIds (l1 ++ l2) = forestIds l1 ++ forestIds l2.
Proof. unfold forestIds. now rewrite forestNodes_app, map_app. Qed.

Lemma forestIds_cons n l :
  forestIds (n :: l) = map id (nodesOf n) ++ forestIds l.
Proof. unfold forestIds. simpl. now rewrite map_app. Qed.

Lemma nodesOf_ids n :
  map id (nodesOf n) = id n :: forestIds (orEmpty (children n)).
Proof. now rewrite nodesOf_eq. Qed.

Lemma removeNodeItem_eq nodeId n :
  removeNodeItem nodeId n =
  if id n =? nodeId then None
  else match children n with
       | Some cs => Some (withChildren n (Some (removeNode nodeId cs)))
       | None => Some n
       end.
Proof. now destruct n. Qed.

Lemma removeNode_cons nodeId n l :
  forestNodes (removeNode nodeId (n :: l))
  = optNodes (removeNodeItem nodeId n) ++ forestNodes (removeNode nodeId l).
Proof.
  unfold removeNode. simpl.
  destruct (removeNodeItem nodeId n); reflexivity.
Qed.

Lemma removeNodeItem_absent nodeId n :
  (forall m, In m (nodesOf n) -> id m <> nodeId) ->
  removeNodeItem nodeId n = Some n.
Proof.
  induction n as [n IH] using KPINode_nested_ind.
  intros Hno. rewrite removeNodeItem_eq.
  assert (Hn : (id n =? nodeId) = false).
  { apply String.eqb_neq, Hno. rewrite nodesOf_eq. now left. }
  rewrite Hn.
  destruct (children n) as [cs|] eqn:Ec; [|reflexivity].
  f_equal. rewrite <- (withChildren_same n) at 2. rewrite Ec. do 2 f_equal.
  specialize (IH cs eq_refl).
  assert (Hcs : forall m, In m (forestNodes cs) -> id m <> nodeId).
  { intros m Hm. apply Hno. rewrite nodesOf_eq, Ec. now right. }
  clear Hno Hn Ec. unfold removeNode.
  induction IH as [|c cs Hc _ IHcs]; simpl; [reflexivity|].
  rewrite Hc, IHcs; [reflexivity| |].
  - intros m Hm. apply Hcs. simpl. apply in_or_app. now right.
  - intros m Hm. apply Hcs. simpl. apply in_or_app. now left.
Qed.

Lemma removeNode_absent nodeId forest :
  (forall m, In m (forestNodes forest) -> id m <> nodeId) ->
  removeNode nodeId forest = forest.
Proof.
  unfold removeNode.
  induction forest as [|n forest IH]; simpl; intros Hno; [reflexivity|].
  rewrite removeNodeItem_absent, IH; [reflexivity| |];
    intros m Hm; apply Hno, in_or_app; [now right|now left].
Qed.

Lemma removeNode_survivors_gen nodeId l :
  Forall (fun n => forall m, In m (optNodes (removeNodeItem nodeId n)) ->
                             id m <> nodeId /\ In (id m) (map id (nodesOf n))) l ->
  forall m, In m (forestNodes (removeNode nodeId l)) ->
            id m <> nodeId /\ In (id m) (forestIds l).
Proof.
  induction 1 as [|n l Hn _ IH]; intros m Hm; [contradiction|].
  rewrite removeNode_cons in Hm. rewrite forestIds_cons.
  apply in_app_or in Hm as [Hm|Hm].
  - destruct (Hn m Hm) as [H1 H2]. split; [exact H1|]. apply in_or_app. now left.
  - destruct (IH m Hm) as [H1 H2]. split; [exact H1|]. apply in_or_app. now right.
Qed.

Lemma removeNodeItem_survivors nodeId n :
  forall m, In m (optNodes (removeNodeItem nodeId n)) ->
            id m <> nodeId /\ In (id m) (map id (nodesOf n)).
Proof.
  induction n as [n IH] using KPINode_nested_ind.
  intros m Hm. rewrite removeNodeItem_eq in Hm. rewrite nodesOf_ids.
  destruct (id n =? nodeId) eqn:E; [contradiction|].
  apply String.eqb_neq in E.
  destruct (children n) as [cs|] eqn:Ec; cbn [optNodes] in Hm.
  - rewrite nodesOf_eq in Hm. destruct Hm as [<-|Hm].
    + split; [now destruct n|]. left. now destruct n.
    + cbn [withChildren children orEmpty] in Hm.
      destruct (removeNode_survivors_gen nodeId cs (IH cs eq_refl) m Hm) as [H1 H2].
      split; [exact H1|now right].
  - rewrite nodesOf_eq, Ec in Hm. destruct Hm as [<-|[]].
    split; [exact E|now left].
Qed.

Lemma findNodeById_sound_and_complete_aux target forest :
  match findNodeById target forest with
  | Some n => id n = target /\ In n (forestNodes forest)
  | None => forall n, In n (forestNodes forest) -> id n <> target
  end.
Proof.
  rewrite findNodeById_find.
  destruct (find (fun n => id n =? target) (forestNodes forest)) as [n|] eqn:E.
  - apply find_some in E as [Hin Hid]. split; [now apply String.eqb_eq|exact Hin].
  - intros n Hin. apply String.eqb_neq. exact (find_none _ _ E n Hin).
Qed.

(** X5: after [deleteNode] no node of the forest carries the deleted
    identifier, at any depth, so [findNodeById] answers [null] for it; and
    no identifier appears that was not there before. *)
Theorem deleteNode_removes_every_occurrence :
  forall nodeId st,
    findNodeById nodeId (treeData (deleteNode nodeId st)) = None
    /\ forall m, In m (forestNodes (treeData (deleteNode nodeId st))) ->
                 id m <> nodeId /\ In (id m) (forestIds (treeData st)).
Proof.
  intros nodeId st. unfold deleteNode, deepClone. simpl treeData.
  assert (H : forall m, In m (forestNodes (removeNode nodeId (treeData st))) ->
                        id m <> nodeId /\ In (id m) (forestIds (treeData st))).
  { apply removeNode_survivors_gen, Forall_forall.
    intros n _. apply removeNodeItem_survivors. }
  split; [|exact H].
  pose proof (findNodeById_sound_and_complete_aux nodeId
                (removeNode nodeId (treeData st))) as Hf.
  destruct (findNodeById nodeId (removeNode nodeId (treeData st))) as [n|];
    [|reflexivity].
  destruct Hf as [Hid Hin]. now destruct (H n Hin).
Qed.

Lemma NoDup_app_disjoint {A : Type} (l1 l2 : list A) :
  NoDup (l1 ++ l2) -> forall a, In a l1 -> ~ In a l2.
Proof.
  induction l1 as [|x l1 IH]; simpl; intros Hnd a Ha; [contradiction|].
  inversion Hnd as [|? ? Hx Hnd']; subst.
  destruct Ha as [->|Ha].
  - intros H2. apply Hx. apply in_or_app. now right.
  - now apply IH.
Qed.

Lemma not_in_ids forest x :
  ~ In x (forestIds forest) ->
  forall m, In m (forestNodes forest) -> id m <> x.
Proof.
  intros Hx m Hm E. apply Hx. subst x. unfold forestIds. now apply in_map.
Qed.

Lemma not_in_node_ids n x :
  ~ In x (map id (nodesOf n)) ->
  forall m, In m (nodesOf n) -> id m <> x.
Proof. intros Hx m Hm E. apply Hx. subst x. now apply in_map. Qed.

Lemma removeNode_ids_gen l :
  Forall (fun m => forall n,
              NoDup (map id (nodesOf m)) -> In n (nodesOf m) ->
              Permutation (map id (nodesOf m))
                (map id (optNodes (removeNodeItem (id n) m)) ++ map id (nodesOf n))) l ->
  forall n,
    NoDup (forestIds l) -> In n (forestNodes l) ->
    Permutation (forestIds l)
                (forestIds (removeNode (id n) l) ++ map id (nodesOf n)).
Proof.
  induction 1 as [|m l Hm _ IH]; intros n Hnd Hin; [contradiction|].
  rewrite forestIds_cons in Hnd |- *.
  unfold forestIds at 2. rewrite removeNode_cons, map_app.
  fold (forestIds (removeNode (id n) l)).
  pose proof (NoDup_app_disjoint _ _ Hnd) as Hdis.
  simpl in Hin. apply in_app_or in Hin as [Hin|Hin].
  - assert (Hout : ~ In (id n) (forestIds l)).
    { apply Hdis. now apply in_map. }
    rewrite (removeNode_absent (id n) l (not_in_ids l (id n) Hout)).
    specialize (Hm n (NoDup_app_remove_r _ _ Hnd) Hin).
    transitivity ((map id (optNodes (removeNodeItem (id n) m)) ++ map id (nodesOf n))
                  ++ forestIds l).
    + now apply Permutation_app_tail.
    + rewrite <- !app_assoc. apply Permutation_app_head, Permutation_app_comm.
  - assert (Hout : ~ In (id n) (map id (nodesOf m))).
    { intros H1. apply (Hdis _ H1). unfold forestIds. now apply in_map. }
    rewrite (removeNodeItem_absent (id n) m (not_in_node_ids m (id n) Hout)).
    cbn [optNodes]. rewrite <- app_assoc. apply Permutation_app_head.
    apply IH; [exact (NoDup_app_remove_l _ _ Hnd)|exact Hin].
Qed.

Lemma removeNodeItem_ids m :
  forall n,
    NoDup (map id (nodesOf m)) -> In n (nodesOf m) ->
    Permutation (map id (nodesOf m))
      (map id (optNodes (removeNodeItem (id n) m)) ++ map id (nodesOf n)).
Proof.
  induction m as [m IH] using KPINode_nested_ind.
  intros n Hnd Hin. rewrite removeNodeItem_eq.
  rewrite (nodesOf_eq m) in Hin. destruct Hin as [<-|Hin].
  - now rewrite String.eqb_refl.
  - rewrite (nodesOf_ids m) in Hnd |- *.
    inversion Hnd as [|? ? Hm Hnd']; subst.
    assert (Hne : (id m =? id n) = false).
    { apply String.eqb_neq. intros E. apply Hm. rewrite E.
      unfold forestIds. now apply in_map. }
    rewrite Hne.
    destruct (children m) as [cs|] eqn:Ec; [|contradiction].
    cbn [optNodes orEmpty] in *. rewrite nodesOf_ids.
    cbn [withChildren children id orEmpty]. simpl app.
    apply perm_skip.
    apply removeNode_ids_gen; [now apply IH|exact Hnd'|exact Hin].
Qed.

Lemma removeNode_ids forest n :
  NoDup (forestIds forest) -> In n (forestNodes forest) ->
  Permutation (forestIds forest)
              (forestIds (removeNode (id n) forest) ++ map id (nodesOf n)).
Proof.
  apply removeNode_ids_gen, Forall_forall. intros m _. apply removeNodeItem_ids.
Qed.

(** X6: in a forest with unique identifiers, [deleteNode] takes out the
    node and its whole subtree and nothing else: the identifiers left, with
    those of the subtree, are the identifiers there were, and
    [findNodeById] answers [null] for every node of the subtree. *)
Theorem deleteNode_removes_exactly_the_subtree :
  forall st n,
    NoDup (forestIds (treeData st)) ->
    In n (forestNodes (treeData st)) ->
    Permutation (forestIds (treeData st))
                (forestIds (treeData (deleteNode (id n) st)) ++ map id (nodesOf n))
    /\ forall d, In d (nodesOf n) ->
                 findNodeById (id d) (treeData (deleteNode (id n) st)) = None.
Proof.
  intros st n Hnd Hin. unfold deleteNode, deepClone. simpl treeData.
  pose proof (removeNode_ids (treeData st) n Hnd Hin) as Hperm.
  split; [exact Hperm|].
  intros d Hd.
  pose proof (Permutation_NoDup Hperm Hnd) as Hnd'.
  pose proof (findNodeById_sound_and_complete_aux (id d)
                (removeNode (id n) (treeData st))) as Hf.
  destruct (findNodeById (id d) (removeNode (id n) (treeData st))) as [k|];
    [|reflexivity].
  destruct Hf as [Hid Hk]. exfalso.
  apply (NoDup_app_disjoint _ _ Hnd' (id d)).
  - rewrite <- Hid. unfold forestIds. now apply in_map.
  - now apply in_map.
Qed.

Lemma deleteNode_removes_exactly_the_subtree_example :
  NoDup (forestIds (treeData (emptyStore deepForest)))
  /\ forestIds (treeData (deleteNode "n" (emptyStore deepForest))) = ["r"; "m"; "s"]
  /\ Permutation
       (forestIds (treeData (emptyStore deepForest)))
       (forestIds (treeData (deleteNode (id (branch "n" [leaf "c" "C"; leaf "d" "D"]))
                                        (emptyStore deepForest)))
        ++ map id (nodesOf (branch "n" [leaf "c" "C"; leaf "d" "D"])))
  /\ forall d, In d (nodesOf (branch "n" [leaf "c" "C"; leaf "d" "D"])) ->
       findNodeById (id d)
         (treeData (deleteNode (id (branch "n" [leaf "c" "C"; leaf "d" "D"]))
                               (emptyStore deepForest))) = None.
Proof.
  assert (Hnd : NoDup (forestIds (treeData (emptyStore deepForest)))).
  { simpl. repeat constructor; simpl; intuition discriminate. }
  split; [exact Hnd|]. split; [reflexivity|].
  apply (deleteNode_removes_exactly_the_subtree (emptyStore deepForest)
           (branch "n" [leaf "c" "C"; leaf "d" "D"]) Hnd).
  simpl. right. now left.
Defined.

(* ------------------------------------------------------------------ *)
(** ** [moveNode] when the target has a place for the node *)

Lemma removeFilterItem_eq nodeId item rm :
  removeFilterItem nodeId item rm =
  if id item =? nodeId then (None, Some item)
  else match children item with
       | Some cs =>
           let '(cs', rm') := removeFilter nodeId cs rm in
           (Some (withChildren item (Some cs')), rm')
       | None => (Some item, rm)
       end.
Proof.
  destruct item as [i nm ic u e s c ch d r m p]; simpl.
  destruct (i =? nodeId); [reflexivity|].
  destruct ch as [cs|]; [|reflexivity].
  match goal with
  | |- context [?f cs rm] =>
      lazymatch f with
      | removeFilter _ => fail
      | _ => assert (E : forall l a, f l a = removeFilter nodeId l a)
      end
  end.
  { clear. induction l as [|c0 l IH]; intros a; simpl; [reflexivity|].
    destruct (removeFilterItem nodeId c0 a) as [kept rm1].
    now rewrite IH. }
  now rewrite E.
Qed.

Lemma removeFilter_fst_gen nodeId l :
  Forall (fun n => forall rm, fst (removeFilterItem nodeId n rm)
                              = removeNodeItem nodeId n) l ->
  forall rm, fst (removeFilter nodeId l rm) = removeNode nodeId l.
Proof.
  unfold removeNode.
  induction 1 as [|n l Hn _ IH]; intros rm; simpl; [reflexivity|].
  specialize (Hn rm).
  destruct (removeFilterItem nodeId n rm) as [kept rm1]. simpl in Hn. subst kept.
  specialize (IH rm1).
  destruct (removeFilter nodeId l rm1) as [r' rm2]. simpl in *. subst r'.
  reflexivity.
Qed.

Lemma removeFilterItem_fst nodeId n :
  forall rm, fst (removeFilterItem nodeId n rm) = removeNodeItem nodeId n.
Proof.
  induction n as [n IH] using KPINode_nested_ind.
  intros rm. rewrite removeFilterItem_eq, removeNodeItem_eq.
  destruct (id n =? nodeId); [reflexivity|].
  destruct (children n) as [cs|] eqn:Ec; [|reflexivity].
  pose proof (removeFilter_fst_gen nodeId cs (IH cs eq_refl) rm) as H.
  destruct (removeFilter nodeId cs rm) as [cs' rm']. simpl in *. now subst cs'.
Qed.

(** The forest that [removeNodeFromTree] returns is the forest that
    [deleteNode] stores. *)
Lemma removeFilter_fst nodeId forest rm :
  fst (removeFilter nodeId forest rm) = removeNode nodeId forest.
Proof.
  apply removeFilter_fst_gen, Forall_forall. intros n _. apply removeFilterItem_fst.
Qed.

Lemma removeFilter_snd_absent_gen nodeId l :
  Forall (fun n => forall rm, (forall m, In m (nodesOf n) -> id m <> nodeId) ->
                              snd (removeFilterItem nodeId n rm) = rm) l ->
  forall rm, (forall m, In m (forestNodes l) -> id m <> nodeId) ->
             snd (removeFilter nodeId l rm) = rm.
Proof.
  induction 1 as [|n l Hn _ IH]; intros rm Hno; simpl; [reflexivity|].
  assert (H1 : snd (removeFilterItem nodeId n rm) = rm).
  { apply Hn. intros m Hm. apply Hno. simpl. apply in_or_app. now left. }
  destruct (removeFilterItem nodeId n rm) as [kept rm1]. simpl in H1. subst rm1.
  assert (H2 : snd (removeFilter nodeId l rm) = rm).
  { apply IH. intros m Hm. apply Hno. simpl. apply in_or_app. now right. }
  destruct (removeFilter nodeId l rm) as [r' rm2]. exact H2.
Qed.

Lemma removeFilterItem_snd_absent nodeId n :
  forall rm, (forall m, In m (nodesOf n) -> id m <> nodeId) ->
             snd (removeFilterItem nodeId n rm) = rm.
Proof.
  induction n as [n IH] using KPINode_nested_ind.
  intros rm Hno. rewrite removeFilterItem_eq.
  assert (Hn : (id n =? nodeId) = false).
  { apply String.eqb_neq, Hno. rewrite nodesOf_eq. now left. }
  rewrite Hn.
  destruct (children n) as [cs|] eqn:Ec; [|reflexivity].
  assert (H : snd (removeFilter nodeId cs rm) = rm).
  { apply removeFilter_snd_absent_gen; [now apply IH|].
    intros m Hm. apply Hno. rewrite nodesOf_eq, Ec. now right. }
  destruct (removeFilter nodeId cs rm) as [cs' rm']. exact H.
Qed.

Lemma removeFilter_snd_absent nodeId forest rm :
  (forall m, In m (forestNodes forest) -> id m <> nodeId) ->
  snd (removeFilter nodeId forest rm) = rm.
Proof.
  apply removeFilter_snd_absent_gen, Forall_forall.
  intros n _ rm0. apply removeFilterItem_snd_absent.
Qed.

Lemma removeFilter_snd_gen l :
  Forall (fun m => forall n rm,
              NoDup (map id (nodesOf m)) -> In n (nodesOf m) ->
              snd (removeFilterItem (id n) m rm) = Some n) l ->
  forall n rm,
    NoDup (forestIds l) -> In n (forestNodes l) ->
    snd (removeFilter (id n) l rm) = Some n.
Proof.
  induction 1 as [|m l Hm _ IH]; intros n rm Hnd Hin; [contradiction|].
  rewrite forestIds_cons in Hnd.
  pose proof (NoDup_app_disjoint _ _ Hnd) as Hdis.
  simpl in Hin |- *. apply in_app_or in Hin as [Hin|Hin].
  - specialize (Hm n rm (NoDup_app_remove_r _ _ Hnd) Hin).
    destruct (removeFilterItem (id n) m rm) as [kept rm1]. simpl in Hm. subst rm1.
    assert (H2 : snd (removeFilter (id n) l (Some n)) = Some n).
    { apply removeFilter_snd_absent, not_in_ids, Hdis. now apply in_map. }
    destruct (removeFilter (id n) l (Some n)) as [r' rm2]. exact H2.
  - assert (H1 : snd (removeFilterItem (id n) m rm) = rm).
    { apply removeFilterItem_snd_absent, not_in_node_ids.
      intros H1. apply (Hdis _ H1). unfold forestIds. now apply in_map. }
    destruct (removeFilterItem (id n) m rm) as [kept rm1]. simpl in H1. subst rm1.
    specialize (IH n rm (NoDup_app_remove_l _ _ Hnd) Hin).
    destruct (removeFilter (id n) l rm) as [r' rm2]. exact IH.
Qed.

Lemma removeFilterItem_snd m :
  forall n rm,
    NoDup (map id (nodesOf m)) -> In n (nodesOf m) ->
    snd (removeFilterItem (id n) m rm) = Some n.
Proof.
  induction m as [m IH] using KPINode_nested_ind.
  intros n rm Hnd Hin. rewrite removeFilterItem_eq.
  rewrite (nodesOf_eq m) in Hin. destruct Hin as [<-|Hin].
  - now rewrite String.eqb_refl.
  - rewrite (nodesOf_ids m) in Hnd.
    inversion Hnd as [|? ? Hm Hnd']; subst.
    assert (Hne : (id m =? id n) = false).
    { apply String.eqb_neq. intros E. apply Hm. rewrite E.
      unfold forestIds. now apply in_map. }
    rewrite Hne.
    destruct (children m) as [cs|] eqn:Ec; [|contradiction].
    cbn [orEmpty] in *.
    pose proof (removeFilter_snd_gen cs (IH cs eq_refl) n rm Hnd' Hin) as H.
    destruct (removeFilter (id n) cs rm) as [cs' rm']. exact H.
Qed.

(** With unique identifiers [removeNodeFromTree] hands back the node that
    carries the identifier, whole. *)
Lemma removeNodeFromTree_unique forest n :
  NoDup (forestIds forest) -> In n (forestNodes forest) ->
  removeNodeFromTree (id n) forest = (removeNode (id n) forest, Some n).
Proof.
  intros Hnd Hin. unfold removeNodeFromTree, deepClone.
  pose proof (removeFilter_fst (id n) forest None) as H1.
  assert (H2 : snd (removeFilter (id n) forest None) = Some n).
  { apply removeFilter_snd_gen; [|exact Hnd|exact Hin].
    apply Forall_forall. intros m _. apply removeFilterItem_snd. }
  destruct (removeFilter (id n) forest None) as [f r]. simpl in *. now subst.
Qed.

Lemma addToParentNode_eq parentId x m :
  addToParentNode parentId x m =
  if id m =? parentId
  then withChildren m (Some (orEmpty (children m) ++ [x]))
  else match children m with
       | Some cs => withChildren m (Some (map (addToParentNode parentId x) cs))
       | None => m
       end.
Proof. now destruct m. Qed.

Lemma addToParent_ids_gen parentId x l :
  Forall (fun m => NoDup (map id (nodesOf m)) -> In parentId (map id (nodesOf m)) ->
                   Permutation (map id (nodesOf (addToParentNode parentId x m)))
                               (map id (nodesOf m) ++ map id (nodesOf x))) l ->
  NoDup (forestIds l) -> In parentId (forestIds l) ->
  Permutation (forestIds (map (addToParentNode parentId x) l))
              (forestIds l ++ map id (nodesOf x)).
Proof.
  induction 1 as [|m l Hm _ IH]; intros Hnd Hin; [contradiction|].
  simpl map. rewrite !forestIds_cons in *.
  pose proof (NoDup_app_disjoint _ _ Hnd) as Hdis.
  apply in_app_or in Hin as [Hin|Hin].
  - rewrite (addToParent_absent parentId x l
               (not_in_ids l parentId (Hdis _ Hin))).
    specialize (Hm (NoDup_app_remove_r _ _ Hnd) Hin).
    transitivity ((map id (nodesOf m) ++ map id (nodesOf x)) ++ forestIds l).
    + now apply Permutation_app_tail.
    + rewrite <- !app_assoc. apply Permutation_app_head, Permutation_app_comm.
  - assert (Hout : ~ In parentId (map id (nodesOf m))).
    { intros H1. exact (Hdis _ H1 Hin). }
    rewrite (addToParentNode_absent parentId x m (not_in_node_ids m parentId Hout)).
    rewrite <- app_assoc. apply Permutation_app_head.
    apply IH; [exact (NoDup_app_remove_l _ _ Hnd)|exact Hin].
Qed.

Lemma addToParentNode_ids parentId x m :
  NoDup (map id (nodesOf m)) -> In parentId (map id (nodesOf m)) ->
  Permutation (map id (nodesOf (addToParentNode parentId x m)))
              (map id (nodesOf m) ++ map id (nodesOf x)).
Proof.
  induction m as [m IH] using KPINode_nested_ind.
  intros Hnd Hin. rewrite addToParentNode_eq.
  destruct (id m =? parentId) eqn:E.
  - rewrite (nodesOf_ids (withChildren m _)), (nodesOf_ids m).
    cbn [withChildren children id orEmpty].
    rewrite forestIds_app. unfold forestIds at 2.
    cbn [forestNodes flat_map]. rewrite app_nil_r. apply Permutation_refl.
  - rewrite (nodesOf_ids m) in Hnd, Hin. destruct Hin as [Hin|Hin].
    { apply String.eqb_neq in E. now contradiction E. }
    inversion Hnd as [|? ? _ Hnd']; subst.
    destruct (children m) as [cs|] eqn:Ec; [|contradiction].
    cbn [orEmpty] in *.
    rewrite (nodesOf_ids (withChildren m _)), (nodesOf_ids m), Ec.
    cbn [withChildren children id orEmpty]. simpl app.
    apply perm_skip.
    apply addToParent_ids_gen; [now apply IH|exact Hnd'|exact Hin].
Qed.

Lemma addToParent_ids parentId x forest :
  NoDup (forestIds forest) -> In parentId (forestIds forest) ->
  Permutation (forestIds (map (addToParentNode parentId x) forest))
              (forestIds forest ++ map id (nodesOf x)).
Proof.
  apply addToParent_ids_gen, Forall_forall. intros m _. apply addToParentNode_ids.
Qed.

(** The first node that carries [parentId] comes back with [x] as its last
    child. *)
Lemma addToParentNode_lookup parentId x n :
  findNodeIn parentId (addToParentNode parentId x n)
  = option_map (fun m => withChildren m (Some (orEmpty (children m) ++ [x])))
               (findNodeIn parentId n).
Proof.
  induction n as [n IH] using KPINode_nested_ind.
  rewrite (findNodeIn_eq parentId n), addToParentNode_eq.
  destruct (id n =? parentId) eqn:E.
  - rewrite findNodeIn_eq. cbn [withChildren id]. now rewrite E.
  - destruct (children n) as [cs|] eqn:Ec.
    + rewrite findNodeIn_eq. cbn [withChildren id children orEmpty]. rewrite E.
      specialize (IH cs eq_refl). clear Ec.
      induction IH as [|c cs Hc _ IHcs]; simpl; [reflexivity|].
      rewrite Hc. destruct (findNodeIn parentId c); [reflexivity|exact IHcs].
    + rewrite findNodeIn_eq, E, Ec. reflexivity.
Qed.

Lemma addToParent_lookup parentId x forest :
  findNodeById parentId (map (addToParentNode parentId x) forest)
  = option_map (fun m => withChildren m (Some (orEmpty (children m) ++ [x])))
               (findNodeById parentId forest).
Proof.
  induction forest as [|n forest IH]; simpl; [reflexivity|].
  rewrite addToParentNode_lookup.
  destruct (findNodeIn parentId n); [reflexivity|exact IH].
Qed.

Lemma moveNode_accepted st nodeId targetParentId :
  NoDup (forestIds (treeData st)) ->
  valid (validateMove (treeData st) nodeId targetParentId) = true ->
  exists sourceNode,
    findNodeById nodeId (treeData st) = Some sourceNode
    /\ In sourceNode (forestNodes (treeData st))
    /\ id sourceNode = nodeId
    /\ (forall t, targetParentId = Some t -> namesNode targetParentId = true ->
                  forall d, In d (nodesOf sourceNode) -> id d <> t)
    /\ moveNode nodeId targetParentId st
       = (mkMoveResult true None,
          setTree st (addNodeToParent (removeNode nodeId (treeData st))
                                      targetParentId sourceNode)
                  true (nextId st)).
Proof.
  intros Hnd Hv.
  destruct (validateMove_valid_inv _ _ _ Hv) as (src & Hf & _ & _ & Hdesc & _).
  pose proof (findNodeById_sound_and_complete_aux nodeId (treeData st)) as Hs.
  rewrite Hf in Hs. destruct Hs as [Hid Hin].
  exists src. repeat split; try assumption.
  unfold moveNode. rewrite Hv. cbn [negb].
  rewrite <- Hid at 1. rewrite (removeNodeFromTree_unique _ _ Hnd Hin).
  now rewrite Hid.
Qed.

Lemma forestIds_single n : forestIds [n] = map id (nodesOf n).
Proof. unfold forestIds. simpl. now rewrite app_nil_r. Qed.

Lemma in_forestIds_found forest t :
  In t (forestIds forest) ->
  exists n, findNodeById t forest = Some n /\ id n = t.
Proof.
  intros Hin.
  pose proof (findNodeById_sound_and_complete_aux t forest) as H.
  destruct (findNodeById t forest) as [n|].
  - exists n. split; [reflexivity|apply H].
  - exfalso. unfold forestIds in Hin. apply in_map_iff in Hin as (m & Hid & Hm).
    exact (H m Hm Hid).
Qed.

Lemma found_in_forestIds forest t n :
  findNodeById t forest = Some n -> In t (forestIds forest).
Proof.
  intros Hf.
  pose proof (findNodeById_sound_and_complete_aux t forest) as H.
  rewrite Hf in H. destruct H as [<- Hin]. unfold forestIds. now apply in_map.
Qed.

(** The target of an accepted move, when it names a node that exists, is
    still there once the source has been taken out. *)
Lemma target_survives_removal forest sourceNode t targetNode :
  NoDup (forestIds forest) ->
  In sourceNode (forestNodes forest) ->
  (forall d, In d (nodesOf sourceNode) -> id d <> t) ->
  findNodeById t forest = Some targetNode ->
  In t (forestIds (removeNode (id sourceNode) forest))
  /\ NoDup (forestIds (removeNode (id sourceNode) forest)).
Proof.
  intros Hnd Hin Hdesc Hf.
  pose proof (removeNode_ids forest sourceNode Hnd Hin) as Hperm.
  pose proof (Permutation_NoDup Hperm Hnd) as Hnd'.
  split; [|exact (NoDup_app_remove_r _ _ Hnd')].
  pose proof (Permutation_in _ Hperm (found_in_forestIds _ _ _ Hf)) as Ht.
  apply in_app_or in Ht as [Ht|Ht]; [exact Ht|].
  apply in_map_iff in Ht as (d & Hid & Hd). now destruct (Hdesc d Hd).
Qed.

(** X7: in a forest with unique identifiers, a move that [validateMove]
    accepts to a target that resolves (the top level, or a non-empty
    identifier carried by a node) succeeds and keeps every node: the
    identifiers of the forest afterwards are those before, rearranged, so
    the number of nodes is unchanged. *)
Theorem accepted_move_keeps_every_node :
  forall st nodeId targetParentId,
    NoDup (forestIds (treeData st)) ->
    valid (validateMove (treeData st) nodeId targetParentId) = true ->
    targetResolves (treeData st) targetParentId ->
    fst (moveNode nodeId targetParentId st) = mkMoveResult true None
    /\ Permutation (forestIds (treeData st))
                   (forestIds (treeData (snd (moveNode nodeId targetParentId st)))).
Proof.
  intros st nodeId tgt Hnd Hv Hres.
  destruct (moveNode_accepted st nodeId tgt Hnd Hv)
    as (src & Hf & Hin & Hid & Hdesc & ->).
  split; [reflexivity|]. cbn [snd setTree treeData].
  pose proof (removeNode_ids (treeData st) src Hnd Hin) as Hperm.
  rewrite Hid in Hperm.
  assert (Htop : Permutation (forestIds (treeData st))
                   (forestIds (removeNode nodeId (treeData st) ++ [src]))).
  { now rewrite forestIds_app, forestIds_single. }
  unfold addNodeToParent.
  destruct tgt as [t|]; [|exact Htop].
  destruct (t =? "__root__") eqn:Er; [exact Htop|].
  apply String.eqb_neq in Er.
  destruct Hres as [Hres|[Hne (tn & Htn)]]; [now contradiction Er|].
  destruct (target_survives_removal (treeData st) src t tn Hnd Hin) as [Ht Hnd'].
  { apply (Hdesc t eq_refl). now apply namesNode_true. }
  { exact Htn. }
  rewrite Hid in Ht, Hnd'.
  rewrite Hperm. symmetry. now apply addToParent_ids.
Qed.

Lemma accepted_move_keeps_every_node_example :
  NoDup (forestIds (treeData (emptyStore moveForest)))
  /\ fst (moveNode "x" (Some "b") (emptyStore moveForest)) = mkMoveResult true None
  /\ Permutation
       (forestIds (treeData (emptyStore moveForest)))
       (forestIds (treeData (snd (moveNode "x" (Some "b") (emptyStore moveForest))))).
Proof.
  assert (Hnd : NoDup (forestIds (treeData (emptyStore moveForest)))).
  { simpl. repeat constructor; simpl; intuition discriminate. }
  split; [exact Hnd|].
  apply (accepted_move_keeps_every_node (emptyStore moveForest) "x" (Some "b") Hnd).
  - reflexivity.
  - right. split; [discriminate|]. now exists (leaf "b" "B").
Defined.

(** X8: under the same conditions the subtree that is moved arrives whole
    and last: as the last top-level node when the target is the top level,
    and otherwise as the last child of the node that [findNodeById] finds
    for the target afterwards. *)
Theorem accepted_move_places_node_last :
  forall st nodeId targetParentId,
    NoDup (forestIds (treeData st)) ->
    valid (validateMove (treeData st) nodeId targetParentId) = true ->
    targetResolves (treeData st) targetParentId ->
    exists sourceNode,
      findNodeById nodeId (treeData st) = Some sourceNode
      /\ match targetParentId with
         | None =>
             treeData (snd (moveNode nodeId targetParentId st))
             = removeNode nodeId (treeData st) ++ [sourceNode]
         | Some t =>
             if t =? "__root__" then
               treeData (snd (moveNode nodeId targetParentId st))
               = removeNode nodeId (treeData st) ++ [sourceNode]
             else
               exists targetNode siblings,
                 findNodeById t (treeData (snd (moveNode nodeId targetParentId st)))
                 = Some targetNode
                 /\ id targetNode = t
                 /\ children targetNode = Some (siblings ++ [sourceNode])
         end.
Proof.
  intros st nodeId tgt Hnd Hv Hres.
  destruct (moveNode_accepted st nodeId tgt Hnd Hv)
    as (src & Hf & Hin & Hid & Hdesc & ->).
  exists src. split; [exact Hf|]. cbn [snd setTree treeData].
  unfold addNodeToParent.
  destruct tgt as [t|]; [|reflexivity].
  destruct (t =? "__root__") eqn:Er; [reflexivity|].
  apply String.eqb_neq in Er.
  destruct Hres as [Hres|[Hne (tn & Htn)]]; [now contradiction Er|].
  destruct (target_survives_removal (treeData st) src t tn Hnd Hin) as [Ht _].
  { apply (Hdesc t eq_refl). now apply namesNode_true. }
  { exact Htn. }
  rewrite Hid in Ht.
  destruct (in_forestIds_found _ _ Ht) as (tn' & Hf' & Hid').
  exists (withChildren tn' (Some (orEmpty (children tn') ++ [src]))),
         (orEmpty (children tn')).
  rewrite addToParent_lookup, Hf'. repeat split. now destruct tn'.
Qed.

Lemma accepted_move_places_node_last_example :
  NoDup (forestIds (treeData (emptyStore moveForest)))
  /\ exists sourceNode,
       findNodeById "x" (treeData (emptyStore moveForest)) = Some sourceNode
       /\ exists targetNode siblings,
            findNodeById "b"
              (treeData (snd (moveNode "x" (Some "b") (emptyStore moveForest))))
            = Some targetNode
            /\ id targetNode = "b"
            /\ children targetNode = Some (siblings ++ [sourceNode]).
Proof.
  assert (Hnd : NoDup (forestIds (treeData (emptyStore moveForest)))).
  { simpl. repeat constructor; simpl; intuition discriminate. }
  split; [exact Hnd|].
  apply (accepted_move_places_node_last (emptyStore moveForest) "x" (Some "b") Hnd).
  - reflexivity.
  - right. split; [discriminate|]. now exists (leaf "b" "B").
Defined.

(* ------------------------------------------------------------------ *)
(** ** [addNode] under a parent that exists *)

(** X9: when a node carries [parentId], [addNode] returns the identifier
    it drew, and the first node that carries [parentId] is found afterwards
    with the new node as its last child: a leaf of category [metric] with
    the name, unit, [esg] and scope that were given.  With unique
    identifiers the forest gains this one identifier and loses none. *)
Theorem addNode_appends_leaf_to_parent :
  forall (genNodeId : nat -> string) parentId nodeData st parent,
    findNodeById parentId (treeData st) = Some parent ->
    fst (addNode genNodeId parentId nodeData st) = genNodeId (nextId st)
    /\ findNodeById parentId (treeData (snd (addNode genNodeId parentId nodeData st)))
       = Some (withChildren parent
                 (Some (orEmpty (children parent)
                        ++ [mkKPINode (genNodeId (nextId st)) (nd_name nodeData)
                                      None (nd_unit nodeData) (nd_esg nodeData)
                                      (nd_scope nodeData) (Some metric)
                                      None None None None None])))
    /\ (NoDup (forestIds (treeData st)) ->
        Permutation
          (forestIds (treeData (snd (addNode genNodeId parentId nodeData st))))
          (forestIds (treeData st) ++ [genNodeId (nextId st)])).
Proof.
  intros genNodeId parentId nodeData st parent Hf.
  unfold addNode, deepClone. cbn [fst snd setTree treeData id].
  split; [reflexivity|]. split.
  - now rewrite addToParent_lookup, Hf.
  - intros Hnd.
    exact (addToParent_ids parentId
             (mkKPINode (genNodeId (nextId st)) (nd_name nodeData) None
                        (nd_unit nodeData) (nd_esg nodeData) (nd_scope nodeData)
                        (Some metric) None None None None None)
             (treeData st) Hnd (found_in_forestIds _ _ _ Hf)).
Qed.

Lemma addNode_appends_leaf_to_parent_example :
  findNodeById "a" (treeData (emptyStore parentExample))
  = Some (branch "a" [leaf "y" "Y"])
  /\ map id (forestNodes
               (treeData (snd (addNode sampleId "a"
                                       (mkNewNodeData "New Node" None None None)
                                       (emptyStore parentExample)))))
     = ["a"; "y"; "id-0"]
  /\ fst (addNode sampleId "a" (mkNewNodeData "New Node" None None None)
                  (emptyStore parentExample)) = sampleId 0.
Proof.
  split; [reflexivity|]. split; [reflexivity|].
  exact (proj1 (addNode_appends_leaf_to_parent sampleId "a"
                  (mkNewNodeData "New Node" None None None)
                  (emptyStore parentExample) (branch "a" [leaf "y" "Y"]) eq_refl)).
Defined.

(* ------------------------------------------------------------------ *)
(** ** Operations that rewrite one node in place *)

(** [editNode], [toggleMarker], [deleteLink] and [updateLinkLabel] all map
    the forest with a callback [upd] of one shape: a node that [hit]
    selects is replaced by what [hit] gives, without a look at its children;
    any other node is kept, with the callback mapped over its children. *)
Section UpdateByMap.

Variable upd : KPINode -> KPINode.
Variable hit : KPINode -> option KPINode.
Variable key : string.

Hypothesis upd_eq :
  forall n, upd n = match hit n with
                    | Some n' => n'
                    | None => match children n with
                              | Some cs => withChildren n (Some (map upd cs))
                              | None => n
                              end
                    end.

(** [hit] selects only nodes that carry [key] and keeps their identifier
    and their children. *)
Hypothesis hit_key :
  forall n n', hit n = Some n' ->
               id n = key /\ id n' = id n /\ children n' = children n.

Section Frame.

Variable X : Type.
Variable proj : KPINode -> X.
Hypothesis proj_children : forall n cs, proj (withChildren n cs) = proj n.
Hypothesis proj_hit : forall n n', hit n = Some n' -> proj n' = proj n.



End Frame.

Section Lookup.

Variable X : Type.
Variable proj : KPINode -> X.
Hypothesis proj_children : forall n cs, proj (withChildren n cs) = proj n.

Let projAfter := readAfter hit proj.

Lemma upd_id n : id (upd n) = id n.
Proof.
  rewrite upd_eq. destruct (hit n) as [n'|] eqn:Eh.
  - now destruct (hit_key n n' Eh) as (_ & H & _).
  - destruct (children n); now destruct n.
Qed.

Lemma projAfter_other x forest :
  x <> key ->
  option_map projAfter (findNodeById x forest)
  = option_map proj (findNodeById x forest).
Proof.
  intros Hx.
  pose proof (findNodeById_sound_and_complete_aux x forest) as H.
  destruct (findNodeById x forest) as [m|]; [|reflexivity].
  destruct H as [Hid _]. simpl. unfold projAfter, readAfter.
  destruct (hit m) as [m'|] eqn:Eh; [|reflexivity].
  destruct (hit_key m m' Eh) as (Hk & _). congruence.
Qed.

Lemma updateByMap_lookup_node x n :
  option_map proj (findNodeIn x (upd n))
  = option_map projAfter (findNodeIn x n).
Proof.
  induction n as [n IH] using KPINode_nested_ind.
  rewrite (findNodeIn_eq x (upd n)), (findNodeIn_eq x n), upd_id.
  destruct (id n =? x) eqn:E.
  - simpl. unfold projAfter, readAfter. rewrite upd_eq.
    destruct (hit n) as [n'|]; [reflexivity|].
    destruct (children n); [now rewrite proj_children|reflexivity].
  - rewrite upd_eq. destruct (hit n) as [n'|] eqn:Eh.
    + destruct (hit_key n n' Eh) as (Hk & _ & Hc). rewrite Hc.
      symmetry. apply projAfter_other.
      intros ->. apply String.eqb_neq in E. congruence.
    + destruct (children n) as [cs|] eqn:Ec; [|now rewrite Ec].
      cbn [withChildren children orEmpty].
      specialize (IH cs eq_refl). clear Ec.
      induction IH as [|c cs Hc _ IHcs]; simpl; [reflexivity|].
      destruct (findNodeIn x (upd c)), (findNodeIn x c);
        simpl in Hc; try discriminate; [exact Hc|exact IHcs].
Qed.

(** What a lookup by identifier reads after the operation: what it read
    before on the node it found, or what [hit] made of that node. *)
Lemma updateByMap_lookup x forest :
  option_map proj (findNodeById x (map upd forest))
  = option_map projAfter (findNodeById x forest).
Proof.
  induction forest as [|n forest IH]; simpl; [reflexivity|].
  pose proof (updateByMap_lookup_node x n) as Hn.
  destruct (findNodeIn x (upd n)), (findNodeIn x n);
    simpl in Hn; try discriminate; [exact Hn|exact IH].
Qed.

End Lookup.

End UpdateByMap.

(* ------------------------------------------------------------------ *)
(** ** [editNode] *)




(* ------------------------------------------------------------------ *)
(** ** [toggleMarker] *)







(* ------------------------------------------------------------------ *)
(** ** [deleteLink] and [updateLinkLabel] *)

Lemma unlinkUpdateNode_eq sourceId target n :
  unlinkUpdateNode sourceId target n =
  match unlinkHit sourceId target n with
  | Some n' => n'
  | None => match children n with
            | Some cs => withChildren n (Some (map (unlinkUpdateNode sourceId target) cs))
            | None => n
            end
  end.
Proof.
  destruct n as [i nm ic u e s c ch d r m p]; unfold unlinkHit; simpl.
  now destruct (if i =? sourceId then r else None).
Qed.

Lemma unlinkHit_key sourceId target n n' :
  unlinkHit sourceId target n = Some n' ->
  id n = sourceId /\ id n' = id n /\ children n' = children n.
Proof.
  unfold unlinkHit. destruct (id n =? sourceId) eqn:E; [|discriminate].
  destruct (relationships n); [|discriminate].
  intros [= <-]. apply String.eqb_eq in E. now repeat split.
Qed.






(* ------------------------------------------------------------------ *)
(** ** [createLink] with the other link operations *)

Lemma createLink_success_inv (genLinkId : nat -> string) target lbl st st' :
  createLink genLinkId target lbl st = (true, st') ->
  exists src sourceNode,
    linkSourceId st = Some src
    /\ src <> target
    /\ findNodeById src (treeData st) = Some sourceNode
    /\ hasEdgeTo (relationships sourceNode) target = false
    /\ st' = cancelLinkMode
               (setTree st
                  (map (linkUpdateNode src (mkRel (genLinkId (nextId st)) target lbl))
                       (treeData st))
                  true (S (nextId st))).
Proof.
  intros H. unfold createLink in H.
  destruct (linkSourceId st) as [src|] eqn:Esrc; [|discriminate].
  destruct (src =? "") eqn:E0; [discriminate|].
  destruct (src =? target) eqn:E1; [discriminate|]. simpl in H.
  destruct (findNodeById src (treeData st)) as [sourceNode|] eqn:Ef;
    [|discriminate].
  destruct (hasEdgeTo (relationships sourceNode) target) eqn:Ee; [discriminate|].
  injection H as <-. exists src, sourceNode.
  repeat split; try assumption; try reflexivity.
  now apply String.eqb_neq.
Qed.

Lemma hasEdgeTo_false_filter rs target :
  hasEdgeTo rs target = false ->
  filter (fun r => negb (targetId r =? target)) (orEmpty rs) = orEmpty rs.
Proof.
  unfold hasEdgeTo. induction (orEmpty rs) as [|r l IH]; simpl; [reflexivity|].
  intros H. apply orb_false_iff in H as [H1 H2]. rewrite H1. simpl.
  now rewrite IH.
Qed.

(** X14: [deleteLink] undoes [createLink]: after a link has been created
    and then deleted from its source to its target, the source node has the
    edges it had before the link was created, and the relationships of
    every other node are as they were. *)
Theorem deleteLink_undoes_createLink :
  forall (genLinkId : nat -> string) target lbl st st',
    createLink genLinkId target lbl st = (true, st') ->
    exists src,
      linkSourceId st = Some src
      /\ option_map (fun n => orEmpty (relationships n))
                    (findNodeById src (treeData (deleteLink src target st')))
         = option_map (fun n => orEmpty (relationships n))
                      (findNodeById src (treeData st))
      /\ forall x, x <> src ->
           option_map relationships
                      (findNodeById x (treeData (deleteLink src target st')))
           = option_map relationships (findNodeById x (treeData st)).
Proof.
  intros genLinkId target lbl st st' H.
  destruct (createLink_success_inv _ _ _ _ _ H)
    as (src & sourceNode & Hsrc & Hne & Hf & Hedge & ->).
  exists src. split; [exact Hsrc|].
  unfold deleteLink, deepClone. cbn [setTree treeData cancelLinkMode].
  set (newRel := mkRel (genLinkId (nextId st)) target lbl).
  assert (Hlook : forall (X : Type) (proj : option (list NodeRelationship) -> X) x,
             option_map (fun n => proj (relationships n))
                        (findNodeById x
                           (map (unlinkUpdateNode src target)
                                (map (linkUpdateNode src newRel) (treeData st))))
             = option_map
                 (fun m => proj (if id m =? src
                                 then option_map
                                        (filter (fun r => negb (targetId r =? target)))
                                        (relationships m)
                                 else relationships m))
                 (findNodeById x (map (linkUpdateNode src newRel) (treeData st)))).
  { intros X proj x.
    rewrite (updateByMap_lookup _ _ src (unlinkUpdateNode_eq src target)
               (unlinkHit_key src target) _
               (fun n => proj (relationships n)) (fun n cs => eq_refl)).
    destruct (findNodeById x _) as [m|]; [|reflexivity].
    simpl. unfold readAfter, unlinkHit. f_equal.
    destruct (id m =? src); [|reflexivity].
    now destruct (relationships m). }
  split.
  - rewrite (Hlook _ (fun rs => orEmpty rs) src).
    pose proof (linkUpdate_source src newRel (treeData st)) as Hs.
    pose proof (findNodeById_sound_and_complete_aux src
                  (map (linkUpdateNode src newRel) (treeData st))) as Hid.
    rewrite Hf in Hs |- *. simpl in Hs.
    destruct (findNodeById src (map (linkUpdateNode src newRel) (treeData st)))
      as [m|]; [|discriminate].
    destruct Hid as [Hid _]. injection Hs as Hs. simpl.
    rewrite Hid, String.eqb_refl, Hs. simpl. f_equal.
    rewrite filter_app. simpl. rewrite String.eqb_refl. simpl.
    rewrite app_nil_r. now apply hasEdgeTo_false_filter.
  - intros x Hx. etransitivity; [exact (Hlook _ (fun rs => rs) x)|].
    rewrite <- (linkUpdate_other src newRel x (treeData st) Hx).
    pose proof (findNodeById_sound_and_complete_aux x
                  (map (linkUpdateNode src newRel) (treeData st))) as Hid.
    destruct (findNodeById x (map (linkUpdateNode src newRel) (treeData st)))
      as [m|]; [|reflexivity].
    destruct Hid as [Hid _]. simpl. apply String.eqb_neq in Hx.
    now rewrite Hid, Hx.
Qed.

Lemma deleteLink_undoes_createLink_example :
  createLink sampleId "b" (Some "feeds") linkingStore
  = (true, snd (createLink sampleId "b" (Some "feeds") linkingStore))
  /\ exists src,
       linkSourceId linkingStore = Some src
       /\ option_map (fun n => orEmpty (relationships n))
            (findNodeById src
               (treeData (deleteLink src "b"
                            (snd (createLink sampleId "b" (Some "feeds") linkingStore)))))
          = option_map (fun n => orEmpty (relationships n))
                       (findNodeById src (treeData linkingStore))
       /\ forall x, x <> src ->
            option_map relationships
              (findNodeById x
                 (treeData (deleteLink src "b"
                              (snd (createLink sampleId "b" (Some "feeds") linkingStore)))))
            = option_map relationships (findNodeById x (treeData linkingStore)).
Proof.
  split; [reflexivity|].
  exact (deleteLink_undoes_createLink sampleId "b" (Some "feeds") linkingStore
           (snd (createLink sampleId "b" (Some "feeds") linkingStore)) eq_refl).
Defined.

(** X15: [createLink] never stores a second edge to the same target: once
    a link has been created, link mode is off and the link source is
    cleared, and entering link mode again from the same source and asking
    for the same target is refused and leaves the forest as it is. *)
Theorem createLink_refuses_duplicate :
  forall (genLinkId : nat -> string) target lbl st st',
    createLink genLinkId target lbl st = (true, st') ->
    linkingMode st' = false /\ linkSourceId st' = None
    /\ exists src,
         linkSourceId st = Some src
         /\ forall lbl2 sourceName,
              fst (createLink genLinkId target lbl2
                              (startLinkMode src sourceName st')) = false
              /\ treeData (snd (createLink genLinkId target lbl2
                                           (startLinkMode src sourceName st')))
                 = treeData st'.
Proof.
  intros genLinkId target lbl st st' H.
  destruct (createLink_success_inv _ _ _ _ _ H)
    as (src & sourceNode & Hsrc & Hne & Hf & Hedge & ->).
  split; [reflexivity|]. split; [reflexivity|].
  exists src. split; [exact Hsrc|].
  intros lbl2 sourceName.
  set (newRel := mkRel (genLinkId (nextId st)) target lbl).
  unfold createLink, startLinkMode. cbn [linkSourceId treeData cancelLinkMode setTree].
  assert (E0 : (src =? "") = false).
  { unfold createLink in H. rewrite Hsrc in H.
    destruct (src =? ""); [discriminate|reflexivity]. }
  apply String.eqb_neq in Hne. rewrite E0, Hne. cbn [orb].
  pose proof (linkUpdate_source src newRel (treeData st)) as Hs.
  rewrite Hf in Hs. simpl in Hs.
  destruct (findNodeById src (map (linkUpdateNode src newRel) (treeData st)))
    as [m|]; [|discriminate].
  injection Hs as Hs.
  assert (Hm : hasEdgeTo (relationships m) target = true).
  { unfold hasEdgeTo. rewrite Hs. simpl. rewrite existsb_app. simpl.
    rewrite String.eqb_refl. now rewrite orb_true_r. }
  rewrite Hm. now split.
Qed.

Lemma createLink_refuses_duplicate_example :
  createLink sampleId "b" None linkingStore
  = (true, snd (createLink sampleId "b" None linkingStore))
  /\ fst (createLink sampleId "b" (Some "again")
            (startLinkMode "a" "A" (snd (createLink sampleId "b" None linkingStore))))
     = false.
Proof.
  split; [reflexivity|].
  destruct (createLink_refuses_duplicate sampleId "b" None linkingStore
              (snd (createLink sampleId "b" None linkingStore)) eq_refl)
    as (_ & _ & src & Hsrc & Hdup).
  injection Hsrc as <-.
  exact (proj1 (Hdup (Some "again") "A")).
Defined.

(* ------------------------------------------------------------------ *)
(** ** [addSiblingNode] *)

Lemma addAsSiblingStep_eq siblingId newNode pos node added :
  addAsSiblingStep siblingId newNode pos node added =
  if id node =? siblingId then
    (match pos with
     | Before => [newNode; node]
     | After => [node; newNode]
     end, true)
  else match children node with
       | Some cs =>
           let '(cs', added') := addAsSibling siblingId newNode pos cs added in
           ([withChildren node (Some cs')], added')
       | None => ([node], added)
       end.
Proof.
  destruct node as [i nm ic u e s c ch d r m p]; simpl.
  destruct (i =? siblingId); [reflexivity|].
  destruct ch as [cs|]; [|reflexivity].
  match goal with
  | |- context [?f cs added] =>
      lazymatch f with
      | addAsSibling _ _ _ => fail
      | _ => assert (E : forall l a, f l a = addAsSibling siblingId newNode pos l a)
      end
  end.
  { clear. induction l as [|c0 l IH]; intros a; simpl; [reflexivity|].
    destruct (addAsSiblingStep siblingId newNode pos c0 a) as [pushed a1].
    now rewrite IH. }
  now rewrite E.
Qed.

Lemma addAsSibling_absent_gen siblingId newNode pos l :
  Forall (fun n => forall a, (forall m, In m (nodesOf n) -> id m <> siblingId) ->
                    addAsSiblingStep siblingId newNode pos n a = ([n], a)) l ->
  forall a, (forall m, In m (forestNodes l) -> id m <> siblingId) ->
            addAsSibling siblingId newNode pos l a = (l, a).
Proof.
  induction 1 as [|n l Hn _ IH]; intros a Hno; simpl; [reflexivity|].
  rewrite Hn, IH; [reflexivity| |];
    intros m Hm; apply Hno; simpl; apply in_or_app; [now right|now left].
Qed.

Lemma addAsSiblingStep_absent siblingId newNode pos n :
  forall a, (forall m, In m (nodesOf n) -> id m <> siblingId) ->
            addAsSiblingStep siblingId newNode pos n a = ([n], a).
Proof.
  induction n as [n IH] using KPINode_nested_ind.
  intros a Hno. rewrite addAsSiblingStep_eq.
  assert (Hn : (id n =? siblingId) = false).
  { apply String.eqb_neq, Hno. rewrite nodesOf_eq. now left. }
  rewrite Hn.
  destruct (children n) as [cs|] eqn:Ec; [|reflexivity].
  rewrite (addAsSibling_absent_gen siblingId newNode pos cs (IH cs eq_refl)).
  - rewrite <- Ec. now rewrite withChildren_same.
  - intros m Hm. apply Hno. rewrite nodesOf_eq, Ec. now right.
Qed.

Lemma addAsSibling_absent siblingId newNode pos forest a :
  (forall m, In m (forestNodes forest) -> id m <> siblingId) ->
  addAsSibling siblingId newNode pos forest a = (forest, a).
Proof.
  apply addAsSibling_absent_gen, Forall_forall.
  intros n _ a0. apply addAsSiblingStep_absent.
Qed.

Lemma addAsSibling_flag_gen siblingId newNode pos l :
  Forall (fun n => forall a,
              snd (addAsSiblingStep siblingId newNode pos n a)
              = a || existsb (fun m => id m =? siblingId) (nodesOf n)) l ->
  forall a,
    snd (addAsSibling siblingId newNode pos l a)
    = a || existsb (fun m => id m =? siblingId) (forestNodes l).
Proof.
  induction 1 as [|n l Hn _ IH]; intros a; simpl; [now rewrite orb_false_r|].
  specialize (Hn a).
  destruct (addAsSiblingStep siblingId newNode pos n a) as [pushed a1].
  simpl in Hn. subst a1.
  specialize (IH (a || existsb (fun m => id m =? siblingId) (nodesOf n))).
  destruct (addAsSibling siblingId newNode pos l _) as [r' a2].
  simpl in *. subst a2. now rewrite existsb_app, orb_assoc.
Qed.

Lemma addAsSiblingStep_flag siblingId newNode pos n :
  forall a,
    snd (addAsSiblingStep siblingId newNode pos n a)
    = a || existsb (fun m => id m =? siblingId) (nodesOf n).
Proof.
  induction n as [n IH] using KPINode_nested_ind.
  intros a. rewrite addAsSiblingStep_eq, nodesOf_eq. simpl existsb.
  destruct (id n =? siblingId); [now rewrite orb_true_r|].
  destruct (children n) as [cs|] eqn:Ec; [|now rewrite orb_false_r].
  pose proof (addAsSibling_flag_gen siblingId newNode pos cs (IH cs eq_refl) a) as H.
  destruct (addAsSibling siblingId newNode pos cs a) as [cs' a']. exact H.
Qed.

Lemma addAsSibling_flag siblingId newNode pos forest a :
  snd (addAsSibling siblingId newNode pos forest a)
  = a || existsb (fun m => id m =? siblingId) (forestNodes forest).
Proof.
  apply addAsSibling_flag_gen, Forall_forall.
  intros n _ a0. apply addAsSiblingStep_flag.
Qed.

(** X16: [addSiblingNode] answers [null] exactly when no node carries the
    identifier of the anchor, and then the forest and the unsaved-changes
    flag are as they were; when a node carries it, the answer is the
    identifier drawn for the new node and the flag is set. *)
Theorem addSiblingNode_answers_null_for_missing_anchor :
  forall (genNodeId : nat -> string) siblingId nodeData pos st,
    match findNodeById siblingId (treeData st) with
    | None =>
        fst (addSiblingNode genNodeId siblingId nodeData pos st) = None
        /\ treeData (snd (addSiblingNode genNodeId siblingId nodeData pos st))
           = treeData st
        /\ hasUnsavedChanges (snd (addSiblingNode genNodeId siblingId nodeData pos st))
           = hasUnsavedChanges st
    | Some _ =>
        fst (addSiblingNode genNodeId siblingId nodeData pos st)
        = Some (genNodeId (nextId st))
        /\ hasUnsavedChanges (snd (addSiblingNode genNodeId siblingId nodeData pos st))
           = true
    end.
Proof.
  intros genNodeId siblingId nodeData pos st.
  pose proof (findNodeById_sound_and_complete_aux siblingId (treeData st)) as H.
  unfold addSiblingNode, deepClone.
  destruct (findNodeById siblingId (treeData st)) as [n|].
  - destruct H as [Hid Hin].
    pose proof (addAsSibling_flag siblingId
                  (mkKPINode (genNodeId (nextId st)) (nd_name nodeData) None
                             (nd_unit nodeData) (nd_esg nodeData) (nd_scope nodeData)
                             (Some metric) None None None None None)
                  pos (treeData st) false) as Hflag.
    destruct (addAsSibling siblingId _ pos (treeData st) false) as [nodes added].
    simpl in Hflag. subst added.
    replace (existsb (fun m => id m =? siblingId) (forestNodes (treeData st)))
      with true.
    + now split.
    + symmetry. apply existsb_exists. exists n. split; [exact Hin|].
      now apply String.eqb_eq.
  - rewrite (addAsSibling_absent siblingId _ pos (treeData st) false H).
    now repeat split.
Qed.

Lemma addAsSiblingStep_other siblingId newNode pos n a :
  id n <> siblingId ->
  exists n', fst (addAsSiblingStep siblingId newNode pos n a) = [n']
             /\ id n' = id n.
Proof.
  intros Hne. rewrite addAsSiblingStep_eq.
  apply String.eqb_neq in Hne. rewrite Hne.
  destruct (children n) as [cs|].
  - destruct (addAsSibling siblingId newNode pos cs a) as [cs' a'].
    eexists. split; [reflexivity|]. now destruct n.
  - now exists n.
Qed.

(** X17: when the anchor is a top-level node, the first with its
    identifier, [addSiblingNode] puts the new node right beside it at the
    top level: at the index of the anchor for ['before'], the anchor moving
    one place on, and at the next index for ['after']; the top-level nodes
    in front keep their places. *)
Theorem addSiblingNode_inserts_beside_top_level_anchor :
  forall (genNodeId : nat -> string) nodeData pos st i anchor,
    nth_error (treeData st) i = Some anchor ->
    (forall j m, j < i -> nth_error (treeData st) j = Some m -> id m <> id anchor) ->
    let forest' :=
      treeData (snd (addSiblingNode genNodeId (id anchor) nodeData pos st)) in
    let newNode := freshLeaf (genNodeId (nextId st)) nodeData in
    (match pos with
     | Before => nth_error forest' i = Some newNode
                 /\ nth_error forest' (S i) = Some anchor
     | After => nth_error forest' i = Some anchor
                /\ nth_error forest' (S i) = Some newNode
     end)
    /\ forall j, j < i ->
         option_map id (nth_error forest' j)
         = option_map id (nth_error (treeData st) j).
Proof.
  intros genNodeId nodeData pos st i anchor Hi Hfirst forest' newNode.
  subst forest'. unfold addSiblingNode, deepClone.
  fold (freshLeaf (genNodeId (nextId st)) nodeData). fold newNode.
  generalize false as a.
  revert i Hi Hfirst. generalize (treeData st) as forest.
  induction forest as [|n forest IH]; intros i Hi Hfirst a;
    [now destruct i|].
  destruct i as [|i].
  - injection Hi as ->. cbn [addAsSibling]. rewrite addAsSiblingStep_eq.
    rewrite String.eqb_refl.
    destruct (addAsSibling (id anchor) newNode pos forest true) as [r' a2].
    cbn [fst snd setTree treeData].
    split; [destruct pos; now split|]. intros j Hj. lia.
  - cbn [addAsSibling].
    assert (Hn : id n <> id anchor).
    { apply (Hfirst 0 n); [lia|reflexivity]. }
    destruct (addAsSiblingStep_other (id anchor) newNode pos n a Hn)
      as (n' & Hn' & Hid').
    destruct (addAsSiblingStep (id anchor) newNode pos n a) as [pushed a1].
    simpl in Hn'. subst pushed.
    specialize (IH i Hi).
    assert (Hfirst' : forall j m, j < i -> nth_error forest j = Some m ->
                                  id m <> id anchor).
    { intros j m Hj Hm. apply (Hfirst (S j) m); [lia|exact Hm]. }
    specialize (IH Hfirst' a1).
    destruct (addAsSibling (id anchor) newNode pos forest a1) as [r' a2].
    cbn [fst snd setTree treeData app] in *.
    destruct IH as [IH1 IH2].
    split; [exact IH1|].
    intros [|j] Hj; [simpl; now rewrite Hid'|].
    simpl. apply IH2. lia.
Qed.

Lemma addSiblingNode_inserts_beside_top_level_anchor_example :
  nth_error (treeData (emptyStore threeRoots)) 1 = Some (leaf "two" "Two")
  /\ map id (treeData (snd (addSiblingNode sampleId "two"
                                           (mkNewNodeData "New Node" None None None)
                                           Before (emptyStore threeRoots))))
     = ["one"; "id-0"; "two"; "three"]
  /\ nth_error (treeData (snd (addSiblingNode sampleId (id (leaf "two" "Two"))
                                              (mkNewNodeData "New Node" None None None)
                                              Before (emptyStore threeRoots)))) 1
     = Some (freshLeaf (sampleId 0) (mkNewNodeData "New Node" None None None)).
Proof.
  split; [reflexivity|]. split; [reflexivity|].
  refine (proj1 (proj1 (addSiblingNode_inserts_beside_top_level_anchor sampleId
                          (mkNewNodeData "New Node" None None None) Before
                          (emptyStore threeRoots) 1 (leaf "two" "Two")
                          eq_refl _))).
  intros [|j] m Hj Hm; [|lia].
  injection Hm as <-. discriminate.
Defined.

(* ------------------------------------------------------------------ *)
(** ** [getAllNodes] *)

Lemma entriesOf_fields path n :
  map (fun e => (entry_id e, entry_name e, entry_hasChildren e, entry_category e))
      (entriesOf path n)
  = map (fun m => (id m, name m, hasKids m, inferCategory m)) (nodesOf n).
Proof.
  revert path.
  induction n as [n IH] using KPINode_nested_ind.
  intros path. rewrite nodesOf_eq.
  destruct n as [i nm ic u e s c ch d r m p]; simpl in *.
  f_equal.
  destruct ch as [cs|]; simpl; [|reflexivity].
  specialize (IH cs eq_refl). unfold forestNodes.
  induction IH as [|c0 cs Hc _ IHcs]; simpl; [reflexivity|].
  now rewrite !map_app, Hc, IHcs.
Qed.

(** X18: [getAllNodes] lists the entry of the root sentinel first and then
    one entry for every node of the forest, in pre-order, with the
    identifier and name of the node, whether it has a child, and its
    inferred category. *)
Theorem getAllNodes_lists_sentinel_then_every_node :
  forall forest,
    map (fun e => (entry_id e, entry_name e, entry_hasChildren e, entry_category e))
        (getAllNodes forest)
    = ("__root__", "Root Level", true, root)
      :: map (fun m => (id m, name m, hasKids m, inferCategory m))
             (forestNodes forest).
Proof.
  intros forest. unfold getAllNodes. simpl. f_equal.
  unfold forestNodes.
  induction forest as [|n forest IH]; simpl; [reflexivity|].
  now rewrite !map_app, entriesOf_fields, IH.
Qed.

(* ------------------------------------------------------------------ *)
(** ** [duplicateNode] at the top level *)

Lemma findIndex_unique forest :
  forall i n,
    NoDup (forestIds forest) -> nth_error forest i = Some n ->
    findIndex (fun m => id m =? id n) forest = i.
Proof.
  induction forest as [|m forest IH]; intros i n Hnd Hi; [now destruct i|].
  rewrite forestIds_cons in Hnd. simpl.
  destruct i as [|i].
  - injection Hi as ->. now rewrite String.eqb_refl.
  - simpl in Hi.
    assert (Hne : (id m =? id n) = false).
    { apply String.eqb_neq. intros E.
      apply (NoDup_app_disjoint _ _ Hnd (id m)).
      - rewrite nodesOf_ids. now left.
      - rewrite E. unfold forestIds. apply in_map.
        apply In_forestNodes_top. now apply nth_error_In with i. }
    rewrite Hne. f_equal.
    apply IH; [exact (NoDup_app_remove_l _ _ Hnd)|exact Hi].
Qed.

(** X21: in a forest with unique identifiers, duplicating the top-level
    node at index [i] gives the forest with the clone that
    [duplicateWithNewIds] builds spliced in at index [i + 1]: the clone
    comes right after the node, and every node that was there stays as it
    was. *)
Theorem duplicateNode_splices_clone_after_top_level_node :
  forall (genNodeId : nat -> string) st i n,
    NoDup (forestIds (treeData st)) ->
    nth_error (treeData st) i = Some n ->
    treeData (duplicateNode genNodeId (id n) st)
    = firstn (S i) (treeData st)
      ++ fst (duplicateWithNewIds genNodeId n (nextId st))
      :: skipn (S i) (treeData st).
Proof.
  intros genNodeId st i n Hnd Hi.
  assert (Hin : In n (treeData st)) by now apply nth_error_In with i.
  rewrite (duplicateNode_top_level genNodeId (id n) st n).
  - rewrite (findIndex_unique _ i n Hnd Hi), Nat.add_1_r. reflexivity.
  - apply findNodeById_unique; [exact Hnd|now apply In_forestNodes_top].
  - apply existsb_exists. exists n. split; [exact Hin|apply String.eqb_refl].
Qed.

Lemma duplicateNode_splices_clone_example :
  NoDup (forestIds (treeData (emptyStore threeRoots)))
  /\ map id (forestNodes (treeData (duplicateNode sampleId "one" (emptyStore threeRoots))))
     = ["one"; "kid"; "id-0"; "id-1"; "two"; "three"]
  /\ treeData (duplicateNode sampleId (id (branch "one" [leaf "kid" "Kid"]))
                             (emptyStore threeRoots))
     = firstn 1 (treeData (emptyStore threeRoots))
       ++ fst (duplicateWithNewIds sampleId (branch "one" [leaf "kid" "Kid"])
                                   (nextId (emptyStore threeRoots)))
       :: skipn 1 (treeData (emptyStore threeRoots)).
Proof.
  assert (Hnd : NoDup (forestIds (treeData (emptyStore threeRoots)))).
  { simpl. repeat constructor; simpl; intuition discriminate. }
  split; [exact Hnd|]. split; [reflexivity|].
  exact (duplicateNode_splices_clone_after_top_level_node sampleId
           (emptyStore threeRoots) 0 (branch "one" [leaf "kid" "Kid"])
           Hnd eq_refl).
Defined.

(* ================================================================== *)
(** * Further properties of the XMind codec *)

(** ** Name and unit in the title of a topic *)

Lemma dropSpaces_length s :
  dropSpaces s = s \/ (String.length (dropSpaces s) < String.length s)%nat.
Proof.
  induction s as [|c r IH]; [now left|].
  cbn [dropSpaces]. destruct (isSpace c); [|now left].
  right. cbn [String.length]. destruct IH as [->|IH]; lia.
Qed.

Lemma trimEnd_length s : (String.length (trimEnd s) <= String.length s)%nat.
Proof.
  induction s as [|c r IH]; [reflexivity|].
  cbn [trimEnd]. destruct (isSpace c && (trimEnd r =? "")); cbn [String.length]; lia.
Qed.

(** A trimmed string starts and ends with its own characters. *)
Lemma trim_fixed s : trim s = s -> dropSpaces s = s /\ trimEnd s = s.
Proof.
  unfold trim. intros H.
  assert (E : dropSpaces s = s).
  { destruct (dropSpaces_length s) as [E|L]; [exact E|].
    pose proof (trimEnd_length (dropSpaces s)) as L'. rewrite H in L'. lia. }
  split; [exact E|]. now rewrite E in H.
Qed.

Lemma trimEnd_tail c r : trimEnd (String c r) = String c r -> trimEnd r = r.
Proof.
  cbn [trimEnd]. destruct (isSpace c && (trimEnd r =? "")); [discriminate|].
  now intros [= ->].
Qed.

Lemma dropSpaces_empty_trimEnd s : dropSpaces s = "" -> trimEnd s = "".
Proof.
  induction s as [|c r IH]; [reflexivity|].
  cbn [dropSpaces trimEnd]. destruct (isSpace c); [|discriminate].
  intros H. rewrite (IH H). reflexivity.
Qed.

(** In front of other text, white space is dropped up to the first
    character of [s] that is none. *)
Lemma dropSpaces_app s t :
  dropSpaces s <> "" -> dropSpaces (s ++ t) = (dropSpaces s ++ t)%string.
Proof.
  induction s as [|c r IH]; [now intros []|].
  cbn [dropSpaces append]. destruct (isSpace c); [exact IH|reflexivity].
Qed.

Lemma allChars_dropSpaces p s : allChars p s = true -> allChars p (dropSpaces s) = true.
Proof.
  induction s as [|c r IH]; [reflexivity|].
  intros H. cbn [dropSpaces]. destruct (isSpace c); [|exact H].
  apply IH. cbn [allChars] in H. now apply andb_prop in H.
Qed.

Lemma spanNotClose_unit u t :
  allChars (fun c => negb (isCloseParen c)) u = true ->
  spanNotClose (u ++ String ")" t) = (u, String ")" t).
Proof.
  induction u as [|c r IH]; [reflexivity|].
  cbn [allChars append spanNotClose]. intros H.
  apply andb_prop in H as [Hc Hr]. apply negb_true_iff in Hc. rewrite Hc.
  now rewrite (IH Hr).
Qed.

Lemma spanNotClose_all s :
  allChars (fun c => negb (isCloseParen c)) s = true ->
  spanNotClose s = (s, "").
Proof.
  induction s as [|c r IH]; [reflexivity|].
  cbn [allChars spanNotClose]. intros H.
  apply andb_prop in H as [Hc Hr]. apply negb_true_iff in Hc. rewrite Hc.
  now rewrite (IH Hr).
Qed.

(** The rest of the pattern matches a unit in parentheses. *)
Lemma matchUnitSuffix_unit u :
  u <> "" ->
  allChars (fun c => negb (isCloseParen c)) u = true ->
  matchUnitSuffix (" (" ++ u ++ ")") = Some u.
Proof.
  intros Hne Hu. unfold matchUnitSuffix.
  change (dropSpaces (" (" ++ u ++ ")")) with (String "(" (u ++ ")")).
  cbv iota beta.
  change (isOpenParen "(") with true. cbv iota.
  rewrite (spanNotClose_unit u "" Hu).
  destruct u as [|c r]; [now destruct Hne|]. reflexivity.
Qed.

(** The rest of the pattern does not match in front of a character of the
    name. *)
Lemma matchUnitSuffix_name s t :
  s <> "" -> trimEnd s = s ->
  allChars (fun c => negb (isLineTerminator c) && negb (isOpenParen c)) s = true ->
  matchUnitSuffix (s ++ t) = None.
Proof.
  intros Hne Ht Hs.
  assert (Hd : dropSpaces s <> "").
  { intros E. apply dropSpaces_empty_trimEnd in E. congruence. }
  unfold matchUnitSuffix. rewrite (dropSpaces_app s t Hd).
  apply allChars_dropSpaces in Hs.
  destruct (dropSpaces s) as [|c r]; [now destruct Hd|].
  cbn [append]. cbn [allChars] in Hs.
  apply andb_prop in Hs as [Hc _]. apply andb_prop in Hc as [_ Hc].
  apply negb_true_iff in Hc. now rewrite Hc.
Qed.

Lemma append_snoc g c s : ((g ++ String c "") ++ s)%string = (g ++ String c s)%string.
Proof. induction g as [|a g IH]; cbn [append]; [reflexivity|now rewrite IH]. Qed.

(** The lazy first group stops at the end of the name. *)
Lemma unitMatchFrom_name_unit u s :
  u <> "" ->
  allChars (fun c => negb (isCloseParen c)) u = true ->
  s <> "" -> trimEnd s = s ->
  allChars (fun c => negb (isLineTerminator c) && negb (isOpenParen c)) s = true ->
  forall g1,
    unitMatchFrom g1 (s ++ " (" ++ u ++ ")") = Some ((g1 ++ s)%string, u).
Proof.
  intros Hne Hu.
  induction s as [|c r IH]; [now intros []|].
  intros _ Ht Hs g1. cbn [append unitMatchFrom].
  pose proof Hs as Hs'. cbn [allChars] in Hs'.
  apply andb_prop in Hs' as [Hc Hr]. apply andb_prop in Hc as [Hc _].
  apply negb_true_iff in Hc. rewrite Hc.
  destruct r as [|c' r'].
  - cbn [append]. change (String " " (String "(" (u ++ ")")))
      with (" (" ++ u ++ ")")%string.
    now rewrite (matchUnitSuffix_unit u Hne Hu).
  - assert (Hne' : String c' r' <> "") by discriminate.
    pose proof (trimEnd_tail c (String c' r') Ht) as Ht'.
    rewrite (matchUnitSuffix_name (String c' r') _ Hne' Ht' Hr).
    rewrite (IH Hne' Ht' Hr). now rewrite append_snoc.
Qed.

Lemma matchUnitSuffix_no_close s :
  allChars (fun c => negb (isCloseParen c)) s = true ->
  matchUnitSuffix s = None.
Proof.
  intros H. apply allChars_dropSpaces in H. unfold matchUnitSuffix.
  destruct (dropSpaces s) as [|c r]; [reflexivity|].
  cbn [allChars] in H. apply andb_prop in H as [_ Hr].
  destruct (isOpenParen c); [|reflexivity].
  rewrite (spanNotClose_all r Hr). now destruct r.
Qed.

Lemma unitMatchFrom_no_close s :
  allChars (fun c => negb (isCloseParen c)) s = true ->
  forall g1, unitMatchFrom g1 s = None.
Proof.
  induction s as [|c r IH]; [reflexivity|].
  intros H g1. cbn [allChars] in H. apply andb_prop in H as [_ Hr].
  cbn [unitMatchFrom]. destruct (isLineTerminator c); [reflexivity|].
  rewrite (matchUnitSuffix_no_close r Hr). now apply IH.
Qed.

(** The title of a plain name and a plain unit splits into the two. *)
Lemma splitTitle_joinTitle_plain nm u :
  plainName nm -> plainUnit u ->
  joinTitle nm (Some u) = (nm ++ " (" ++ u ++ ")")%string
  /\ splitTitle (nm ++ " (" ++ u ++ ")") = (nm, Some u).
Proof.
  intros (_ & Hn & Hnt & Hnc) (_ & Hu & Hut & Huc).
  assert (Eu : (u =? "") = false) by now apply String.eqb_neq.
  assert (En : (nm =? "") = false) by now apply String.eqb_neq.
  split.
  - unfold joinTitle, truthyStr. now rewrite Eu.
  - unfold splitTitle, unitMatch.
    destruct (trim_fixed nm Hnt) as [_ Hte].
    rewrite (unitMatchFrom_name_unit u nm Hu Huc Hn Hte Hnc "").
    cbn [append]. rewrite En, Eu. cbn [negb andb]. now rewrite Hnt, Hut.
Qed.

(** A title without a closing parenthesis is a name without a unit. *)
Lemma splitTitle_no_close title :
  allChars (fun c => negb (isCloseParen c)) title = true ->
  splitTitle title = (title, None).
Proof.
  intros H. unfold splitTitle, unitMatch.
  now rewrite (unitMatchFrom_no_close title H "").
Qed.
(** X22: a node whose name is plain (ASCII text, not empty, trimmed,
    without line terminator and opening parenthesis) and whose unit is
    plain (ASCII text, not empty, trimmed, without closing parenthesis) is
    written by [kpiNodeToXMindTopic] and read back by
    [xmindTopicToKPINode] with the same name and the same unit. *)
Theorem plain_name_and_unit_survive_the_title :
  forall isDet n u,
    unit n = Some u -> plainName (name n) -> plainUnit u ->
    name (reimported isDet n) = name n
    /\ unit (reimported isDet n) = Some u.
Proof.
  intros isDet n u Hu Hn Hpu.
  destruct (reimported_fields isDet n) as (_ & Hnu & _).
  destruct (splitTitle_joinTitle_plain (name n) u Hn Hpu) as [Hj Hs].
  rewrite Hu, Hj, Hs in Hnu. now injection Hnu as -> ->.
Qed.

Lemma plain_name_and_unit_survive_example :
  (unit obVolumeNode = Some "bcm"
   /\ plainName (name obVolumeNode) /\ plainUnit "bcm")
  /\ name (reimported false obVolumeNode) = name obVolumeNode
  /\ unit (reimported false obVolumeNode) = Some "bcm".
Proof.
  assert (Hn : plainName (name obVolumeNode)).
  { split; [reflexivity|]. split; [discriminate|]. split; reflexivity. }
  assert (Hu : plainUnit "bcm").
  { split; [reflexivity|]. split; [discriminate|]. split; reflexivity. }
  split; [split; [reflexivity|split; [exact Hn|exact Hu]]|].
  exact (plain_name_and_unit_survive_the_title false obVolumeNode "bcm"
           eq_refl Hn Hu).
Defined.

(** X23: a node without a unit (undefined, or the empty string) whose
    name is ASCII text comes back with its name and without a unit when the
    name has no closing parenthesis; when the name is a plain name followed
    by a space and a plain unit in parentheses, it comes back split, the
    parenthesised part as its unit. *)
Theorem unitless_name_survives_unless_parenthesised :
  forall isDet n,
    truthyStr (unit n) = false ->
    asciiText (name n) ->
    (allChars (fun c => negb (isCloseParen c)) (name n) = true ->
     name (reimported isDet n) = name n /\ unit (reimported isDet n) = None)
    /\ (forall nm u,
           name n = (nm ++ " (" ++ u ++ ")")%string ->
           plainName nm -> plainUnit u ->
           name (reimported isDet n) = nm
           /\ unit (reimported isDet n) = Some u).
Proof.
  intros isDet n Hu _.
  destruct (reimported_fields isDet n) as (_ & Hnu & _).
  unfold joinTitle in Hnu. rewrite Hu in Hnu. split.
  - intros Hc. rewrite (splitTitle_no_close (name n) Hc) in Hnu.
    now injection Hnu as -> ->.
  - intros nm u Hname Hn Hpu.
    destruct (splitTitle_joinTitle_plain nm u Hn Hpu) as [_ Hs].
    rewrite Hname, Hs in Hnu. now injection Hnu as -> ->.
Qed.

Lemma unitless_name_example :
  (truthyStr (unit (leaf "k" "Coal")) = false
   /\ asciiText (name (leaf "k" "Coal"))
   /\ allChars (fun c => negb (isCloseParen c)) (name (leaf "k" "Coal")) = true
   /\ name (reimported false (leaf "k" "Coal")) = "Coal"
   /\ unit (reimported false (leaf "k" "Coal")) = None)
  /\ (truthyStr (unit productionNode) = false
      /\ asciiText (name productionNode)
      /\ name productionNode = ("Production" ++ " (" ++ "Revenue" ++ ")")%string
      /\ plainName "Production" /\ plainUnit "Revenue"
      /\ name (reimported false productionNode) = "Production"
      /\ unit (reimported false productionNode) = Some "Revenue").
Proof.
  assert (Hn : plainName "Production").
  { split; [reflexivity|]. split; [discriminate|]. split; reflexivity. }
  assert (Hu : plainUnit "Revenue").
  { split; [reflexivity|]. split; [discriminate|]. split; reflexivity. }
  split.
  - split; [reflexivity|]. split; [reflexivity|]. split; [reflexivity|].
    exact (proj1 (unitless_name_survives_unless_parenthesised
                    false (leaf "k" "Coal") eq_refl eq_refl) eq_refl).
  - split; [reflexivity|]. split; [reflexivity|]. split; [reflexivity|].
    split; [exact Hn|]. split; [exact Hu|].
    exact (proj2 (unitless_name_survives_unless_parenthesised
                    false productionNode eq_refl eq_refl)
                 "Production" "Revenue" eq_refl Hn Hu).
Defined.

(* ------------------------------------------------------------------ *)
(** ** What [processRelationships] leaves alone *)

Section RelationshipFrame.

Variable X : Type.
Variable proj : KPINode -> X.
Hypothesis proj_relationships : forall n rs, proj (withRelationships n rs) = proj n.
Hypothesis proj_children : forall n cs, proj (withChildren n cs) = proj n.

Lemma nodesOf_frame_appendRels extra n :
  map proj (nodesOf (appendRels extra n)) = map proj (nodesOf n).
Proof.
  rewrite !nodesOf_eq. unfold appendRels. cbn [map].
  rewrite proj_relationships. now destruct n.
Qed.

Lemma forestNodes_setIndex_frame forest :
  forall i old new,
    nth_error forest i = Some old ->
    map proj (nodesOf new) = map proj (nodesOf old) ->
    map proj (forestNodes (setIndex i new forest))
    = map proj (forestNodes forest).
Proof.
  unfold forestNodes.
  induction forest as [|a forest IH]; intros [|i] old new Hi Hinfo;
    simpl in *; try discriminate; rewrite !map_app.
  - injection Hi as ->. now rewrite Hinfo.
  - f_equal. now apply IH with old.
Qed.

Lemma updateAt_frame extra ref :
  forall forest,
    map proj (forestNodes (updateAt ref (appendRels extra) forest))
    = map proj (forestNodes forest).
Proof.
  induction ref as [|i rest IH]; intros forest; simpl; [reflexivity|].
  destruct (nth_error forest i) as [n|] eqn:Ei; [|reflexivity].
  destruct rest as [|j rest'].
  - apply forestNodes_setIndex_frame with n; [exact Ei|].
    apply nodesOf_frame_appendRels.
  - destruct (children n) as [cs|] eqn:Ec; [|reflexivity].
    apply forestNodes_setIndex_frame with n; [exact Ei|].
    rewrite !nodesOf_eq. cbn [withChildren children orEmpty].
    rewrite !map_cons, IH, Ec. f_equal. apply proj_children.
Qed.

Lemma processRelationships_frame nodes rels :
  map proj (forestNodes (processRelationships nodes rels))
  = map proj (forestNodes nodes).
Proof.
  unfold processRelationships. generalize (buildNodeIdMap nodes) as nodeMap.
  intros nodeMap. generalize nodes as forest.
  induction rels as [|rel rels IH]; intros forest; simpl; [reflexivity|].
  rewrite IH, processRelationship_eq.
  destruct (mapGet (end1Id rel) nodeMap) as [sRef|]; [|reflexivity].
  destruct (mapGet (end2Id rel) nodeMap) as [tRef|]; [|reflexivity].
  cbv zeta.
  match goal with |- context [if ?b then _ else _] => destruct b end;
    now rewrite !updateAt_frame.
Qed.

End RelationshipFrame.

Lemma processRelationships_unresolved nodeMap rels :
  Forall (unresolvedIn nodeMap) rels ->
  forall forest, fold_left (processRelationship nodeMap) rels forest = forest.
Proof.
  induction 1 as [|rel rels Hrel _ IH]; intros forest; simpl; [reflexivity|].
  rewrite IH. unfold processRelationship.
  destruct Hrel as [-> | E]; [reflexivity|].
  rewrite E. now destruct (mapGet (end1Id rel) nodeMap).
Qed.

(** X25: [processRelationships] changes nothing but relationships, and
    those only by pushing.  The nodes stay where they are with every other
    field as it was; at every place of the forest the node keeps its
    identifier and its relationships, possibly followed by more; and when
    every record has an end that no node carries, the forest is as it
    was. *)
Theorem processRelationships_only_pushes_relationships :
  forall nodes rels,
    map linkFrame (forestNodes (processRelationships nodes rels))
    = map linkFrame (forestNodes nodes)
    /\ Grows nodes (processRelationships nodes rels)
    /\ (Forall (unresolvedIn (buildNodeIdMap nodes)) rels ->
        processRelationships nodes rels = nodes).
Proof.
  intros nodes rels. split; [|split].
  - apply processRelationships_frame; intros n x; reflexivity.
  - apply fold_processRelationship_Grows.
  - intros H. now apply processRelationships_unresolved.
Qed.

Lemma processRelationships_unresolved_example :
  Forall (unresolvedIn (buildNodeIdMap fullForest))
         [mkXRel "r1" "e1" "gone" None None]
  /\ processRelationships fullForest [mkXRel "r1" "e1" "gone" None None]
     = fullForest.
Proof.
  assert (H : Forall (unresolvedIn (buildNodeIdMap fullForest))
                     [mkXRel "r1" "e1" "gone" None None]).
  { constructor; [now right|constructor]. }
  split; [exact H|].
  exact (proj2 (proj2 (processRelationships_only_pushes_relationships
                         fullForest [mkXRel "r1" "e1" "gone" None None])) H).
Defined.

(* ------------------------------------------------------------------ *)
(** ** Export and import of a whole forest *)

(** What a topic carries of a node besides the title and the children. *)
Lemma reimported_frame isDet n :
  isDetached (reimported isDet n) = Some isDet
  /\ orEmpty (markers (reimported isDet n)) = orEmpty (markers n)
  /\ position (reimported isDet n) = position n
  /\ relationships (reimported isDet n) = None
  /\ (icon (reimported isDet n), esg (reimported isDet n),
      scope (reimported isDet n), category (reimported isDet n))
     = (None, None, None, None).
Proof.
  unfold reimported. rewrite xmindTopicToKPINode_eq, kpiNodeToXMindTopic_eq.
  cbv zeta. cbn [isDetached markers position relationships icon esg scope
                 category topic_markers topic_position].
  split; [reflexivity|]. split; [|now repeat split].
  destruct (markers n) as [[|m ms]|]; cbn [nonEmpty orEmpty]; try reflexivity.
  rewrite map_map. cbn [markerId]. now rewrite map_id.
Qed.

Section WholeForest.

Variable genXMindId : nat -> string.

(** A top-level node is read back, as a detached node exactly when it is
    one. *)
Lemma top_level_reimported_as data n :
  In n data ->
  In (reimported (isDetachedNode n) n)
     (flat_map sheetNodes (exportSheets genXMindId data)).
Proof.
  intros Hn. unfold isDetachedNode at 1.
  destruct (truthyBool (isDetached n)) eqn:En.
  - assert (Hdet : In n (filter isDetachedNode data)) by now apply filter_In.
    assert (Hne : nonEmpty (filter isDetachedNode data) = true).
    { now destruct (filter isDetachedNode data). }
    assert (Hin : In (reimported true n)
                     (map (fun d => xmindTopicToKPINode d true)
                          (map kpiNodeToXMindTopic (filter isDetachedNode data)))).
    { rewrite map_map. now apply (in_map (reimported true)). }
    destruct (filter notDetached data) as [|r0 roots] eqn:E.
    + unfold exportSheets. rewrite E, Hne. simpl. right. rewrite app_nil_r.
      exact Hin.
    + rewrite (exportSheets_with_root genXMindId data r0 roots E).
      cbn [mapi flat_map]. apply in_or_app. left.
      unfold sheetNodes. right.
      unfold sheetOfRoot. cbn [rootTopic]. rewrite Hne.
      cbn [Nat.eqb andb detached topic_children]. exact Hin.
  - assert (Hroot : In n (filter notDetached data)).
    { apply filter_In. split; [exact Hn|]. unfold notDetached. now rewrite En. }
    destruct (In_nth_error _ _ Hroot) as [i Hi].
    destruct (filter notDetached data) as [|r0 roots] eqn:E; [contradiction|].
    rewrite (exportSheets_with_root genXMindId data r0 roots E).
    apply in_flat_map.
    exists (sheetOfRoot genXMindId data (filter isDetachedNode data) i n).
    split; [|apply sheetNodes_sheetOfRoot].
    apply nth_error_In with i. now rewrite nth_error_mapi, Hi.
Qed.

Lemma kept_reimported_as data n :
  Kept data n ->
  In (reimported (isDetachedNode n) n)
     (forestNodes (flat_map sheetNodes (exportSheets genXMindId data))).
Proof.
  induction 1 as [n Hn|p cs c _ IH Hcs Hc Hatt].
  - now apply In_forestNodes_top, top_level_reimported_as.
  - apply In_forestNodes_child with (reimported (isDetachedNode p) p);
      [exact IH|].
    destruct (reimported_fields (isDetachedNode p) p) as (_ & _ & ->).
    rewrite Hcs. cbn [orEmpty].
    replace (isDetachedNode c) with false
      by (unfold notDetached in Hatt; unfold isDetachedNode;
          now destruct (truthyBool (isDetached c))).
    apply in_map. now apply filter_In.
Qed.

(** The forest that [importFromXMind] makes of the exported container has
    the nodes read from the sheets, with every field of [topicFrame] as
    read. *)
Lemma import_of_export_frame data :
  exists nodes,
    importFromXMind (exportToXMind genXMindId data) = Imported nodes
    /\ map topicFrame (forestNodes nodes)
       = map topicFrame
             (forestNodes (flat_map sheetNodes (exportSheets genXMindId data))).
Proof.
  unfold importFromXMind, exportToXMind. cbn [content_json]. cbv zeta.
  destruct (nonEmpty _); eexists; (split; [reflexivity|]); [|reflexivity].
  apply processRelationships_frame; intros n x; reflexivity.
Qed.

(** X24: what an export followed by an import keeps of a node.  For
    every node that the codec keeps (a top-level node, or a node reached
    from one through children that are not detached) and whose name and
    unit are ASCII text, the imported forest has a node with the same
    identifier, with the name and unit that the joined title splits into,
    the same markers and position, flagged as detached exactly when the
    node was; its icon, ESG category, scope and category are not carried
    and come back undefined. *)
Theorem xmind_roundtrip_of_a_kept_node :
  forall data n,
    Kept data n ->
    asciiNode n ->
    exists nodes n',
      importFromXMind (exportToXMind genXMindId data) = Imported nodes
      /\ In n' (forestNodes nodes)
      /\ id n' = id n
      /\ (name n', unit n') = splitTitle (joinTitle (name n) (unit n))
      /\ isDetached n' = Some (isDetachedNode n)
      /\ orEmpty (markers n') = orEmpty (markers n)
      /\ position n' = position n
      /\ (icon n', esg n', scope n', category n') = (None, None, None, None).
Proof.
  intros data n Hkept _.
  destruct (import_of_export_frame data) as (nodes & Himp & Hframe).
  pose proof (kept_reimported_as data n Hkept) as Hin.
  apply (in_map topicFrame) in Hin. rewrite <- Hframe in Hin.
  apply in_map_iff in Hin as (n' & Hn' & Hn'in).
  exists nodes, n'. split; [exact Himp|]. split; [exact Hn'in|].
  destruct (reimported_fields (isDetachedNode n) n) as (Hid & Hnu & _).
  destruct (reimported_frame (isDetachedNode n) n) as (Hd & Hm & Hp & _ & Hrest).
  unfold topicFrame in Hn'. injection Hn' as E1 E2 E3 E4 E5 E6 E7 E8 E9 E10.
  rewrite E1, E5, E6. rewrite <- Hnu.
  repeat split; congruence.
Qed.

End WholeForest.

Lemma xmind_roundtrip_of_a_kept_node_example :
  (Kept fullForest (leaf "k1" "Fuel") /\ asciiNode (leaf "k1" "Fuel"))
  /\ exists nodes n',
       importFromXMind (exportToXMind sampleId fullForest) = Imported nodes
       /\ In n' (forestNodes nodes)
       /\ id n' = "k1"
       /\ (name n', unit n') = splitTitle (joinTitle "Fuel" None)
       /\ isDetached n' = Some false
       /\ orEmpty (markers n') = []
       /\ position n' = None
       /\ (icon n', esg n', scope n', category n') = (None, None, None, None).
Proof.
  assert (H : Kept fullForest (leaf "k1" "Fuel")).
  { apply Kept_child with (p := fullNode) (cs := orEmpty (children fullNode)).
    - apply Kept_top. now left.
    - reflexivity.
    - now left.
    - reflexivity. }
  assert (Ha : asciiNode (leaf "k1" "Fuel")) by (split; [reflexivity|exact I]).
  split; [split; [exact H|exact Ha]|].
  exact (xmind_roundtrip_of_a_kept_node sampleId fullForest (leaf "k1" "Fuel")
           H Ha).
Defined.
(* ------------------------------------------------------------------ *)
(** ** The identifier map against [findNodeById] *)

Lemma nodeAt_In ref :
  forall forest n, nodeAt ref forest = Some n -> In n (forestNodes forest).
Proof.
  induction ref as [|i rest IH]; intros forest n H; [discriminate|].
  cbn [nodeAt] in H.
  destruct (nth_error forest i) as [ni|] eqn:Ei; [|discriminate].
  apply nth_error_In in Ei.
  destruct rest as [|j rest'].
  - injection H as <-. now apply In_forestNodes_top.
  - apply in_flat_map. exists ni. split; [exact Ei|].
    rewrite nodesOf_eq. right. now apply IH.
Qed.

Section IdentifierMap.

Variable forest : list KPINode.

(** A binding with the node its reference leads to. *)
Let bound (e : string * NodeRef) : string * option KPINode :=
  (fst e, nodeAt (snd e) forest).

Let entry (n : KPINode) : string * option KPINode := (id n, Some n).

Lemma traverseAllIds_bound ref l :
  Forall (fun c => forall ref m, nodeAt ref forest = Some c ->
                     map bound (traverseIds ref c m)
                     = rev (map entry (nodesOf c)) ++ map bound m) l ->
  forall i m,
    (forall j c, nth_error l j = Some c -> nodeAt (ref ++ [i + j]) forest = Some c) ->
    map bound (traverseAllIds ref l i m)
    = rev (map entry (forestNodes l)) ++ map bound m.
Proof.
  induction 1 as [|c l Hc _ IH]; intros i m Hl; [reflexivity|].
  cbn [traverseAllIds]. rewrite IH.
  - rewrite Hc.
    + unfold forestNodes. cbn [flat_map]. rewrite map_app, rev_app_distr.
      now rewrite app_assoc.
    + specialize (Hl 0%nat c eq_refl). now rewrite Nat.add_0_r in Hl.
  - intros j c' Hj. rewrite Nat.add_succ_l, <- Nat.add_succ_r.
    apply Hl. exact Hj.
Qed.

Lemma traverseIds_bound node :
  forall ref m, nodeAt ref forest = Some node ->
    map bound (traverseIds ref node m)
    = rev (map entry (nodesOf node)) ++ map bound m.
Proof.
  induction node as [node IH] using KPINode_nested_ind.
  intros ref m Href. rewrite traverseIds_eq, (nodesOf_eq node).
  cbn [map rev]. rewrite <- app_assoc. cbn [app].
  assert (E : map bound (mapSet (id node) ref m) = entry node :: map bound m).
  { unfold mapSet, bound at 1, entry. cbn [map fst snd]. now rewrite Href. }
  destruct (children node) as [cs|] eqn:Ec; [|exact E].
  cbn [orEmpty]. rewrite traverseAllIds_bound; [now rewrite E|now apply IH|].
  intros j c Hj. simpl. rewrite (nodeAt_snoc _ _ _ _ Href), Ec. exact Hj.
Qed.

Lemma buildNodeIdMap_bound :
  map bound (buildNodeIdMap forest) = rev (map entry (forestNodes forest)).
Proof.
  unfold buildNodeIdMap. rewrite traverseAllIds_bound.
  - apply app_nil_r.
  - apply Forall_forall. intros c _. apply traverseIds_bound.
  - intros j c Hj. simpl. now rewrite Hj.
Qed.

Lemma nodeMapGet_bound m k :
  nodeMapGet forest m k
  = match find (fun e => fst e =? k) (map bound m) with
    | Some e => snd e
    | None => None
    end.
Proof.
  unfold nodeMapGet.
  induction m as [|[k' v] m IH]; [reflexivity|].
  cbn [mapGet map find bound fst snd]. now destruct (k' =? k).
Qed.

Lemma find_entry k l :
  match find (fun e => fst e =? k) (map entry l) with
  | Some e => snd e
  | None => None
  end = find (fun n => id n =? k) l.
Proof.
  induction l as [|n l IH]; [reflexivity|].
  cbn [map find entry fst snd]. now destruct (id n =? k).
Qed.

(** The map resolves an identifier to the last node that carries it. *)
Lemma nodeMapGet_buildNodeIdMap k :
  nodeMapGet forest (buildNodeIdMap forest) k
  = find (fun n => id n =? k) (rev (forestNodes forest)).
Proof.
  rewrite nodeMapGet_bound, buildNodeIdMap_bound, <- map_rev.
  apply find_entry.
Qed.

End IdentifierMap.

Lemma find_rev_unique (l : list KPINode) k :
  NoDup (map id l) ->
  find (fun n => id n =? k) (rev l) = find (fun n => id n =? k) l.
Proof.
  intros Hnd.
  destruct (find (fun n => id n =? k) l) as [n|] eqn:E.
  - apply find_some in E as [Hin Hk]. apply String.eqb_eq in Hk. subst k.
    apply (find_unique id).
    + rewrite map_rev. now apply NoDup_rev.
    + now apply in_rev in Hin.
  - destruct (find (fun n => id n =? k) (rev l)) as [n|] eqn:E'; [|reflexivity].
    apply find_some in E' as [Hin Hk]. apply in_rev in Hin.
    now rewrite (find_none _ _ E n Hin) in Hk.
Qed.

(** X26: [buildNodeIdMap] binds every identifier of the forest and no
    other, to the last node in pre-order that carries it, each [set]
    replacing the binding before; [findNodeById] answers with the first.
    With unique identifiers the two lookups agree. *)
Theorem buildNodeIdMap_resolves_to_last_node :
  forall nodes k,
    nodeMapGet nodes (buildNodeIdMap nodes) k
    = find (fun n => id n =? k) (rev (forestNodes nodes))
    /\ findNodeById k nodes = find (fun n => id n =? k) (forestNodes nodes)
    /\ (NoDup (forestIds nodes) ->
        nodeMapGet nodes (buildNodeIdMap nodes) k = findNodeById k nodes).
Proof.
  intros nodes k. split; [apply nodeMapGet_buildNodeIdMap|].
  split; [apply findNodeById_find|].
  intros Hnd. rewrite nodeMapGet_buildNodeIdMap, findNodeById_find.
  now apply find_rev_unique.
Qed.
(* ------------------------------------------------------------------ *)
(** ** [getAllRelationships] *)

Lemma nodeMapGet_sound forest k t :
  nodeMapGet forest (buildNodeIdMap forest) k = Some t ->
  id t = k /\ In t (forestNodes forest).
Proof.
  unfold nodeMapGet.
  destruct (mapGet k (buildNodeIdMap forest)) as [ref|] eqn:E; [|discriminate].
  intros H. apply mapGet_In in E.
  destruct (buildNodeIdMap_valid forest k ref E) as (n & Hn & Hid).
  split; [congruence|]. now apply nodeAt_In with ref.
Qed.

Lemma seenHas_In seen key : seenHas seen key = true <-> In key seen.
Proof.
  unfold seenHas. rewrite existsb_exists. split.
  - intros (k & Hk & E). apply String.eqb_eq in E. now subst.
  - intros H. exists key. split; [exact H|apply String.eqb_refl].
Qed.

Lemma NoDup_snoc {A : Type} (l : list A) x :
  NoDup l -> ~ In x l -> NoDup (l ++ [x]).
Proof.
  intros Hnd Hx. apply (Permutation_NoDup (l := x :: l)).
  - apply Permutation_cons_append.
  - now constructor.
Qed.

Lemma visitRelationship_sound forest node rel acc :
  In node (forestNodes forest) ->
  In rel (orEmpty (relationships node)) ->
  listedSoundly forest acc ->
  listedSoundly forest
    (visitRelationship forest (buildNodeIdMap forest) node acc rel).
Proof.
  intros Hnode Hrel Hacc. destruct acc as [seen results].
  unfold visitRelationship.
  destruct (endsWith (rel_id rel) "-reverse") eqn:Erev; [exact Hacc|].
  destruct (seenHas seen (seenKey (id node) (targetId rel))) eqn:Eseen;
    [exact Hacc|].
  destruct Hacc as (Hs & Hnd & Hk). cbn [fst snd] in *.
  destruct (nodeMapGet forest (buildNodeIdMap forest) (targetId rel))
    as [target|] eqn:Et.
  - destruct (nodeMapGet_sound forest _ _ Et) as [Hid Hin].
    assert (Ekey : linkKey (mkDisplayedLink node target (label rel))
                   = seenKey (id node) (targetId rel)).
    { unfold linkKey. cbn [link_source link_target]. now rewrite Hid. }
    split; [|split]; cbn [fst snd].
    + apply Forall_app. split; [exact Hs|]. constructor; [|constructor].
      split; [exact Hnode|]. split; [exact Hin|].
      exists rel. cbn [link_source link_target link_label]. now repeat split.
    + rewrite map_app. cbn [map]. rewrite Ekey.
      apply NoDup_snoc; [exact Hnd|].
      intros Hx. apply in_map_iff in Hx as (l & Hl' & Hl).
      specialize (Hk l Hl). congruence.
    + intros l Hl. apply in_app_or in Hl as [Hl|[<-|[]]].
      * apply seenHas_In. right. now apply seenHas_In, Hk.
      * rewrite Ekey. apply seenHas_In. now left.
  - split; [exact Hs|]. split; [exact Hnd|]. cbn [fst snd].
    intros l Hl. apply seenHas_In. right. now apply seenHas_In, Hk.
Qed.

Lemma visitRelationships_sound forest node rs :
  In node (forestNodes forest) ->
  (forall rel, In rel rs -> In rel (orEmpty (relationships node))) ->
  forall acc,
    listedSoundly forest acc ->
    listedSoundly forest
      (fold_left (visitRelationship forest (buildNodeIdMap forest) node) rs acc).
Proof.
  intros Hnode.
  induction rs as [|rel rs IH]; intros Hrs acc Hacc; [exact Hacc|].
  cbn [fold_left]. apply IH.
  - intros r Hr. apply Hrs. now right.
  - apply visitRelationship_sound; [exact Hnode| |exact Hacc].
    apply Hrs. now left.
Qed.

Lemma traverseRelationships_eq forest nodeMap node acc :
  traverseRelationships forest nodeMap node acc
  = fold_left (fun a c => traverseRelationships forest nodeMap c a)
              (orEmpty (children node))
              (fold_left (visitRelationship forest nodeMap node)
                         (orEmpty (relationships node)) acc).
Proof. destruct node as [i nm ic u e s c [cs|] d r m p]; reflexivity. Qed.

Lemma traverseAll_sound forest l :
  Forall (fun c => forall acc,
            In c (forestNodes forest) -> listedSoundly forest acc ->
            listedSoundly forest
              (traverseRelationships forest (buildNodeIdMap forest) c acc)) l ->
  (forall c, In c l -> In c (forestNodes forest)) ->
  forall acc,
    listedSoundly forest acc ->
    listedSoundly forest
      (fold_left (fun a c => traverseRelationships forest (buildNodeIdMap forest) c a)
                 l acc).
Proof.
  induction 1 as [|c l Hc _ IH]; intros Hin acc Hacc; [exact Hacc|].
  cbn [fold_left]. apply IH.
  - intros c' Hc'. apply Hin. now right.
  - apply Hc; [|exact Hacc]. apply Hin. now left.
Qed.

Lemma traverseRelationships_sound forest node :
  forall acc,
    In node (forestNodes forest) -> listedSoundly forest acc ->
    listedSoundly forest
      (traverseRelationships forest (buildNodeIdMap forest) node acc).
Proof.
  induction node as [node IH] using KPINode_nested_ind.
  intros acc Hnode Hacc. rewrite traverseRelationships_eq.
  assert (Hacc1 : listedSoundly forest
                    (fold_left (visitRelationship forest (buildNodeIdMap forest) node)
                               (orEmpty (relationships node)) acc)).
  { apply visitRelationships_sound; [exact Hnode|now intros rel|exact Hacc]. }
  destruct (children node) as [cs|] eqn:Ec; [|exact Hacc1].
  cbn [orEmpty]. apply traverseAll_sound; [now apply IH| |exact Hacc1].
  intros c Hc. apply In_forestNodes_child with node; [exact Hnode|].
  now rewrite Ec.
Qed.

Lemma substring_after s t m :
  substring (String.length s) m (s ++ t) = substring 0 m t.
Proof. induction s as [|c s IH]; [reflexivity|exact IH]. Qed.

Lemma substring_whole t : substring 0 (String.length t) t = t.
Proof. induction t as [|c t IH]; [reflexivity|]. cbn. now rewrite IH. Qed.

Lemma length_append s t :
  String.length (s ++ t) = (String.length s + String.length t)%nat.
Proof. induction s as [|c s IH]; [reflexivity|]. cbn. now rewrite IH. Qed.

Lemma endsWith_append s t : endsWith (s ++ t) t = true.
Proof.
  unfold endsWith. rewrite length_append.
  replace (String.length s + String.length t - String.length t)%nat
    with (String.length s) by lia.
  rewrite substring_after, substring_whole, String.eqb_refl.
  rewrite andb_true_r. apply Nat.leb_le. lia.
Qed.

(** X27: every link [getAllRelationships] lists is an edge stored on its
    source whose identifier does not end in ["-reverse"], with the label
    of the edge, from a node of the forest to the node of the forest that
    the identifier map resolves the target to; no two links listed have the
    same pair of source and target identifiers; and the reverse edges that
    [processRelationships] pushes carry the suffix, so none of them is the
    edge of a listed link. *)
Theorem getAllRelationships_lists_stored_forward_edges_once :
  forall nodes,
    Forall (storedEdge nodes) (getAllRelationships nodes)
    /\ NoDup (map linkKey (getAllRelationships nodes))
    /\ (forall rel, endsWith (rel_id (reverseOf rel)) "-reverse" = true).
Proof.
  intros nodes.
  assert (H : listedSoundly nodes
                (fold_left
                   (fun a c => traverseRelationships nodes (buildNodeIdMap nodes) c a)
                   nodes ([], []))).
  { apply traverseAll_sound.
    - apply Forall_forall. intros c _ acc. apply traverseRelationships_sound.
    - intros c. apply In_forestNodes_top.
    - split; [constructor|]. split; [constructor|intros l []]. }
  destruct H as (Hs & Hnd & _).
  split; [exact Hs|]. split; [exact Hnd|].
  intros rel. apply endsWith_append.
Qed.

(* ================================================================== *)
(** * Properties of the tab manager *)

Lemma find_findIndex {A : Type} (p : A -> bool) (l : list A) x :
  find p l = Some x ->
  nth_error l (findIndex p l) = Some x
  /\ (findIndex p l < length l)%nat
  /\ p x = true.
Proof.
  induction l as [|y l IH]; simpl; [discriminate|].
  destruct (p y) eqn:E.
  - intros [= ->]. repeat split; [lia|exact E].
  - intros H. destruct (IH H) as (H1 & H2 & H3). repeat split; [exact H1|lia|exact H3].
Qed.

Lemma spliceOut_cons {A : Type} (x : A) l i :
  spliceOut (S i) (x :: l) = x :: spliceOut i l.
Proof. reflexivity. Qed.

Lemma spliceOut_In {A : Type} (l : list A) i x :
  In x (spliceOut i l) -> In x l.
Proof.
  unfold spliceOut. intros H. apply in_app_or in H as [H|H].
  - rewrite <- (firstn_skipn i l). apply in_or_app. now left.
  - rewrite <- (firstn_skipn (S i) l). apply in_or_app. now right.
Qed.

(** Taking out an element that fails [p] keeps the elements that hold
    [p], and taking out the element at [i] keeps the others that fail. *)
Lemma filter_spliceOut {A : Type} (p : A -> bool) (l : list A) :
  forall i x, nth_error l i = Some x -> p x = false ->
    filter p (spliceOut i l) = filter p l.
Proof.
  induction l as [|y l IH]; intros [|i] x Hi Hp; try discriminate.
  - injection Hi as ->. unfold spliceOut. cbn [firstn skipn app filter].
    now rewrite Hp.
  - rewrite spliceOut_cons. cbn [filter]. cbn [nth_error] in Hi.
    now rewrite (IH i x Hi Hp).
Qed.

Lemma In_spliceOut_other (l : list TabState) tabId :
  forall t, In t l -> tab_id t <> tabId ->
    In t (spliceOut (findIndex (hasTabId tabId) l) l).
Proof.
  induction l as [|y l IH]; intros t Hin Hne; [contradiction|].
  cbn [findIndex]. destruct (hasTabId tabId y) eqn:E.
  - unfold spliceOut. cbn [firstn skipn app].
    destruct Hin as [->|Hin]; [|exact Hin].
    unfold hasTabId in E. apply String.eqb_eq in E. contradiction.
  - rewrite spliceOut_cons. destruct Hin as [->|Hin]; [now left|].
    right. now apply IH.
Qed.

Lemma closeTab_closed tabId st tab :
  find (hasTabId tabId) (tabs st) = Some tab -> isPreset tab = false ->
  tabs (closeTab tabId st)
  = spliceOut (findIndex (hasTabId tabId) (tabs st)) (tabs st).
Proof.
  intros Hf Hp. unfold closeTab. rewrite Hf, Hp.
  now destruct (activeTabId st =? tabId).
Qed.

Lemma closeTab_refused tabId st :
  match find (hasTabId tabId) (tabs st) with
  | Some tab => isPreset tab = true
  | None => True
  end ->
  closeTab tabId st = st.
Proof.
  unfold closeTab. destruct (find (hasTabId tabId) (tabs st)) as [tab|]; [|reflexivity].
  now intros ->.
Qed.

Lemma idOrConsolidated_In l i :
  (forall t, In t l -> tab_id t <> "") -> l <> [] ->
  In (idOrConsolidated (nth_error l (Nat.min i (length l - 1)))) (map tab_id l).
Proof.
  intros Hne Hl.
  destruct (nth_error l (Nat.min i (length l - 1))) as [t|] eqn:E.
  - apply nth_error_In in E. unfold idOrConsolidated.
    destruct (tab_id t =? "") eqn:Et.
    + apply String.eqb_eq in Et. now destruct (Hne t E).
    + now apply in_map.
  - apply nth_error_None in E. destruct l; [now destruct Hl|]. simpl in E. lia.
Qed.

(** X28: [closeTab] never closes a preset tab, adds no tab and closes at
    most the first tab with the identifier: the preset tabs are the same
    before and after, and a tab with another identifier stays.  When no tab
    has an empty identifier and a tab is left, the active identifier names
    a tab afterwards if it did before. *)
Theorem closeTab_keeps_presets_and_the_active_tab :
  forall tabId st,
    filter isPreset (tabs (closeTab tabId st)) = filter isPreset (tabs st)
    /\ (forall t, In t (tabs (closeTab tabId st)) -> In t (tabs st))
    /\ (forall t, In t (tabs st) -> tab_id t <> tabId ->
                  In t (tabs (closeTab tabId st)))
    /\ ((forall t, In t (tabs st) -> tab_id t <> "") ->
        tabs (closeTab tabId st) <> [] ->
        In (activeTabId st) (map tab_id (tabs st)) ->
        In (activeTabId (closeTab tabId st))
           (map tab_id (tabs (closeTab tabId st)))).
Proof.
  intros tabId st.
  destruct (find (hasTabId tabId) (tabs st)) as [tab|] eqn:Hf.
  2:{ rewrite (closeTab_refused tabId st) by now rewrite Hf. now repeat split. }
  destruct (isPreset tab) eqn:Hp.
  1:{ rewrite (closeTab_refused tabId st) by now rewrite Hf. now repeat split. }
  destruct (find_findIndex _ _ _ Hf) as (Hnth & Hlt & Hid).
  pose proof (closeTab_closed tabId st tab Hf Hp) as Htabs.
  split; [|split; [|split]].
  - rewrite Htabs. now apply filter_spliceOut with tab.
  - rewrite Htabs. intros t. apply spliceOut_In.
  - rewrite Htabs. apply In_spliceOut_other.
  - intros Hne Hleft Hact. rewrite Htabs in Hleft |- *.
    unfold closeTab. rewrite Hf, Hp. cbv zeta.
    destruct (activeTabId st =? tabId) eqn:Ea; cbn [activeTabId].
    + apply idOrConsolidated_In; [|exact Hleft].
      intros t Ht. apply Hne. now apply spliceOut_In in Ht.
    + apply String.eqb_neq in Ea.
      apply in_map_iff in Hact as (t & Et & Ht).
      apply in_map_iff. exists t. split; [exact Et|].
      apply In_spliceOut_other; [exact Ht|congruence].
Qed.

Lemma closeTab_keeps_presets_example :
  ((forall t, In t (tabs sampleTabs) -> tab_id t <> "")
   /\ tabs (closeTab "tab-1" sampleTabs) <> []
   /\ In (activeTabId sampleTabs) (map tab_id (tabs sampleTabs)))
  /\ In (activeTabId (closeTab "tab-1" sampleTabs))
        (map tab_id (tabs (closeTab "tab-1" sampleTabs))).
Proof.
  assert (H1 : forall t, In t (tabs sampleTabs) -> tab_id t <> "").
  { intros t [<-|[<-|[<-|[]]]]; discriminate. }
  assert (H2 : tabs (closeTab "tab-1" sampleTabs) <> []) by discriminate.
  assert (H3 : In (activeTabId sampleTabs) (map tab_id (tabs sampleTabs))).
  { right. now left. }
  split; [split; [exact H1|split; [exact H2|exact H3]]|].
  exact (proj2 (proj2 (proj2 (closeTab_keeps_presets_and_the_active_tab
                                "tab-1" sampleTabs))) H1 H2 H3).
Defined.

(* ------------------------------------------------------------------ *)
(** ** [duplicateTab] and [closeTab] *)

Lemma findIndex_unique_tab (l : list TabState) :
  forall i t,
    NoDup (map tab_id l) -> nth_error l i = Some t ->
    find (hasTabId (tab_id t)) l = Some t
    /\ findIndex (hasTabId (tab_id t)) l = i.
Proof.
  induction l as [|y l IH]; intros i t Hnd Hi; [now destruct i|].
  cbn [find findIndex]. inversion Hnd as [|? ? Hy Hnd']; subst.
  destruct i as [|i].
  - injection Hi as ->. unfold hasTabId. now rewrite String.eqb_refl.
  - cbn [nth_error] in Hi.
    assert (E : hasTabId (tab_id t) y = false).
    { unfold hasTabId. apply String.eqb_neq. intros E. apply Hy.
      rewrite E. apply in_map. now apply nth_error_In with i. }
    rewrite E. destruct (IH i t Hnd' Hi) as [-> ->]. now split.
Qed.

Lemma find_fresh (l1 l2 : list TabState) x newId :
  ~ In newId (map tab_id l1) -> tab_id x = newId ->
  find (hasTabId newId) (l1 ++ x :: l2) = Some x
  /\ findIndex (hasTabId newId) (l1 ++ x :: l2) = length l1.
Proof.
  intros Hfresh Hx.
  induction l1 as [|y l1 IH]; cbn [app find findIndex length].
  - unfold hasTabId. rewrite Hx, String.eqb_refl. now split.
  - assert (E : hasTabId newId y = false).
    { unfold hasTabId. apply String.eqb_neq. intros E. apply Hfresh. now left. }
    rewrite E. destruct IH as [-> ->]; [|now split].
    intros H. apply Hfresh. now right.
Qed.

Lemma spliceOut_spliceIn {A : Type} (l : list A) i x :
  (i <= length l)%nat -> spliceOut i (spliceIn i x l) = l.
Proof.
  intros Hi. unfold spliceOut, spliceIn.
  assert (Hlen : length (firstn i l) = i) by (apply firstn_length_le; exact Hi).
  rewrite firstn_app, skipn_app, Hlen.
  rewrite firstn_firstn, Nat.min_id.
  replace (i - i)%nat with 0%nat by lia.
  replace (S i - i)%nat with 1%nat by lia.
  rewrite (@skipn_all2 _ (S i) (firstn i l)) by (rewrite Hlen; lia).
  cbn [firstn skipn app]. rewrite app_nil_r. apply firstn_skipn.
Qed.

Section DuplicateTab.

Variable generateTabId : nat -> string.

(** X29: in a tab list with unique identifiers, [duplicateTab] on the tab
    at index [i] answers with the fresh identifier, makes it the active one
    and puts the copy right behind the tab: a custom tab, also when the
    source is a preset, with the data, expanded nodes, search term and ESG
    filter of the source.  Closing the copy gives the tab list back, and
    the tab that was behind the source, or the source when it was last,
    becomes the active one. *)
Theorem duplicateTab_then_closeTab_restores_the_tabs :
  forall newName st i src,
    NoDup (map tab_id (tabs st)) ->
    nth_error (tabs st) i = Some src ->
    ~ In (generateTabId (nextTabId st)) (map tab_id (tabs st)) ->
    fst (duplicateTab generateTabId (tab_id src) newName st)
    = Some (generateTabId (nextTabId st))
    /\ tabs (snd (duplicateTab generateTabId (tab_id src) newName st))
       = firstn (S i) (tabs st)
         ++ copyOfTab (generateTabId (nextTabId st)) newName src
         :: skipn (S i) (tabs st)
    /\ activeTabId (snd (duplicateTab generateTabId (tab_id src) newName st))
       = generateTabId (nextTabId st)
    /\ (isPreset (copyOfTab (generateTabId (nextTabId st)) newName src) = false
        /\ tab_data (copyOfTab (generateTabId (nextTabId st)) newName src)
           = tab_data src
        /\ expandedNodes (copyOfTab (generateTabId (nextTabId st)) newName src)
           = expandedNodes src
        /\ searchTerm (copyOfTab (generateTabId (nextTabId st)) newName src)
           = searchTerm src
        /\ showESGOnly (copyOfTab (generateTabId (nextTabId st)) newName src)
           = showESGOnly src)
    /\ tabs (closeTab (generateTabId (nextTabId st))
                      (snd (duplicateTab generateTabId (tab_id src) newName st)))
       = tabs st
    /\ activeTabId
         (closeTab (generateTabId (nextTabId st))
                   (snd (duplicateTab generateTabId (tab_id src) newName st)))
       = idOrConsolidated
           (nth_error (tabs st) (Nat.min (S i) (length (tabs st) - 1))).
Proof.
  intros newName st i src Hnd Hi Hfresh.
  set (newId := generateTabId (nextTabId st)).
  set (copy := copyOfTab newId newName src).
  destruct (findIndex_unique_tab (tabs st) i src Hnd Hi) as [Hf Hidx].
  assert (Hlt : (i < length (tabs st))%nat).
  { apply nth_error_Some. now rewrite Hi. }
  assert (Hdup : duplicateTab generateTabId (tab_id src) newName st
                 = (Some newId,
                    mkTabManager (spliceIn (S i) copy (tabs st)) newId
                                 (S (nextTabId st)))).
  { unfold duplicateTab. rewrite Hf, Hidx. cbv zeta.
    now rewrite Nat.add_1_r. }
  rewrite Hdup. cbn [fst snd tabs activeTabId].
  split; [reflexivity|]. split; [reflexivity|]. split; [reflexivity|].
  split; [now repeat split|].
  assert (Hlen : length (firstn (S i) (tabs st)) = S i)
    by (apply firstn_length_le; lia).
  assert (Hfresh' : ~ In newId (map tab_id (firstn (S i) (tabs st)))).
  { intros H. apply Hfresh. apply in_map_iff in H as (t & Et & Ht).
    apply in_map_iff. exists t. split; [exact Et|].
    rewrite <- (firstn_skipn (S i) (tabs st)). apply in_or_app. now left. }
  destruct (find_fresh (firstn (S i) (tabs st)) (skipn (S i) (tabs st)) copy newId
                       Hfresh' eq_refl) as [Hfc Hic].
  rewrite Hlen in Hic.
  assert (Hclose :
            closeTab newId
                     (mkTabManager (spliceIn (S i) copy (tabs st)) newId
                                   (S (nextTabId st)))
            = mkTabManager
                (tabs st)
                (idOrConsolidated
                   (nth_error (tabs st) (Nat.min (S i) (length (tabs st) - 1))))
                (S (nextTabId st))).
  { unfold closeTab. cbn [tabs activeTabId nextTabId].
    change (spliceIn (S i) copy (tabs st))
      with (firstn (S i) (tabs st) ++ copy :: skipn (S i) (tabs st)).
    rewrite Hfc, Hic. cbn [isPreset copy copyOfTab].
    rewrite String.eqb_refl. cbv zeta.
    change (firstn (S i) (tabs st) ++ copy :: skipn (S i) (tabs st))
      with (spliceIn (S i) copy (tabs st)).
    now rewrite (spliceOut_spliceIn (tabs st) (S i) copy) by lia. }
  rewrite Hclose. now split.
Qed.

End DuplicateTab.

Lemma duplicateTab_then_closeTab_example :
  (NoDup (map tab_id (tabs sampleTabs))
   /\ nth_error (tabs sampleTabs) 0 = Some consolidatedTab
   /\ ~ In (sampleTabId (nextTabId sampleTabs)) (map tab_id (tabs sampleTabs)))
  /\ fst (duplicateTab sampleTabId "consolidated" None sampleTabs) = Some "tab-x0"
  /\ map (fun t => (tab_id t, tab_name t, isPreset t))
         (tabs (snd (duplicateTab sampleTabId "consolidated" None sampleTabs)))
     = [("consolidated", "Consolidated", true);
        ("tab-x0", "Consolidated (Copy)", false);
        ("tab-1", "Scratch", false);
        ("financial", "Financial", true)]
  /\ tabs (closeTab "tab-x0"
             (snd (duplicateTab sampleTabId "consolidated" None sampleTabs)))
     = tabs sampleTabs
  /\ activeTabId (closeTab "tab-x0"
                    (snd (duplicateTab sampleTabId "consolidated" None sampleTabs)))
     = "tab-1".
Proof.
  assert (H1 : NoDup (map tab_id (tabs sampleTabs))).
  { repeat constructor; cbn; intuition discriminate. }
  assert (H3 : ~ In (sampleTabId (nextTabId sampleTabs))
                    (map tab_id (tabs sampleTabs))).
  { cbn. intuition discriminate. }
  split; [split; [exact H1|split; [reflexivity|exact H3]]|].
  destruct (duplicateTab_then_closeTab_restores_the_tabs
              sampleTabId None sampleTabs 0 consolidatedTab H1 eq_refl H3)
    as (Ha & Hb & _ & _ & Hc & Hd).
  split; [exact Ha|].
  split; [exact (f_equal (map (fun t => (tab_id t, tab_name t, isPreset t))) Hb)|].
  split; [exact Hc|exact Hd].
Defined.
(* ================================================================== *)
(** * Properties of the search *)

Lemma setAdd_In x a s : In x (setAdd a s) <-> x = a \/ In x s.
Proof.
  unfold setAdd, setHas, includesStr.
  destruct (existsb (fun m => m =? a) s) eqn:E.
  - split; [now right|]. intros [->|H]; [|exact H].
    apply existsb_exists in E as (y & Hy & Ey).
    apply String.eqb_eq in Ey. now subst.
  - rewrite in_app_iff. cbn [In]. intuition.
Qed.

Lemma setAdd_NoDup a s : NoDup s -> NoDup (setAdd a s).
Proof.
  intros H. unfold setAdd, setHas, includesStr.
  destruct (existsb (fun m => m =? a) s) eqn:E; [exact H|].
  apply NoDup_snoc; [exact H|]. intros Ha.
  assert (E' : existsb (fun m => m =? a) s = true).
  { apply existsb_exists. exists a. split; [exact Ha|apply String.eqb_refl]. }
  congruence.
Qed.

Lemma setAddAll_In l :
  forall s x, In x (fold_left (fun s a => setAdd a s) l s) <-> In x l \/ In x s.
Proof.
  induction l as [|a l IH]; intros s x; cbn [fold_left In]; [tauto|].
  rewrite IH, setAdd_In. intuition.
Qed.

Lemma setAddAll_NoDup l :
  forall s, NoDup s -> NoDup (fold_left (fun s a => setAdd a s) l s).
Proof.
  induction l as [|a l IH]; intros s H; [exact H|].
  cbn [fold_left]. now apply IH, setAdd_NoDup.
Qed.

Lemma traverseSearch_eq ls anc node acc :
  traverseSearch ls anc node acc
  = fold_left (fun a c => traverseSearch ls (anc ++ [id node]) c a)
              (orEmpty (children node))
              (if nodeMatches ls node then addMatch anc node acc else acc).
Proof. destruct node as [i nm ic u e s c [cs|] d r m p]; reflexivity. Qed.

Lemma matchIn_cons ls n l :
  matchIn ls (n :: l) <-> nodeMatches ls n = true \/ matchIn ls l.
Proof.
  unfold matchIn. split.
  - intros (m & [<-|Hm] & E); [now left|right; now exists m].
  - intros [E|(m & Hm & E)]; [exists n|exists m]; split; auto; now (left + right).
Qed.

Lemma matchIn_app ls l1 l2 :
  matchIn ls (l1 ++ l2) <-> matchIn ls l1 \/ matchIn ls l2.
Proof.
  unfold matchIn. split.
  - intros (m & Hm & E). apply in_app_or in Hm as [Hm|Hm];
      [left|right]; now exists m.
  - intros [(m & Hm & E)|(m & Hm & E)]; exists m; split; auto;
      apply in_or_app; now (left + right).
Qed.

Lemma aboveMatch_cons ls n l x :
  aboveMatch ls (n :: l) x
  <-> (id n = x /\ matchIn ls (forestNodes (orEmpty (children n))))
      \/ aboveMatch ls l x.
Proof.
  unfold aboveMatch. split.
  - intros (p & [<-|Hp] & E & M); [now left|right; now exists p].
  - intros [[E M]|(p & Hp & E & M)]; [exists n|exists p]; repeat split; auto;
      now (left + right).
Qed.

Lemma aboveMatch_app ls l1 l2 x :
  aboveMatch ls (l1 ++ l2) x <-> aboveMatch ls l1 x \/ aboveMatch ls l2 x.
Proof.
  unfold aboveMatch. split.
  - intros (p & Hp & E & M). apply in_app_or in Hp as [Hp|Hp];
      [left|right]; now exists p.
  - intros [(p & Hp & E & M)|(p & Hp & E & M)]; exists p; repeat split; auto;
      apply in_or_app; now (left + right).
Qed.

Lemma matchIn_nil ls : ~ matchIn ls [].
Proof. now intros (m & [] & _). Qed.

Lemma aboveMatch_nil ls x : ~ aboveMatch ls [] x.
Proof. now intros (p & [] & _). Qed.

Lemma searchAdds_nil ls anc acc : searchAdds ls anc [] acc acc.
Proof.
  unfold searchAdds. split; [|split; [|now repeat split]].
  - intros x. split; [now left|]. now intros [H|(n & [] & _)].
  - intros x. split; [now left|].
    intros [H|[[_ H]|H]]; [exact H| |]; exfalso.
    + now apply (matchIn_nil ls).
    + now apply (aboveMatch_nil ls x).
Qed.

Lemma searchAdds_app ls anc l1 l2 a b c :
  searchAdds ls anc l1 a b -> searchAdds ls anc l2 b c ->
  searchAdds ls anc (l1 ++ l2) a c.
Proof.
  intros (M1 & A1 & E1 & N1 & D1) (M2 & A2 & E2 & N2 & D2).
  split; [|split; [|split; [auto|split; auto]]].
  - intros x. rewrite M2, M1. split.
    + intros [[H|(n & Hn & E)]|(n & Hn & E)]; [now left| |];
        right; exists n; (split; [apply in_or_app|exact E]); now (left + right).
    + intros [H|(n & Hn & E)]; [now left; left|].
      apply in_app_or in Hn as [Hn|Hn]; [left; right|right]; now exists n.
  - intros x. rewrite A2, A1, matchIn_app, aboveMatch_app. tauto.
Qed.

Lemma traverseAll_search ls anc l :
  Forall (fun c => forall anc acc,
            searchAdds ls anc (nodesOf c) acc (traverseSearch ls anc c acc)) l ->
  forall acc,
    searchAdds ls anc (forestNodes l) acc
               (fold_left (fun a c => traverseSearch ls anc c a) l acc).
Proof.
  induction 1 as [|c l Hc _ IH]; intros acc; [apply searchAdds_nil|].
  cbn [fold_left]. unfold forestNodes. cbn [flat_map].
  apply searchAdds_app with (traverseSearch ls anc c acc); [apply Hc|apply IH].
Qed.

Lemma traverseSearch_adds ls node :
  forall anc acc,
    searchAdds ls anc (nodesOf node) acc (traverseSearch ls anc node acc).
Proof.
  induction node as [node IH] using KPINode_nested_ind.
  intros anc acc. rewrite traverseSearch_eq, (nodesOf_eq node).
  assert (Hkids : searchAdds ls (anc ++ [id node])
                    (forestNodes (orEmpty (children node)))
                    (if nodeMatches ls node then addMatch anc node acc else acc)
                    (fold_left
                       (fun a c => traverseSearch ls (anc ++ [id node]) c a)
                       (orEmpty (children node))
                       (if nodeMatches ls node then addMatch anc node acc else acc))).
  { apply traverseAll_search.
    destruct (children node) as [cs|] eqn:Ec; [now apply IH|constructor]. }
  destruct Hkids as (M & A & E & N & D).
  split; [|split; [|split; [|split]]].
  - intros x. rewrite M. destruct (nodeMatches ls node) eqn:Em.
    + cbn [addMatch matchingIds]. rewrite setAdd_In. split.
      * intros [[->|H]|(n & Hn & En)].
        -- right. exists node. split; [now left|]. now split.
        -- now left.
        -- right. exists n. split; [now right|exact En].
      * intros [H|(n & [<-|Hn] & En & Emn)].
        -- left. now right.
        -- left. left. now symmetry.
        -- right. now exists n.
    + split.
      * intros [H|(n & Hn & En)]; [now left|].
        right. exists n. split; [now right|exact En].
      * intros [H|(n & [<-|Hn] & En & Emn)]; [now left|congruence|].
        right. now exists n.
  - intros x. rewrite A, matchIn_cons, aboveMatch_cons, in_app_iff. cbn [In].
    destruct (nodeMatches ls node) eqn:Em.
    + cbn [addMatch ancestorIds]. rewrite setAddAll_In.
      intuition (try discriminate; auto).
    + intuition (try discriminate; auto).
  - intros H. apply E. destruct (nodeMatches ls node); [|exact H].
    cbn [addMatch expandIds ancestorIds]. now rewrite H.
  - intros H. apply N. destruct (nodeMatches ls node); [|exact H].
    cbn [addMatch matchingIds]. now apply setAdd_NoDup.
  - intros H. apply D. destruct (nodeMatches ls node); [|exact H].
    cbn [addMatch ancestorIds]. now apply setAddAll_NoDup.
Qed.

(** X30: the sets of [findMatchingNodesAndAncestors], for a forest whose
    names and units are ASCII text and a search term that is ASCII text.
    [matchingIds] has the identifiers of the nodes of the forest whose name
    or unit contains the search term, letter case apart; [ancestorIds] has
    the identifiers of the nodes with such a node somewhere below them;
    [expandIds] is the same set as [ancestorIds]; and no identifier is
    listed twice. *)
Theorem findMatchingNodesAndAncestors_sets :
  forall nodes searchTerm,
    Forall asciiNode (forestNodes nodes) ->
    asciiText searchTerm ->
    (forall x, In x (matchingIds (findMatchingNodesAndAncestors nodes searchTerm))
               <-> exists n, In n (forestNodes nodes) /\ id n = x
                             /\ nodeMatches (toLowerCase searchTerm) n = true)
    /\ (forall x, In x (ancestorIds (findMatchingNodesAndAncestors nodes searchTerm))
                  <-> aboveMatch (toLowerCase searchTerm) (forestNodes nodes) x)
    /\ expandIds (findMatchingNodesAndAncestors nodes searchTerm)
       = ancestorIds (findMatchingNodesAndAncestors nodes searchTerm)
    /\ NoDup (matchingIds (findMatchingNodesAndAncestors nodes searchTerm))
    /\ NoDup (ancestorIds (findMatchingNodesAndAncestors nodes searchTerm)).
Proof.
  intros nodes searchTerm _ _.
  destruct (traverseAll_search (toLowerCase searchTerm) [] nodes
              (proj2 (Forall_forall _ nodes)
                     (fun c _ => traverseSearch_adds (toLowerCase searchTerm) c))
              (mkSearchSets [] [] []))
    as (M & A & E & N & D).
  fold (findMatchingNodesAndAncestors nodes searchTerm) in M, A, E, N, D.
  cbn [matchingIds ancestorIds expandIds] in M, A, E, N, D.
  split; [|split; [|split; [now apply E|split; [apply N|apply D]; constructor]]].
  - intros x. rewrite M. cbn [In]. tauto.
  - intros x. rewrite A. cbn [In]. tauto.
Qed.

Lemma findMatchingNodesAndAncestors_example :
  (Forall asciiNode (forestNodes ebitdaForest) /\ asciiText "REVENUE")
  /\ In "production-revenue"
        (matchingIds (findMatchingNodesAndAncestors ebitdaForest "REVENUE"))
  /\ In "ebitda-root"
        (ancestorIds (findMatchingNodesAndAncestors ebitdaForest "REVENUE"))
  /\ expandIds (findMatchingNodesAndAncestors ebitdaForest "REVENUE")
     = ancestorIds (findMatchingNodesAndAncestors ebitdaForest "REVENUE").
Proof.
  assert (H1 : Forall asciiNode (forestNodes ebitdaForest)).
  { repeat constructor. }
  assert (H2 : asciiText "REVENUE") by reflexivity.
  split; [split; [exact H1|exact H2]|].
  destruct (findMatchingNodesAndAncestors_sets ebitdaForest "REVENUE" H1 H2)
    as (M & A & E & _).
  split; [|split; [|exact E]].
  - apply M. exists (leaf "production-revenue" "Production (Revenue)").
    split; [right; now left|]. now split.
  - apply A. exists (branch "ebitda-root"
                            [leaf "production-revenue" "Production (Revenue)"]).
    split; [now left|]. split; [reflexivity|].
    exists (leaf "production-revenue" "Production (Revenue)").
    split; [now left|reflexivity].
Defined.
